(** * gb-airspace: decoding of UK airspace definitions and point queries

    A shallow embedding of [airspace.go] (package [airspace]) and of the
    older copy of the same file kept in the repository, together with the
    properties of the decoders, the arc rasteriser, the normaliser and the
    containment query that the specification states.

    Conventions.
    - [float64] values are IEEE 754 binary64 numbers, represented by the
      [spec_float] of the standard library with precision 53 and maximal
      exponent 1024; arithmetic is round-to-nearest-even, as in Go.
    - Go strings are byte strings: [string] is a list of 8-bit characters,
      [len] is [String.length], indexing is [String.get], slicing is
      [String.substring].
    - Functions of the Go standard library and of the third-party packages
      ([strconv.ParseFloat], [strings.ToUpper], [math.Sin], [geo.Bearing],
      [planar.RingContains], [yaml.Unmarshal], ...) whose code is not part
      of the repository are fields of the record [External]; what is known
      of them is stated as explicit hypotheses where a proof needs it. *)

From Stdlib Require Import ZArith Lia Bool List String Ascii DecimalString DecimalNat.
From Stdlib Require Import Floats.SpecFloat.
From stdpp Require Import base option list strings gmap.

Local Open Scope string_scope.
Local Open Scope list_scope.
Local Open Scope Z_scope.

(* ===================================================================== *)
(** * Binary64 arithmetic                                                 *)
(* ===================================================================== *)

Module F64.

Definition prec : Z := 53.
Definition emax : Z := 1024.

Definition float64 : Type := spec_float.

Definition add : float64 -> float64 -> float64 := SFadd prec emax.
Definition sub : float64 -> float64 -> float64 := SFsub prec emax.
Definition mul : float64 -> float64 -> float64 := SFmul prec emax.
Definition div : float64 -> float64 -> float64 := SFdiv prec emax.
Definition sqrt : float64 -> float64 := SFsqrt prec emax.
Definition opp : float64 -> float64 := SFopp.

(** Go's [<], [<=], [==] and [!=] on [float64]: every comparison with a
    NaN is false, except [!=], which is true. *)
Definition ltb : float64 -> float64 -> bool := SFltb.
Definition leb : float64 -> float64 -> bool := SFleb.
Definition eqb : float64 -> float64 -> bool := SFeqb.
Definition neqb (x y : float64) : bool := negb (SFeqb x y).

(** Conversion of an integer, [float64(n)]. *)
Definition of_Z (n : Z) : float64 := binary_normalize prec emax n 0 false.

Definition zero : float64 := S754_zero false.
Definition nan : float64 := S754_nan.

(** A value is a binary64 number when its mantissa and exponent are in
    canonical form. *)
Definition valid (x : float64) : bool := valid_binary prec emax x.

Definition is_finite (x : float64) : bool :=
  match x with
  | S754_zero _ | S754_finite _ _ _ => true
  | _ => false
  end.

(** The value of a finite number in units of the smallest positive
    binary64 number, [2^-1074]; an integer for every valid number. *)
Definition scaled (x : float64) : Z :=
  match x with
  | S754_finite s m e => cond_Zopp s (Z.pos m * 2 ^ (e + 1074))
  | _ => 0
  end.

(** One unit of value, [1.0], on the scale of [scaled]. *)
Definition unit : Z := 2 ^ 1074.

End F64.

Abbreviation float64 := F64.float64.

Declare Scope f64_scope.
Delimit Scope f64_scope with f64.
Bind Scope f64_scope with F64.float64.
Infix "+" := F64.add : f64_scope.
Infix "-" := F64.sub : f64_scope.
Infix "*" := F64.mul : f64_scope.
Infix "/" := F64.div : f64_scope.
Notation "- x" := (F64.opp x) : f64_scope.
Infix "<?" := F64.ltb : f64_scope.
Infix "<=?" := F64.leb : f64_scope.
Infix "=?" := F64.eqb : f64_scope.
Infix "!=?" := F64.neqb (at level 70) : f64_scope.

(** Floating-point literals of the source that are integers. *)
Notation "'#' n" := (F64.of_Z n) (at level 1, n at level 0, format "# n") : f64_scope.

(* ===================================================================== *)
(** * Errors and results                                                  *)
(* ===================================================================== *)

(** The two errors of package [strconv]. *)
Inductive NumError := ErrSyntax | ErrRange.

Definition failed {E : Type} (err : option E) : bool :=
  match err with Some _ => true | None => false end.

(* ===================================================================== *)
(** * Byte strings                                                        *)
(* ===================================================================== *)

(** [s[lo:hi]] *)
Definition slice (s : string) (lo hi : nat) : string :=
  String.substring lo (hi - lo) s.

(** [s[lo:]] *)
Definition slice_from (s : string) (lo : nat) : string :=
  String.substring lo (String.length s - lo) s.

(** [strings.HasPrefix] *)
Definition HasPrefix (s p : string) : bool := String.prefix p s.

(** [strings.TrimSuffix]: [s] without the trailing [suffix], or [s]. *)
Definition TrimSuffix (s suffix : string) : string :=
  let n := String.length s in
  let k := String.length suffix in
  if (k <=? n)%nat && String.eqb (String.substring (n - k) k s) suffix
  then String.substring 0 (n - k) s
  else s.

(** [strings.ReplaceAll s old new] for one-byte [old] and [new]. *)
Fixpoint ReplaceAll1 (s : string) (old new : ascii) : string :=
  match s with
  | EmptyString => EmptyString
  | String c s' =>
      String (if Ascii.eqb c old then new else c) (ReplaceAll1 s' old new)
  end.

Definition is_digit (c : ascii) : bool :=
  let n := N_of_ascii c in ((48 <=? n) && (n <=? 57))%N.

Definition digit_val (c : ascii) : Z := Z.of_N (N_of_ascii c) - 48.

(** [strconv.FormatInt(i, 10)] for a non-negative [i]. *)
Definition FormatInt (i : nat) : string :=
  NilEmpty.string_of_uint (Nat.to_uint i).

(* --------------------------------------------------------------------- *)
(** ** [strconv.ParseUint(s, 10, 64)]                                      *)
(* --------------------------------------------------------------------- *)

Definition maxUint64 : Z := 2 ^ 64 - 1.

(** The loop of [ParseUint] over the bytes of [s], for base 10 and 64
    bits: a byte that is not a decimal digit is a syntax error, a value
    that does not fit is a range error (and the value is [maxUint64]). *)
Fixpoint ParseUint_loop (s : string) (n : Z) : Z * option NumError :=
  match s with
  | EmptyString => (n, None)
  | String c s' =>
      if negb (is_digit c) then (0, Some ErrSyntax)
      else if maxUint64 / 10 + 1 <=? n then (maxUint64, Some ErrRange)
      else
        let n := n * 10 in
        let n1 := (n + digit_val c) mod 2 ^ 64 in
        if (n1 <? n) || (maxUint64 <? n1) then (maxUint64, Some ErrRange)
        else ParseUint_loop s' n1
  end.

Definition ParseUint (s : string) : Z * option NumError :=
  match s with
  | EmptyString => (0, Some ErrSyntax)
  | _ => ParseUint_loop s 0
  end.

(* ===================================================================== *)
(** * Data model                                                          *)
(* ===================================================================== *)

(** [orb.Point]: longitude first, then latitude. *)
Record Point := mkPoint { Lon : float64; Lat : float64 }.

(** [orb.Point{}] *)
Definition Point0 : Point := mkPoint F64.zero F64.zero.

Record Circle := mkCircle { Radius : float64; Centre : Point }.

Module Volume.
Record t := mk {
  ID : string;
  Name : string;
  Type_ : string;
  Class : string;
  Sequence : Z;
  Lower : float64;
  Upper : float64;
  ClearanceRequired : bool;
  Danger : bool;
  (* The (horizontal) shape will be either a circle or a polygon. *)
  Circle : Circle;
  Polygon : list Point
}.

(** [vol.Circle.Radius = r] *)
Definition set_Circle_Radius (v : t) (r : float64) : t :=
  mk (ID v) (Name v) (Type_ v) (Class v) (Sequence v) (Lower v) (Upper v)
     (ClearanceRequired v) (Danger v)
     (mkCircle r (Centre (Circle v))) (Polygon v).

(** [vol.Circle.Centre = c] *)
Definition set_Circle_Centre (v : t) (c : Point) : t :=
  mk (ID v) (Name v) (Type_ v) (Class v) (Sequence v) (Lower v) (Upper v)
     (ClearanceRequired v) (Danger v)
     (mkCircle (Radius (Circle v)) c) (Polygon v).

(** [vol.Polygon = append(vol.Polygon, ps...)] *)
Definition append_Polygon (v : t) (ps : list Point) : t :=
  mk (ID v) (Name v) (Type_ v) (Class v) (Sequence v) (Lower v) (Upper v)
     (ClearanceRequired v) (Danger v) (Circle v) (Polygon v ++ ps).
End Volume.

Module Feature.
Record t := mk {
  ID : string;
  Name : string;
  Type_ : string;
  Class : string;
  Geometry : list Volume.t
}.

(** [feat.Geometry = append(feat.Geometry, vol)] *)
Definition append_Geometry (f : t) (vol : Volume.t) : t :=
  mk (ID f) (Name f) (Type_ f) (Class f) (Geometry f ++ [vol]).
End Feature.

(** ** The decoded YAML document, [airspaceResponse] *)

Module RawCircle.
Record t := mk { Radius : string; Centre : string }.
End RawCircle.

Module RawArc.
Record t := mk { Dir : string; Radius : string; Centre : string; To : string }.
End RawArc.

Module Boundary.
(* One of: *)
Record t := mk { Circle : RawCircle.t; Line : list string; Arc : RawArc.t }.
End Boundary.

Module RawGeometry.
Record t := mk {
  ID : string;
  Name : string;
  Class : string;
  Seqno : Z;
  Boundary : list Boundary.t;
  Lower : string;
  Upper : string
}.
End RawGeometry.

Module RawAirspace.
Record t := mk {
  ID : string;
  Name : string;
  Type_ : string;
  LocalType : string;
  ControlType : string;
  Class : string;
  Geometry : list RawGeometry.t
}.
End RawAirspace.

Record airspaceResponse := mkResponse { Airspace : list RawAirspace.t }.

(** ** Errors and warnings *)

(** The error of [yaml.Unmarshal]. *)
Inductive YamlError := mkYamlError (msg : string).

Inductive error :=
  (** "bad point: ..., must be in format ... (degrees,minutes,seconds)" *)
  | FormatError (str : string)
  (** "bad circle %v: %s" *)
  | BadCircle (b : Boundary.t) (err : error)
  (** "bad line %v: %s" *)
  | BadLine (b : Boundary.t) (err : error)
  (** "bad arc %v: %s" *)
  | BadArc (b : Boundary.t) (err : error)
  (** "failed to unmarshal YAML: %w" *)
  | UnmarshalFailed (err : YamlError).

(** The lines written with [log.Printf]. *)
Inductive Warning :=
  | BadFlightLevel (h : string) (err : NumError)
  | BadHeight (h : string) (err : NumError)
  | InvalidDistance (d : string) (err : NumError).

(* ===================================================================== *)
(** * External functions                                                  *)
(* ===================================================================== *)

Class External := {
  (** [strconv.ParseFloat(s, 64)] *)
  ParseFloat : string -> float64 * option NumError;
  (** [strings.ToUpper], [strings.ToLower], [strings.TrimSpace] *)
  ToUpper : string -> string;
  ToLower : string -> string;
  TrimSpace : string -> string;
  (** [math.Sin], [math.Cos], [math.Asin], [math.Atan2] *)
  Sin : float64 -> float64;
  Cos : float64 -> float64;
  Asin : float64 -> float64;
  Atan2 : float64 -> float64 -> float64;
  (** [orb.EarthRadius] *)
  EarthRadius : float64;
  (** [geo.Bearing] *)
  Bearing : Point -> Point -> float64;
  (** [project.Point(p, project.WGS84.ToMercator)] *)
  ToMercator : Point -> Point;
  (** [planar.Distance] *)
  Distance : Point -> Point -> float64;
  (** [planar.RingContains] *)
  RingContains : list Point -> Point -> bool;
  (** [yaml.Unmarshal] into an [airspaceResponse] *)
  Unmarshal : list Byte.byte -> YamlError + airspaceResponse
}.

(* ===================================================================== *)
(** * Classification tables                                               *)
(* ===================================================================== *)

(** [m[k]] for a [map[string]bool]: [false] when the key is absent. *)
Definition index (m : gmap string bool) (k : string) : bool :=
  default false (m !! k).

Definition prohibitedAirspaceClasses : gmap string bool :=
  <["A" := true]>  (* Most airways; London/Manchester TMAs. *)
  (<["B" := true]>  (* Not used in UK *)
  (<["C" := true]>  (* Mostly above FL195 and some airways. *)
  (<["D" := true]>  (* Most aerodrome CTRs and CTAs. *)
  (<["E" := true]>  (* Scottish airways. *)
  (<["F" := false]> (* Not used in UK *)
  (<["G" := false]> (* Open FIR *)
   ∅)))))).

(** Not all are strictly prohibited, some are "avoid unless ...." *)
Definition prohibitedTypes : gmap string bool :=
  <["ATZ" := true]>  (* Aerodrome Traffic Zone *)
  (<["AWY" := true]>  (* Airway *)
  (<["CTA" := true]>  (* Control Area (usually on top of a CTR). *)
  (<["CTR" := true]>  (* Control Region *)
  (<["MATZ" := true]> (* Military ATZ. Technically permissible. *)
  (<["P" := true]>    (* Prohibited area *)
  (<["R" := true]>    (* Restricted area *)
  (<["RAT" := true]>  (* Temporary restricted area *)
  (<["RMZ" := true]>  (* Radio mandatory zone *)
  (<["TMA" := true]>  (* Terminal control area *)
  (<["TRA" := true]>  (* Temporary reserved area *)
  (<["TMZ" := true]>  (* Transponder mandatory zone *)
   ∅))))))))))).

Definition dangerTypes : gmap string bool :=
  <["AIAA" := true]>     (* Areas of intense arial activity *)
  (<["D" := true]>        (* Danger area *)
  (<["D_OTHER" := true]>  (* Dangerous activity, but not a Danger area *)
  (<["DZ" := true]>       (* Drop Zone *)
  (<["GLIDER" := true]>   (* Gliding operations *)
  (<["GVS" := false]>     (* Gas venting station *)
  (<["HIRTA" := true]>    (* High intensity radio transmission area *)
  (<["ILS" := false]>     (* ILS feather *)
  (<["LASER" := true]>    (* Laser site. *)
  (<["NOATZ" := true]>    (* Non-ATZ airfield *)
  (<["UL" := true]>       (* Ultra-light strip *)
   ∅)))))))))).

Definition ClearanceRequired (f : Feature.t) : bool :=
  index prohibitedAirspaceClasses (Feature.Class f)
  || index prohibitedTypes (Feature.Type_ f).

Definition Danger (f : Feature.t) : bool :=
  index dangerTypes (Feature.Type_ f).

(* ===================================================================== *)
(** * Coordinate and unit decoders                                        *)
(* ===================================================================== *)

(** [parseLatLng] converts airspace coordinate strings to WGS84 lat/lon
    points.  Expected format: "DDMMSSN DDDMMSSX".  As in Go the result is
    a pair: the point ([orb.Point{}] on failure) and the error, if any. *)
Definition parseLatLng (str : string) : Point * option error :=
  let formatError := FormatError str in
  (* Validate length and space separator *)
  if negb (String.length str =? 16)%nat
     || negb (bool_decide (String.get 7 str = Some " "%char))
  then (Point0, Some formatError)
  else
    (* Parse latitude (DDMMSSN) *)
    let '(latDeg, err1) := ParseUint (slice str 0 2) in
    let '(latMin, err2) := ParseUint (slice str 2 4) in
    let '(latSec, err3) := ParseUint (slice str 4 6) in
    if failed err1 || failed err2 || failed err3
    then (Point0, Some formatError)
    else
      (* Convert to decimal degrees (60 minutes/degree, 3600 seconds/degree) *)
      let lat := (F64.of_Z latDeg + F64.of_Z latMin / #60
                  + F64.of_Z latSec / #3600)%f64 in
      let longitude (lat : float64) : Point * option error :=
        (* Parse longitude (DDDMMSSX) *)
        let '(lonDeg, err1) := ParseUint (slice str 8 11) in
        let '(lonMin, err2) := ParseUint (slice str 11 13) in
        let '(lonSec, err3) := ParseUint (slice str 13 15) in
        if failed err1 || failed err2 || failed err3
        then (Point0, Some formatError)
        else
          (* Convert to decimal degrees *)
          let lon := (F64.of_Z lonDeg + F64.of_Z lonMin / #60
                      + F64.of_Z lonSec / #3600)%f64 in
          (* Apply hemisphere *)
          let hemisphereEW := String.get 15 str in
          (* Note: orb.Point is {lon, lat} - longitude comes first! *)
          if bool_decide (hemisphereEW = Some "W"%char)
          then (mkPoint (- lon)%f64 lat, None)
          else if negb (bool_decide (hemisphereEW = Some "E"%char))
          then (Point0, Some formatError)
          else (mkPoint lon lat, None) in
      (* Apply hemisphere *)
      let hemisphereNS := String.get 6 str in
      if bool_decide (hemisphereNS = Some "S"%char)
      then longitude (- lat)%f64
      else if negb (bool_decide (hemisphereNS = Some "N"%char))
      then (Point0, Some formatError)
      else longitude lat.

(** The copy of [parseLatLng] in the older revision of the file that the
    repository also holds. *)
Module Old.

Definition parseLatLng (str : string) : Point * option error :=
  let returnedError := FormatError str in
  if negb (String.length str =? 16)%nat
     || negb (bool_decide (String.get 7 str = Some " "%char))
  then (Point0, Some returnedError)
  else
    let '(deg, err1) := ParseUint (slice str 0 2) in
    let '(mm, err2) := ParseUint (slice str 2 4) in
    let '(ss, err3) := ParseUint (slice str 4 6) in
    if failed err1 || failed err2 || failed err3
    then (Point0, Some returnedError)
    else
      let lat := (F64.of_Z deg + F64.of_Z mm / #60
                  + F64.of_Z ss / #2600)%f64 in
      let longitude (lat : float64) : Point * option error :=
        let '(deg, err1) := ParseUint (slice str 8 11) in
        let '(mm, err2) := ParseUint (slice str 11 13) in
        let '(ss, err3) := ParseUint (slice str 13 15) in
        if failed err1 || failed err2 || failed err3
        then (Point0, Some returnedError)
        else
          let lng := (F64.of_Z deg + F64.of_Z mm / #60
                      + F64.of_Z ss / #2600)%f64 in
          if bool_decide (String.get 15 str = Some "W"%char)
          then (mkPoint (- lng)%f64 lat, None)
          else if negb (bool_decide (String.get 15 str = Some "E"%char))
          then (Point0, Some returnedError)
          else (mkPoint lng lat, None) in
      if bool_decide (String.get 6 str = Some "S"%char)
      then longitude (- lat)%f64
      else if negb (bool_decide (String.get 6 str = Some "N"%char))
      then (Point0, Some returnedError)
      else longitude lat.

End Old.

Section Decoders.
Context {ext : External}.

(** The warning that [log.Printf] writes when [err != nil]. *)
Definition warn (mk : NumError -> Warning) (err : option NumError)
  : list Warning :=
  match err with Some e => [mk e] | None => [] end.

(** [decodeHeight] returns the height in feet and the lines it logs. *)
Definition decodeHeight (h : string) : float64 * list Warning :=
  let h := ToUpper (TrimSpace h) in
  if String.eqb h "" || String.eqb h "SFC" then (F64.zero, [])
  else if HasPrefix h "FL" then
    (* Flight level. *)
    let '(f, err) := ParseFloat (slice_from h 2) in
    ((f * #100)%f64, warn (BadFlightLevel h) err)
  else
    let h := TrimSpace (TrimSuffix h "FT") in
    let '(f, err) := ParseFloat h in
    (f, warn (BadHeight h) err).

Definition nautMilesToMeters (nm : float64) : float64 := (nm * #1852)%f64.

Definition decodeDistance (d : string) : float64 * list Warning :=
  let '(f, err) := ParseFloat (TrimSuffix d " nm") in
  (nautMilesToMeters f, warn (InvalidDistance d) err).

End Decoders.

(* ===================================================================== *)
(** * Arc rasteriser                                                      *)
(* ===================================================================== *)

(** The constants [math.Pi / 180.0] and [180.0 / math.Pi]: Go evaluates
    constant expressions exactly and rounds the result to binary64. *)
Definition Pi_over_180 : float64 := S754_finite false 5030569068109113 (-58).
Definition c180_over_Pi : float64 := S754_finite false 8063664102031864 (-47).

Definition toRadians (angle : float64) : float64 := (Pi_over_180 * angle)%f64.
Definition toDegrees (angle : float64) : float64 := (c180_over_Pi * angle)%f64.

Section Rasteriser.
Context {ext : External}.

(** [destinationPoint] calculates a destination point given a start
    point, a bearing in degrees and a distance in metres. *)
Definition destinationPoint (start : Point) (bearing distance : float64)
  : Point :=
  (* Convert distance to angular distance (radians) *)
  let angularDistance := (distance / EarthRadius)%f64 in
  let bearingRadians := toRadians bearing in
  let lat1 := toRadians (Lat start) in
  let lon1 := toRadians (Lon start) in
  let sinLat2 := (Sin lat1 * Cos angularDistance
                  + Cos lat1 * Sin angularDistance * Cos bearingRadians)%f64 in
  let lat2 := Asin sinLat2 in
  let x := (Cos angularDistance - Sin lat1 * sinLat2)%f64 in
  let y := (Sin bearingRadians * Sin angularDistance * Cos lat1)%f64 in
  let lon2 := (lon1 + Atan2 y x)%f64 in
  mkPoint (toDegrees lon2) (toDegrees lat2).

(** The loop [for a := initialAngleDeg; dir*a < dir*finalAngleDeg;
    a += dir * 10] of [arcToPolygon], with the points it appends.
    [fuel] bounds the number of times the condition is evaluated; the
    result is [None] when the loop has not ended by then.  Go may fuse
    [a + dir * 10] into one operation; for the directions [+1.0] and
    [-1.0] the product is exact and the fused result is the same. *)
Fixpoint arcLoop (fuel : nat) (centre : Point) (radius dir : float64)
    (finalAngleDeg a : float64) : option (list Point) :=
  match fuel with
  | O => None
  | S fuel' =>
      if (dir * a <? dir * finalAngleDeg)%f64 then
        let point := destinationPoint centre a radius in
        option_map (cons point)
          (arcLoop fuel' centre radius dir finalAngleDeg (a + dir * #10)%f64)
      else Some []
  end.

(** [arcToPolygon] converts an arc boundary into a polygon
    approximation, with line segments every 10 degrees. *)
Definition arcToPolygon (fuel : nat) (centre : Point) (radius : float64)
    (initialPoint to : Point) (dir : float64) : option (list Point) :=
  (* Calculate bearings from centre to start and end points *)
  let initialAngleDeg := Bearing centre initialPoint in
  let finalAngleDeg := Bearing centre to in
  (* Normalize angles to ensure we sweep in the correct direction *)
  let '(initialAngleDeg, finalAngleDeg) :=
    if (F64.zero <? dir)%f64 then
      (* Clockwise *)
      if (finalAngleDeg <? initialAngleDeg)%f64
      then (initialAngleDeg, (finalAngleDeg + #360)%f64)
      else (initialAngleDeg, finalAngleDeg)
    else
      (* Counter-clockwise *)
      if (initialAngleDeg <? finalAngleDeg)%f64
      then ((initialAngleDeg + #360)%f64, finalAngleDeg)
      else (initialAngleDeg, finalAngleDeg) in
  (* Generate points along the arc every 10 degrees *)
  match arcLoop fuel centre radius dir finalAngleDeg initialAngleDeg with
  | Some poly =>
      (* Always include the exact end point to close the arc precisely *)
      Some (poly ++ [to])
  | None => None
  end.

End Rasteriser.

(* ===================================================================== *)
(** * Feature / volume normaliser                                         *)
(* ===================================================================== *)

(** ** Computations that log, fail, or run out of steps *)

Inductive result (A : Type) :=
  | Ok (a : A)
  | Err (e : error).
Arguments Ok {A} a.
Arguments Err {A} e.

(** [None]: a loop needed more steps than it was given.  Otherwise the
    lines logged so far and the value or the error returned. *)
Definition M (A : Type) : Type := option (list Warning * result A).

Definition ret {A} (a : A) : M A := Some ([], Ok a).

Definition fail {A} (e : error) : M A := Some ([], Err e).

(** A call of a function that only logs. *)
Definition logged {A} (r : A * list Warning) : M A := Some (r.2, Ok r.1).

(** A call of a function whose loop is bounded by the steps given. *)
Definition within_fuel {A} (r : option A) : M A :=
  match r with Some a => Some ([], Ok a) | None => None end.

Definition bind {A B} (m : M A) (k : A -> M B) : M B :=
  match m with
  | None => None
  | Some (w, Err e) => Some (w, Err e)
  | Some (w, Ok a) =>
      match k a with
      | None => None
      | Some (w', r) => Some (w ++ w', r)
      end
  end.

Notation "'let*' x ':=' m 'in' k" := (bind m (fun x => k))
  (at level 10, x pattern, m at level 100, k at level 200).

(** [for _, x := range l { s = body(x, s) }], leaving at the first error. *)
Fixpoint forEach {A St} (l : list A) (body : A -> St -> M St) (s : St)
  : M St :=
  match l with
  | [] => ret s
  | x :: l' => let* s' := body x s in forEach l' body s'
  end.

(** [for i, x := range l { s = body(i, x, s) }], counting from [i]. *)
Fixpoint forEachIndexed {A St} (i : nat) (l : list A)
    (body : nat -> A -> St -> M St) (s : St) : M St :=
  match l with
  | [] => ret s
  | x :: l' => let* s' := body i x s in forEachIndexed (S i) l' body s'
  end.

Section Normaliser.
Context {ext : External}.

(** [resolveAirspaceType] determines the actual type, using LocalType
    for "OTHER" and "D_OTHER" types. *)
Definition resolveAirspaceType (airspaceType localType : string) : string :=
  if String.eqb airspaceType "OTHER" || String.eqb airspaceType "D_OTHER"
  then localType
  else airspaceType.

(** [resolveFeatureID] returns the feature ID, generating one if not
    provided. *)
Definition resolveFeatureID (id name : string) (index : nat) : string :=
  let id := TrimSpace id in
  if String.eqb id "" then
    let safeName := ToLower (ReplaceAll1 name " " "-") in
    safeName ++ "-" ++ FormatInt index
  else id.

(** The statements of [processGeometry] for the line segments of one
    boundary: each point is appended to the polygon and becomes the
    current position. *)
Definition processLine (b : Boundary.t) (s : string)
    (st : Volume.t * Point) : M (Volume.t * Point) :=
  let '(vol, currentPos) := st in
  let '(p, err) := parseLatLng s in
  match err with
  | Some err => fail (BadLine b err)
  | None => ret (Volume.append_Polygon vol [p], p)
  end.

(** The body of the loop of [processGeometry] over [g.Boundary]. *)
Definition processBoundary (fuel : nat) (b : Boundary.t)
    (st : Volume.t * Point) : M (Volume.t * Point) :=
  let '(vol, currentPos) := st in
  (* Circle boundary (mutually exclusive with polygon boundaries) *)
  let* vol :=
    if negb (String.eqb (RawCircle.Radius (Boundary.Circle b)) "") then
      let* radius := logged (decodeDistance (RawCircle.Radius (Boundary.Circle b))) in
      let vol := Volume.set_Circle_Radius vol radius in
      let '(centre, err) := parseLatLng (RawCircle.Centre (Boundary.Circle b)) in
      let vol := Volume.set_Circle_Centre vol centre in
      match err with
      | Some err => fail (BadCircle b err)
      | None => ret vol
      end
    else ret vol in
  (* Line segments (straight lines between points) *)
  let* (vol, currentPos) :=
    forEach (Boundary.Line b) (processLine b) (vol, currentPos) in
  (* Arc segments (curved sections between two points around a center) *)
  if negb (String.eqb (RawArc.Radius (Boundary.Arc b)) "") then
    let '(to, err) := parseLatLng (RawArc.To (Boundary.Arc b)) in
    match err with
    | Some err => fail (BadArc b err)
    | None =>
        let* radius := logged (decodeDistance (RawArc.Radius (Boundary.Arc b))) in
        let '(centre, _) := parseLatLng (RawArc.Centre (Boundary.Arc b)) in
        (* Direction: clockwise (+1.0) or counter-clockwise (-1.0) *)
        let dir := if String.eqb (RawArc.Dir (Boundary.Arc b)) "ccw"
                   then (- #1)%f64 else (#1)%f64 in
        (* Convert arc to polygon approximation and append to boundary *)
        let* arc := within_fuel (arcToPolygon fuel centre radius currentPos to dir) in
        ret (Volume.append_Polygon vol arc, currentPos)
    end
  else ret (vol, currentPos).

(** [processGeometry] converts a YAML geometry definition into a Volume
    with parsed boundaries. *)
Definition processGeometry (fuel : nat) (g : RawGeometry.t) (feat : Feature.t)
  : M Volume.t :=
  (* Inherit ID, name, and class from parent feature if not specified *)
  let volID := if String.eqb (RawGeometry.ID g) ""
               then Feature.ID feat else RawGeometry.ID g in
  let volName := if String.eqb (RawGeometry.Name g) ""
                 then Feature.Name feat else RawGeometry.Name g in
  let volClass := if String.eqb (RawGeometry.Class g) ""
                  then Feature.Class feat else RawGeometry.Class g in
  let* lower := logged (decodeHeight (RawGeometry.Lower g)) in
  let* upper := logged (decodeHeight (RawGeometry.Upper g)) in
  let vol :=
    Volume.mk volID volName (Feature.Type_ feat) volClass
      (RawGeometry.Seqno g) lower upper
      (ClearanceRequired feat) (Danger feat)
      (mkCircle F64.zero Point0) [] in
  (* currentPos tracks position for connecting arcs to previous line segments *)
  let currentPos := Point0 in
  let* (vol, _) :=
    forEach (RawGeometry.Boundary g) (processBoundary fuel) (vol, currentPos) in
  ret vol.

(** The body of the loop of [normalise] over [a.Airspace]. *)
Definition normaliseFeature (fuel : nat) (i : nat) (f : RawAirspace.t)
    (features : list Feature.t) : M (list Feature.t) :=
  (* Determine the actual airspace type *)
  let airspaceType :=
    resolveAirspaceType (RawAirspace.Type_ f) (RawAirspace.LocalType f) in
  (* Generate or use existing ID *)
  let featureID := resolveFeatureID (RawAirspace.ID f) (RawAirspace.Name f) i in
  let feat :=
    Feature.mk featureID (RawAirspace.Name f) airspaceType
      (RawAirspace.Class f) [] in
  (* Process each geometry volume *)
  let* feat :=
    forEach (RawAirspace.Geometry f)
      (fun g feat =>
         let* vol := processGeometry fuel g feat in
         ret (Feature.append_Geometry feat vol))
      feat in
  ret (features ++ [feat]).

(** [normalise] converts the raw YAML airspace data into the internal
    Feature representation.  The result is [None] when a loop needed
    more than [fuel] steps; otherwise the lines logged and the pair that
    the Go function returns: the features and the error ([nil, err] on
    failure). *)
Definition normalise (fuel : nat) (a : airspaceResponse)
  : option (list Warning * (list Feature.t * option error)) :=
  match forEachIndexed 0 (Airspace a) (normaliseFeature fuel) [] with
  | None => None
  | Some (w, Ok features) => Some (w, (features, None))
  | Some (w, Err err) => Some (w, ([], Some err))
  end.

Definition Decode (fuel : nat) (data : list Byte.byte)
  : option (list Warning * (list Feature.t * option error)) :=
  match Unmarshal data with
  | inl err => Some ([], ([], Some (UnmarshalFailed err)))
  | inr a => normalise fuel a
  end.

End Normaliser.

(* ===================================================================== *)
(** * Containment query engine                                            *)
(* ===================================================================== *)

Section Query.
Context {ext : External}.

Definition isEnclosedBy (p : Point) (vol : Volume.t) : bool :=
  let polygon :=
    if (0 <? length (Volume.Polygon vol))%nat then
      if RingContains (Volume.Polygon vol) p then true else false
    else false in
  if (Radius (Volume.Circle vol) !=? F64.zero)%f64 then
    let projectedCentre := ToMercator (Centre (Volume.Circle vol)) in
    let projectedPoint := ToMercator p in
    if (Distance projectedPoint projectedCentre
        <=? Radius (Volume.Circle vol))%f64
    then true
    else polygon
  else polygon.

(** [features] is a Go map; the loop visits its entries in an order
    that Go leaves unspecified, here the order of [map_to_list]. *)
Definition EnclosingVolumes (point : Point) (features : gmap string Feature.t)
  : list Volume.t :=
  foldl
    (fun enclosingVolumes kf =>
       foldl
         (fun enclosingVolumes v =>
            if isEnclosedBy point v
            then enclosingVolumes ++ [v]
            else enclosingVolumes)
         enclosingVolumes (Feature.Geometry kf.2))
    [] (map_to_list features).

End Query.

(* ===================================================================== *)
(** * Query server                                                        *)
(* ===================================================================== *)

(** [strings.Split(s, sep)] for a separator of one byte: the substrings
    between the occurrences of [sep], one more than there are
    occurrences. *)
Fixpoint Split (s : string) (sep : ascii) : list string :=
  match s with
  | EmptyString => [EmptyString]
  | String c s' =>
      if Ascii.eqb c sep then EmptyString :: Split s' sep
      else
        match Split s' sep with
        | part :: parts => String c part :: parts
        | [] => [String c EmptyString]
        end
  end.

(** What a handler of the server answers: the value that it hands to the
    JSON encoder, or the HTTP error. *)
Inductive Reply :=
  (** 200, the feature *)
  | FeatureReply (f : Feature.t)
  (** 200, the enclosing volumes *)
  | VolumesReply (vs : list Volume.t)
  (** 404, [http.NotFound] *)
  | NotFound
  (** 400, "Invalid request", with the query string when [handleError]
      writes it *)
  | BadRequest (str : option string).

Section Server.
Context {ext : External}.

(** The loop of [main] that fills the map [features] from the list that
    [Load] returns, with the identifiers that it logs as duplicates. *)
Definition indexFeatures (featureList : list Feature.t)
  : gmap string Feature.t * list string :=
  foldl
    (fun st f =>
       let '(features, duplicates) := st in
       (<[Feature.ID f := f]> features,
        match features !! Feature.ID f with
        | Some _ => duplicates ++ [Feature.ID f]
        | None => duplicates
        end))
    (∅, []) featureList.

Definition handleError (str : string) : Reply := BadRequest (Some str).

Definition handleNamedRequest (features : gmap string Feature.t) (id : string)
  : Reply :=
  match features !! id with
  | None => NotFound
  | Some f => FeatureReply f
  end.

Definition handleLatlonRequest (features : gmap string Feature.t)
    (latLonStr : string) : Reply :=
  let parts := Split latLonStr ","%char in
  if negb (length parts =? 2)%nat then handleError latLonStr
  else
    let '(lat, err1) := ParseFloat (nth 0 parts EmptyString) in
    let '(lon, err2) := ParseFloat (nth 1 parts EmptyString) in
    if failed err1 || failed err2 then handleError latLonStr
    else
      let point := mkPoint lon lat in
      VolumesReply (EnclosingVolumes point features).

(** [handle], given the values of the query parameters "latlon" and
    "name" (empty when absent). *)
Definition handle (features : gmap string Feature.t) (latlon name : string)
  : Reply :=
  let latLon := TrimSpace latlon in
  let name := TrimSpace name in
  if negb (String.eqb name "") then handleNamedRequest features name
  else if negb (String.eqb latLon "") then handleLatlonRequest features latLon
  else BadRequest None.

End Server.

(** The first copy of the server that the repository holds: the features
    are a list, and the handler has its own loop over them and its own
    copy of the containment test. *)
Module OldServer.
Section OldServer.
Context {ext : External}.

Definition isEnclosedBy (p : Point) (vol : Volume.t) : bool :=
  let polygon :=
    if (0 <? length (Volume.Polygon vol))%nat then
      if RingContains (Volume.Polygon vol) p then true else false
    else false in
  if (Radius (Volume.Circle vol) !=? F64.zero)%f64 then
    let projectedCentre := ToMercator (Centre (Volume.Circle vol)) in
    let projectedPoint := ToMercator p in
    if (Distance projectedPoint projectedCentre
        <=? Radius (Volume.Circle vol))%f64
    then true
    else polygon
  else polygon.

(** [handle], given the rest of the path of the request. *)
Definition handle (features : list Feature.t) (latLonStr : string) : Reply :=
  let parts := Split latLonStr ","%char in
  if negb (length parts =? 2)%nat then handleError latLonStr
  else
    let '(lat, err1) := ParseFloat (nth 0 parts EmptyString) in
    let '(lon, err2) := ParseFloat (nth 1 parts EmptyString) in
    if failed err1 || failed err2 then handleError latLonStr
    else
      (* [orb.Point{lat, lon}]: the first coordinate of a point is its
         longitude. *)
      let point := mkPoint lat lon in
      let enclosingVolumes :=
        foldl
          (fun enclosingVolumes f =>
             foldl
               (fun enclosingVolumes v =>
                  if isEnclosedBy point v
                  then enclosingVolumes ++ [v]
                  else enclosingVolumes)
               enclosingVolumes (Feature.Geometry f))
          [] features in
      VolumesReply enclosingVolumes.

End OldServer.
End OldServer.

(* ===================================================================== *)
(** * Vocabulary of the specification                                     *)
(* ===================================================================== *)

(** ** Position strings *)

Definition all_digits (s : string) : bool :=
  forallb is_digit (list_ascii_of_string s).

(** The number that a string of decimal digits denotes. *)
Definition decimal (s : string) : Z :=
  fold_left (fun n c => 10 * n + digit_val c) (list_ascii_of_string s) 0.

(** The six digit groups of a position string: degrees, minutes and
    seconds of latitude, then of longitude. *)
Definition digit_groups (str : string) : list string :=
  [slice str 0 2; slice str 2 4; slice str 4 6;
   slice str 8 11; slice str 11 13; slice str 13 15].

(** A position of the form "DDMMSSH DDDMMSSH": 16 bytes, decimal digits
    in the six groups, N or S after the latitude, a space, E or W after the
    longitude. *)
Definition valid_position (str : string) : Prop :=
  String.length str = 16%nat
  /\ Forall (fun g => all_digits g = true) (digit_groups str)
  /\ (String.get 6 str = Some "N"%char \/ String.get 6 str = Some "S"%char)
  /\ String.get 7 str = Some " "%char
  /\ (String.get 15 str = Some "E"%char \/ String.get 15 str = Some "W"%char).

(** The conditions under which the position decoder is to fail. *)
Definition malformed_position (str : string) : Prop :=
  String.length str <> 16%nat
  \/ String.get 7 str <> Some " "%char
  \/ Exists (fun g => failed (ParseUint g).2 = true) (digit_groups str)
  \/ (String.get 6 str <> Some "N"%char /\ String.get 6 str <> Some "S"%char)
  \/ (String.get 15 str <> Some "E"%char /\ String.get 15 str <> Some "W"%char).

(** [deg + min/60 + sec/3600] in binary64 arithmetic. *)
Definition sexagesimal (deg min sec : Z) : float64 :=
  (F64.of_Z deg + F64.of_Z min / #60 + F64.of_Z sec / #3600)%f64.

(** Negation for the hemisphere letter [neg] (S or W). *)
Definition hemisphere (neg : ascii) (h : option ascii) (x : float64) : float64 :=
  if bool_decide (h = Some neg) then (- x)%f64 else x.

(** ** Positions of a document *)

(** The position strings of a boundary that the normaliser checks: the
    centre of a circle and the end point of an arc whose radius is not
    empty, and the points of a line. *)
Definition checked_positions (b : Boundary.t) : list string :=
  (if String.eqb (RawCircle.Radius (Boundary.Circle b)) "" then []
   else [RawCircle.Centre (Boundary.Circle b)])
  ++ Boundary.Line b
  ++ (if String.eqb (RawArc.Radius (Boundary.Arc b)) "" then []
      else [RawArc.To (Boundary.Arc b)]).

Definition geometry_positions (g : RawGeometry.t) : list string :=
  flat_map checked_positions (RawGeometry.Boundary g).

Definition feature_positions (f : RawAirspace.t) : list string :=
  flat_map geometry_positions (RawAirspace.Geometry f).

Definition document_positions (a : airspaceResponse) : list string :=
  flat_map feature_positions (Airspace a).

Definition position_ok (s : string) : Prop := (parseLatLng s).2 = None.

(** The computation [m] checks the positions [l]: it returns a value when
    all of them are well formed and fails with an error otherwise; either
    way it ends. *)
Definition checks {A : Type} (l : list string) (m : M A) : Prop :=
  (Forall position_ok l -> exists w a, m = Some (w, Ok a))
  /\ (Exists (fun s => ~ position_ok s) l -> exists w e, m = Some (w, Err e)).

(** ** Reports of malformed positions *)

Definition bad_position (s : string) : bool := failed (parseLatLng s).2.

(** The position string that an error of the normaliser is about. *)
Fixpoint error_position (e : error) : option string :=
  match e with
  | FormatError str => Some str
  | BadCircle _ err | BadLine _ err | BadArc _ err => error_position err
  | UnmarshalFailed _ => None
  end.

(** When the computation [m] fails, its error is about the first
    malformed position of [l]. *)
Definition reports {A : Type} (l : list string) (m : M A) : Prop :=
  forall w e, m = Some (w, Err e) ->
    error_position e = List.find bad_position l.

(** A computation that checks the positions [l] and, when it fails,
    reports the first malformed one. *)
Definition sound {A : Type} (l : list string) (m : M A) : Prop :=
  checks l m /\ reports l m.

(** ** Binary64 numbers *)

(** A binary64 number that is finite: canonical, zero included. *)
Definition number (x : float64) : Prop :=
  F64.valid x = true /\ F64.is_finite x = true.

(** ** Bearings *)

(** What the rasteriser needs of a bearing: it is NaN, or a binary64
    number of at most 360 degrees in absolute value. *)
Definition bearing_ok (b : float64) : Prop :=
  b = F64.nan
  \/ (F64.valid b = true /\ F64.is_finite b = true
      /\ - (360 * F64.unit) <= F64.scaled b <= 360 * F64.unit).

(** The two directions of sweep: [+1.0] clockwise, [-1.0]
    counter-clockwise. *)
Definition direction (dir : float64) : Prop :=
  dir = (#1)%f64 \/ dir = (- #1)%f64.

(** Enough steps for any arc between bearings that are [bearing_ok]. *)
Definition arcFuel : nat := 200.

(** ** What is assumed of the external functions *)

Definition is_ascii (s : string) : bool :=
  forallb (fun c => (N_of_ascii c <? 128)%N) (list_ascii_of_string s).

Definition ascii_upper (c : ascii) : ascii :=
  let n := N_of_ascii c in
  if ((97 <=? n) && (n <=? 122))%N then ascii_of_N (n - 32) else c.

Definition ascii_lower (c : ascii) : ascii :=
  let n := N_of_ascii c in
  if ((65 <=? n) && (n <=? 90))%N then ascii_of_N (n + 32) else c.

Definition map_bytes (f : ascii -> ascii) (s : string) : string :=
  string_of_list_ascii (map f (list_ascii_of_string s)).

(** The white space of ASCII: tab, line feed, vertical tab, form feed,
    carriage return, space. *)
Definition is_ascii_space (c : ascii) : bool :=
  let n := N_of_ascii c in ((9 <=? n) && (n <=? 13) || (n =? 32))%N.

Fixpoint drop_spaces (l : list ascii) : list ascii :=
  match l with
  | c :: l' => if is_ascii_space c then drop_spaces l' else l
  | [] => []
  end.

Definition trim_ascii (s : string) : string :=
  string_of_list_ascii
    (rev (drop_spaces (rev (drop_spaces (list_ascii_of_string s))))).

(** On strings of ASCII bytes [strings.ToUpper] maps a-z to A-Z and
    [strings.TrimSpace] removes leading and trailing ASCII white space. *)
Record StringsContract (ext : External) : Prop := {
  ToUpper_ascii :
    forall s, is_ascii s = true -> ToUpper s = map_bytes ascii_upper s;
  TrimSpace_ascii :
    forall s, is_ascii s = true -> TrimSpace s = trim_ascii s
}.

(** [strconv.ParseFloat] returns 0 with a syntax error, and the exact
    value, without error, of a string of 1 to 15 decimal digits. *)
Record StrconvContract (ext : External) : Prop := {
  ParseFloat_syntax :
    forall s f, ParseFloat s = (f, Some ErrSyntax) -> f = F64.zero;
  ParseFloat_digits :
    forall s, all_digits s = true ->
      (1 <= String.length s <= 15)%nat ->
      ParseFloat s = (F64.of_Z (decimal s), None)
}.

(** [geo.Bearing] returns an angle in degrees or NaN. *)
Definition BearingContract (ext : External) : Prop :=
  forall from to : Point, bearing_ok (Bearing from to).

(** ** An interpretation of the external functions

    Stand-ins that can be evaluated, for concrete runs: byte-wise case
    mapping and trimming; [ParseFloat] on strings of up to 15 digits; a
    compass-point bearing; an equirectangular projection; the Euclidean
    distance; the bounding box of a ring for [RingContains]. *)

Definition sample_ParseFloat (s : string) : float64 * option NumError :=
  if all_digits s && (1 <=? String.length s)%nat && (String.length s <=? 15)%nat
  then (F64.of_Z (decimal s), None)
  else (F64.zero, Some ErrSyntax).

Definition sample_Bearing (from to : Point) : float64 :=
  if (Lon from <? Lon to)%f64 then (#90)%f64
  else if (Lon to <? Lon from)%f64 then (- #90)%f64
  else if (Lat to <? Lat from)%f64 then (#180)%f64
  else (#0)%f64.

Definition sample_ToMercator (p : Point) : Point :=
  mkPoint (#111319 * Lon p)%f64 (#111319 * Lat p)%f64.

Definition sample_Distance (p1 p2 : Point) : float64 :=
  let d0 := (Lon p1 - Lon p2)%f64 in
  let d1 := (Lat p1 - Lat p2)%f64 in
  F64.sqrt (d0 * d0 + d1 * d1)%f64.

Definition sample_RingContains (r : list Point) (p : Point) : bool :=
  existsb (fun q => (Lon q <=? Lon p)%f64) r
  && existsb (fun q => (Lon p <=? Lon q)%f64) r
  && existsb (fun q => (Lat q <=? Lat p)%f64) r
  && existsb (fun q => (Lat p <=? Lat q)%f64) r.

Definition sample_external (doc : airspaceResponse) : External := {|
  ParseFloat := sample_ParseFloat;
  ToUpper := map_bytes ascii_upper;
  ToLower := map_bytes ascii_lower;
  TrimSpace := trim_ascii;
  Sin := fun x => x;
  Cos := fun _ => (#1)%f64;
  Asin := fun x => x;
  Atan2 := fun y x => (y / x)%f64;
  EarthRadius := (#6378137)%f64;
  Bearing := sample_Bearing;
  ToMercator := sample_ToMercator;
  Distance := sample_Distance;
  RingContains := sample_RingContains;
  Unmarshal := fun _ => inr doc
|}.

(** ** Sample data *)

Definition no_circle : RawCircle.t := RawCircle.mk "" "".
Definition no_arc : RawArc.t := RawArc.mk "" "" "" "".

(** A boundary made of one clockwise arc of 10 nm. *)
Definition arc_with (centre to : string) : Boundary.t :=
  Boundary.mk no_circle [] (RawArc.mk "cw" "10 nm" centre to).

(** A document with one feature and one geometry: two points of a line,
    then an arc with the given centre and end point. *)
Definition doc_with_arc (centre to : string) : airspaceResponse :=
  mkResponse
    [RawAirspace.mk "aberdeen-cta" "ABERDEEN CTA" "CTA" "" "" "D"
       [RawGeometry.mk "" "" "" 1
          [Boundary.mk no_circle ["572153N 0015835W"; "572100N 0015802W"] no_arc;
           arc_with centre to]
          "1500 ft" "FL115"]].

(** The point of integer longitude and latitude. *)
Definition pt (lon lat : Z) : Point := mkPoint (F64.of_Z lon) (F64.of_Z lat).

(** A volume with both shapes: a circle of one nautical mile around
    (0, 0) and the square of corners (9, 9) and (11, 11). *)
Definition circle_and_square : Volume.t :=
  Volume.mk "both" "CIRCLE AND SQUARE" "OTHER" "G" 1 F64.zero (#1000)%f64
    false false
    (mkCircle (#1852)%f64 (pt 0 0))
    [pt 9 9; pt 11 9; pt 11 11; pt 9 11].

(** A circular volume around (0, 0) whose radius is the projected length
    of one degree in [sample_external]. *)
Definition one_degree_circle : Volume.t :=
  Volume.mk "circle" "ONE DEGREE" "OTHER" "G" 1 F64.zero (#1000)%f64
    false false
    (mkCircle (#111319)%f64 (pt 0 0))
    [].

(** ** Shapes of a volume *)

(** The volume [v] with another circle and another polygon. *)
Definition reshaped (v : Volume.t) (c : Circle) (poly : list Point) : Volume.t :=
  Volume.mk (Volume.ID v) (Volume.Name v) (Volume.Type_ v) (Volume.Class v)
    (Volume.Sequence v) (Volume.Lower v) (Volume.Upper v)
    (Volume.ClearanceRequired v) (Volume.Danger v) c poly.

(** [orb.Point{}] as a circle: [Circle{}]. *)
Definition Circle0 : Circle := mkCircle F64.zero Point0.

(** The points of the line of a boundary. *)
Definition line_points (b : Boundary.t) : list Point :=
  map (fun s => (parseLatLng s).1) (Boundary.Line b).

Definition has_circle (b : Boundary.t) : bool :=
  negb (String.eqb (RawCircle.Radius (Boundary.Circle b)) "").

Definition has_arc (b : Boundary.t) : bool :=
  negb (String.eqb (RawArc.Radius (Boundary.Arc b)) "").

Definition arc_direction (b : Boundary.t) : float64 :=
  if String.eqb (RawArc.Dir (Boundary.Arc b)) "ccw" then (- #1)%f64
  else (#1)%f64.

(** The last point of the lines of the boundaries [bs]; [cur] when they
    have none. *)
Definition last_line_point (cur : Point) (bs : list Boundary.t) : Point :=
  default cur (last (flat_map line_points bs)).

(** A string of a geometry, or the one of its feature when it is empty. *)
Definition inherited (own parent : string) : string :=
  if String.eqb own "" then parent else own.

Section Shapes.
Context {ext : External}.

(** The circle that a boundary with a circle describes. *)
Definition circle_of (b : Boundary.t) : Circle :=
  mkCircle (decodeDistance (RawCircle.Radius (Boundary.Circle b))).1
    (parseLatLng (RawCircle.Centre (Boundary.Circle b))).1.

(** The points of the arc of a boundary, swept from [start]; none for a
    boundary without arc. *)
Definition arc_of (fuel : nat) (start : Point) (b : Boundary.t)
  : option (list Point) :=
  if has_arc b then
    arcToPolygon fuel (parseLatLng (RawArc.Centre (Boundary.Arc b))).1
      (decodeDistance (RawArc.Radius (Boundary.Arc b))).1 start
      (parseLatLng (RawArc.To (Boundary.Arc b))).1 (arc_direction b)
  else Some [].

(** The fields of a volume that do not describe its shape, as decoded
    from the geometry [g] of the feature [feat]. *)
Definition volume_of (feat : Feature.t) (g : RawGeometry.t) (vol : Volume.t)
  : Prop :=
  Volume.ID vol = inherited (RawGeometry.ID g) (Feature.ID feat)
  /\ Volume.Name vol = inherited (RawGeometry.Name g) (Feature.Name feat)
  /\ Volume.Class vol = inherited (RawGeometry.Class g) (Feature.Class feat)
  /\ Volume.Type_ vol = Feature.Type_ feat
  /\ Volume.Sequence vol = RawGeometry.Seqno g
  /\ Volume.Lower vol = (decodeHeight (RawGeometry.Lower g)).1
  /\ Volume.Upper vol = (decodeHeight (RawGeometry.Upper g)).1
  /\ Volume.ClearanceRequired vol = ClearanceRequired feat
  /\ Volume.Danger vol = Danger feat.

(** The feature decoded from the entry [f] at index [i] of the
    document. *)
Definition feature_of (i : nat) (f : RawAirspace.t) (feat : Feature.t) : Prop :=
  Feature.ID feat = resolveFeatureID (RawAirspace.ID f) (RawAirspace.Name f) i
  /\ Feature.Name feat = RawAirspace.Name f
  /\ Feature.Type_ feat
     = resolveAirspaceType (RawAirspace.Type_ f) (RawAirspace.LocalType f)
  /\ Feature.Class feat = RawAirspace.Class f
  /\ Forall2 (volume_of feat) (RawAirspace.Geometry f) (Feature.Geometry feat).

End Shapes.

(** A geometry of two line points followed by a clockwise arc, and the
    feature that it belongs to. *)
Definition sample_geometry : RawGeometry.t :=
  RawGeometry.mk "" "" "" 1
    [Boundary.mk no_circle ["572153N 0015835W"; "572100N 0015802W"] no_arc;
     arc_with "571834N 0021602W" "572153N 0015835W"]
    "1500 ft" "FL115".

Definition sample_feature : Feature.t :=
  Feature.mk "aberdeen-cta" "ABERDEEN CTA" "CTA" "D" [].

(** A geometry of one circle whose radius is not a number. *)
Definition bad_radius_geometry : RawGeometry.t :=
  RawGeometry.mk "" "" "" 1
    [Boundary.mk (RawCircle.mk "two nm" "572153N 0015835W") [] no_arc]
    "SFC" "2000 ft".

(** ** Query strings *)

(** The byte [sep] does not occur in [s]. *)
Definition free_of (sep : ascii) (s : string) : bool :=
  forallb (fun c => negb (Ascii.eqb c sep)) (list_ascii_of_string s).

(** The features of the list whose identifier is [id]. *)
Definition with_ID (id : string) (l : list Feature.t) : list Feature.t :=
  List.filter (fun f => bool_decide (Feature.ID f = id)) l.

(** Two features with the same identifier, each with one volume. *)
Definition sample_volume (id : string) : Volume.t :=
  Volume.mk id "ONE DEGREE" "OTHER" "G" 1 F64.zero (#1000)%f64 false false
    (mkCircle (#111319)%f64 (pt 0 0)) [].

Definition shadowed_features : list Feature.t :=
  [Feature.mk "a" "FIRST" "OTHER" "G" [sample_volume "first"];
   Feature.mk "a" "SECOND" "OTHER" "G" [sample_volume "second"]].

(** ** Ranges of binary64 numbers *)

(** [x] is a finite binary64 number with [lo <= den * x <= hi]. *)
Definition number_within (lo hi den : Z) (x : float64) : bool :=
  F64.valid x && F64.is_finite x
  && (lo * F64.unit <=? den * F64.scaled x)
  && (den * F64.scaled x <=? hi * F64.unit).

(** The integers from 0 up to, not including, [n]. *)
Definition first_naturals (n : nat) : list Z := map Z.of_nat (seq 0 n).

(** [deg + min/60 + sec/2600], the sum that the older copy of the decoder
    computes. *)
Definition sexagesimal_old (deg min sec : Z) : float64 :=
  (F64.of_Z deg + F64.of_Z min / #60 + F64.of_Z sec / #2600)%f64.

(** [x] and [y] are finite binary64 numbers, [0 <= 1000 * y <= 39], and
    [y] exceeds [x] by more than a ten-thousandth. *)
Definition exceeds (x y : float64) : bool :=
  number_within 0 39 1000 y
  && (F64.unit <=? 10000 * (F64.scaled y - F64.scaled x)).

(** A document with one entry of type D_OTHER that has no local type. *)
Definition d_other_doc : airspaceResponse :=
  mkResponse
    [RawAirspace.mk "" "SOMEWHERE" "D_OTHER" "" "" "G"
       [RawGeometry.mk "" "" "" 1
          [Boundary.mk (RawCircle.mk "1 nm" "572153N 0015835W") [] no_arc]
          "SFC" "2000 ft"]].

(* ===================================================================== *)
(** * Properties: classification                                          *)
(* ===================================================================== *)

Lemma index_insert (m : gmap string bool) (k k' : string) (b : bool) :
  index (<[k := b]> m) k' = if decide (k = k') then b else index m k'.
Proof.
  unfold index. rewrite lookup_insert. by case_decide.
Qed.

Lemma index_empty (k : string) : index (∅ : gmap string bool) k = false.
Proof. unfold index. by rewrite lookup_empty. Qed.

(** A table lookup is true exactly on the keys listed: case analysis on
    the key along the entries of the table. *)
Ltac table_lookup :=
  split;
  [ repeat (rewrite index_insert; case_decide; subst);
    rewrite ?index_empty; intros Hidx;
    first [ discriminate Hidx
          | apply list_elem_of_In; simpl; tauto ]
  | intros Hin; apply list_elem_of_In in Hin; simpl in Hin;
    repeat (destruct Hin as [<- | Hin]; [vm_compute; reflexivity|]);
    destruct Hin ].

Lemma prohibitedAirspaceClasses_true (c : string) :
  index prohibitedAirspaceClasses c = true <-> c ∈ ["A"; "B"; "C"; "D"; "E"].
Proof.
  unfold prohibitedAirspaceClasses. table_lookup.
Qed.

Lemma prohibitedTypes_true (t : string) :
  index prohibitedTypes t = true <->
  t ∈ ["ATZ"; "AWY"; "CTA"; "CTR"; "MATZ"; "P"; "R"; "RAT"; "RMZ"; "TMA";
       "TRA"; "TMZ"].
Proof.
  unfold prohibitedTypes. table_lookup.
Qed.

Lemma dangerTypes_true (t : string) :
  index dangerTypes t = true <->
  t ∈ ["AIAA"; "D"; "D_OTHER"; "DZ"; "GLIDER"; "HIRTA"; "LASER"; "NOATZ"; "UL"].
Proof.
  unfold dangerTypes. table_lookup.
Qed.

(** C8. [ClearanceRequired] holds exactly for the classes A to E and the
    types ATZ, AWY, CTA, CTR, MATZ, P, R, RAT, RMZ, TMA, TRA, TMZ; [Danger]
    holds exactly for the types AIAA, D, D_OTHER, DZ, GLIDER, HIRTA, LASER,
    NOATZ, UL.  The keys are compared as byte strings, so the tables are
    case-sensitive (a lower-case "d" or "ctr" is in neither); a class D CTR
    requires clearance and a class G feature of type OTHER does not. *)
Theorem classification_tables :
  (forall f : Feature.t,
      ClearanceRequired f = true <->
      Feature.Class f ∈ ["A"; "B"; "C"; "D"; "E"]
      \/ Feature.Type_ f ∈ ["ATZ"; "AWY"; "CTA"; "CTR"; "MATZ"; "P"; "R"; "RAT";
                            "RMZ"; "TMA"; "TRA"; "TMZ"])
  /\ (forall f : Feature.t,
      Danger f = true <->
      Feature.Type_ f ∈ ["AIAA"; "D"; "D_OTHER"; "DZ"; "GLIDER"; "HIRTA";
                         "LASER"; "NOATZ"; "UL"])
  /\ ClearanceRequired (Feature.mk "" "" "CTR" "D" []) = true
  /\ ClearanceRequired (Feature.mk "" "" "OTHER" "G" []) = false
  /\ ClearanceRequired (Feature.mk "" "" "ctr" "d" []) = false
  /\ Danger (Feature.mk "" "" "dz" "" []) = false.
Proof.
  split; [|split; [|repeat split; vm_compute; reflexivity]].
  - intros f. unfold ClearanceRequired.
    rewrite orb_true_iff, prohibitedAirspaceClasses_true, prohibitedTypes_true.
    reflexivity.
  - intros f. unfold Danger. apply dangerTypes_true.
Qed.

(* ===================================================================== *)
(** * The cases of the repository's tests                                 *)
(* ===================================================================== *)

(** [TestResolveFeatureID], [TestResolveAirspaceType], [TestDecodeDistance]
    and [TestDanger], evaluated with [sample_external]. *)

Example test_resolveFeatureID :
  let ext := sample_external (mkResponse []) in
  resolveFeatureID "london-ctr" "LONDON CTR" 0 = "london-ctr"
  /\ resolveFeatureID "  aberdeen-cta  " "ABERDEEN CTA" 0 = "aberdeen-cta"
  /\ resolveFeatureID "" "Drop Zone Alpha" 5 = "drop-zone-alpha-5"
  /\ resolveFeatureID "" "Test Area" 42 = "test-area-42".
Proof. repeat split; vm_compute; reflexivity. Qed.

Example test_resolveAirspaceType :
  resolveAirspaceType "CTR" "IGNORED" = "CTR"
  /\ resolveAirspaceType "OTHER" "MATZ" = "MATZ"
  /\ resolveAirspaceType "D_OTHER" "GVS" = "GVS".
Proof. repeat split; reflexivity. Qed.

Example test_decodeDistance :
  let ext := sample_external (mkResponse []) in
  decodeDistance "10 nm" = ((#18520)%f64, [])
  /\ decodeDistance "5 nm" = ((#9260)%f64, [])
  /\ decodeDistance "1 nm" = ((#1852)%f64, []).
Proof. repeat split; vm_compute; reflexivity. Qed.

Example test_Danger :
  Danger (Feature.mk "" "" "D" "" []) = true
  /\ Danger (Feature.mk "" "" "DZ" "" []) = true
  /\ Danger (Feature.mk "" "" "GLIDER" "" []) = true
  /\ Danger (Feature.mk "" "" "GVS" "" []) = false
  /\ Danger (Feature.mk "" "" "ILS" "" []) = false
  /\ Danger (Feature.mk "" "" "CTR" "" []) = false.
Proof. repeat split; vm_compute; reflexivity. Qed.

(* ===================================================================== *)
(** * Properties: the position decoder                                    *)
(* ===================================================================== *)

Lemma length_substring (s : string) :
  forall n m : nat,
    (n + m <= String.length s)%nat -> String.length (substring n m s) = m.
Proof.
  induction s as [|c s IH]; intros n m Hnm; simpl in *.
  - destruct n, m; simpl; lia.
  - destruct n as [|n].
    + destruct m as [|m]; simpl; [reflexivity|].
      f_equal. apply (IH 0%nat). lia.
    + apply IH. lia.
Qed.

Lemma length_slice (s : string) (lo hi : nat) :
  (lo <= hi <= String.length s)%nat -> String.length (slice s lo hi) = (hi - lo)%nat.
Proof. intros H. unfold slice. apply length_substring. lia. Qed.

Lemma digit_val_range (c : ascii) : is_digit c = true -> 0 <= digit_val c <= 9.
Proof.
  unfold is_digit, digit_val. intros H.
  apply andb_prop in H as [H1 H2].
  apply N.leb_le in H1, H2. lia.
Qed.

Lemma ParseUint_loop_digits (s : string) :
  forall n : Z,
    all_digits s = true -> 0 <= n ->
    (n + 1) * 10 ^ Z.of_nat (String.length s) <= 2 ^ 64 ->
    ParseUint_loop s n =
    (fold_left (fun n c => 10 * n + digit_val c) (list_ascii_of_string s) n, None).
Proof.
  induction s as [|c s IH]; intros n Hd Hn Hb; [reflexivity|].
  unfold all_digits in Hd. simpl in Hd. apply andb_prop in Hd as [Hc Hd].
  pose proof (digit_val_range c Hc) as Hv.
  assert (Hpow : 1 <= 10 ^ Z.of_nat (String.length s)) by lia.
  assert (Hstep : (n + 1) * 10 <= 2 ^ 64).
  { change (String.length (String c s)) with (S (String.length s)) in Hb.
    rewrite Nat2Z.inj_succ, Z.pow_succ_r in Hb by lia. nia. }
  simpl ParseUint_loop. rewrite Hc. simpl negb. cbv iota.
  change (maxUint64 / 10 + 1) with 1844674407370955162.
  change (2 ^ 64) with 18446744073709551616 in *.
  destruct (Z.leb_spec 1844674407370955162 n); [lia|].
  rewrite Z.mod_small by lia.
  destruct (Z.ltb_spec (n * 10 + digit_val c) (n * 10)); [lia|].
  unfold maxUint64. change (2 ^ 64 - 1) with 18446744073709551615.
  destruct (Z.ltb_spec 18446744073709551615 (n * 10 + digit_val c)); [lia|].
  simpl orb. cbv iota.
  rewrite IH; [| exact Hd | lia |].
  - simpl. do 2 f_equal. lia.
  - change (String.length (String c s)) with (S (String.length s)) in Hb.
    rewrite Nat2Z.inj_succ, Z.pow_succ_r in Hb by lia. nia.
Qed.

(** [ParseUint] reads a string of 1 to 19 digits as the number it
    denotes. *)
Lemma ParseUint_digits (s : string) :
  all_digits s = true -> (1 <= String.length s <= 19)%nat ->
  ParseUint s = (decimal s, None).
Proof.
  intros Hd Hl. unfold ParseUint, decimal.
  destruct s as [|c s]; [simpl in Hl; lia|].
  apply ParseUint_loop_digits; [exact Hd | lia |].
  apply Z.le_trans with (1 * 10 ^ 19); [|vm_compute; discriminate].
  apply Z.mul_le_mono_nonneg_l; [lia|].
  apply Z.pow_le_mono_r; lia.
Qed.

(** [ParseUint] fails on a string with a byte that is not a digit. *)
Lemma ParseUint_loop_not_digits (s : string) :
  forall n : Z, all_digits s = false -> failed (ParseUint_loop s n).2 = true.
Proof.
  induction s as [|c s IH]; intros n Hd; [discriminate Hd|].
  unfold all_digits in Hd. simpl in Hd. simpl.
  destruct (is_digit c); simpl in *; [|reflexivity].
  destruct (_ <=? n); [reflexivity|].
  destruct (_ || _); [reflexivity|].
  apply IH, Hd.
Qed.

(** A group of two or three bytes parses exactly when all are digits. *)
Lemma ParseUint_group (s : string) :
  (1 <= String.length s <= 19)%nat ->
  failed (ParseUint s).2 = negb (all_digits s).
Proof.
  intros Hl. destruct (all_digits s) eqn:Hd.
  - by rewrite ParseUint_digits.
  - destruct s; [simpl in Hl; lia|].
    simpl negb. unfold ParseUint. by apply ParseUint_loop_not_digits.
Qed.

Lemma digit_groups_length (str : string) :
  String.length str = 16%nat ->
  Forall (fun g => (1 <= String.length g <= 19)%nat) (digit_groups str).
Proof.
  intros Hl. unfold digit_groups.
  repeat (apply Forall_cons; split; [rewrite length_slice; lia|]).
  apply Forall_nil_2.
Qed.

(** C2. On a position string of the form "DDMMSSH DDDMMSSH" the decoder
    returns, without error, the point whose latitude is
    [deg + min/60 + sec/3600] of the first three groups, negated for S, and
    whose longitude is [deg + min/60 + sec/3600] of the last three groups,
    negated for W. *)
Theorem parseLatLng_valid (str : string) :
  valid_position str ->
  parseLatLng str =
  (mkPoint
     (hemisphere "W" (String.get 15 str)
        (sexagesimal (decimal (slice str 8 11)) (decimal (slice str 11 13))
           (decimal (slice str 13 15))))
     (hemisphere "S" (String.get 6 str)
        (sexagesimal (decimal (slice str 0 2)) (decimal (slice str 2 4))
           (decimal (slice str 4 6)))),
   None).
Proof.
  intros (Hlen & Hdig & Hns & Hsp & Hew).
  pose proof (digit_groups_length str Hlen) as Hgl.
  unfold digit_groups in Hdig, Hgl.
  rewrite !Forall_cons in Hdig, Hgl.
  destruct Hdig as (D1 & D2 & D3 & D4 & D5 & D6 & _).
  destruct Hgl as (L1 & L2 & L3 & L4 & L5 & L6 & _).
  unfold parseLatLng, hemisphere, sexagesimal.
  rewrite Hlen, Hsp. rewrite bool_decide_true by reflexivity. simpl.
  rewrite !ParseUint_digits by assumption. simpl.
  destruct Hns as [-> | ->], Hew as [-> | ->]; reflexivity.
Qed.

(** The position of the repository's own example, 50°22'57"N
    003°37'39"W. *)
Lemma parseLatLng_valid_witness :
  valid_position "502257N 0033739W"
  /\ parseLatLng "502257N 0033739W" =
     (mkPoint (- sexagesimal 3 37 39)%f64 (sexagesimal 50 22 57), None).
Proof.
  assert (H : valid_position "502257N 0033739W").
  { unfold valid_position, digit_groups. simpl.
    repeat split; auto; repeat constructor. }
  split; [exact H|].
  exact (parseLatLng_valid "502257N 0033739W" H).
Defined.

(** One outcome of [parseLatLng] against the conditions of failure. *)
Ltac position_leaf :=
  simpl; split; split; intros ?;
  first [ reflexivity | discriminate | tauto
        | exfalso; intuition congruence | intuition congruence ].

(** C7. The decoder fails, with the format error and no point, exactly
    when the length is not 16, or the byte at offset 7 is not a space, or
    one of the six digit groups does not parse as an unsigned integer, or
    the latitude letter is neither N nor S, or the longitude letter is
    neither E nor W; on every other input it succeeds. *)
Theorem parseLatLng_fails_iff (str : string) :
  (malformed_position str <->
   parseLatLng str = (Point0, Some (FormatError str)))
  /\ (~ malformed_position str <-> (parseLatLng str).2 = None).
Proof.
  unfold malformed_position, digit_groups, parseLatLng.
  rewrite !Exists_cons, Exists_nil.
  destruct (Nat.eqb_spec (String.length str) 16) as [Hl | Hl];
    [|position_leaf].
  case_bool_decide as Hsp; [|position_leaf].
  destruct (ParseUint (slice str 0 2)) as [v1 [e1|]];
    destruct (ParseUint (slice str 2 4)) as [v2 [e2|]];
    destruct (ParseUint (slice str 4 6)) as [v3 [e3|]];
    try position_leaf.
  simpl.
  case_bool_decide as Hs; [|case_bool_decide as Hn; [|position_leaf]].
  - destruct (ParseUint (slice str 8 11)) as [v4 [e4|]];
      destruct (ParseUint (slice str 11 13)) as [v5 [e5|]];
      destruct (ParseUint (slice str 13 15)) as [v6 [e6|]];
      try position_leaf.
    simpl. case_bool_decide as Hw; [|case_bool_decide as He]; position_leaf.
  - destruct (ParseUint (slice str 8 11)) as [v4 [e4|]];
      destruct (ParseUint (slice str 11 13)) as [v5 [e5|]];
      destruct (ParseUint (slice str 13 15)) as [v6 [e6|]];
      try position_leaf.
    simpl. case_bool_decide as Hw; [|case_bool_decide as He]; position_leaf.
Qed.

(** The two copies of the decoder fail on the same inputs. *)
Lemma parseLatLng_copies_same_errors (str : string) :
  (Old.parseLatLng str).2 = (parseLatLng str).2.
Proof.
  unfold Old.parseLatLng, parseLatLng.
  destruct (negb _ || negb _); [reflexivity|].
  destruct (ParseUint (slice str 0 2)) as [v1 e1];
    destruct (ParseUint (slice str 2 4)) as [v2 e2];
    destruct (ParseUint (slice str 4 6)) as [v3 e3].
  destruct (failed e1 || failed e2 || failed e3); [reflexivity|].
  destruct (ParseUint (slice str 8 11)) as [v4 e4];
    destruct (ParseUint (slice str 11 13)) as [v5 e5];
    destruct (ParseUint (slice str 13 15)) as [v6 e6].
  repeat case_bool_decide; simpl;
    destruct (failed e4 || failed e5 || failed e6); reflexivity.
Qed.

(** C9. The two copies of the position decoder do not compute the same
    function: on "502257N 0033739W" the current one returns the point of
    C2, the older one divides the seconds by 2600 and returns another
    point. *)
Theorem parseLatLng_copies_differ :
  parseLatLng "502257N 0033739W"
  = (mkPoint (- sexagesimal 3 37 39)%f64 (sexagesimal 50 22 57), None)
  /\ Old.parseLatLng "502257N 0033739W"
     = (mkPoint (- (#3 + #37 / #60 + #39 / #2600))%f64
          (#50 + #22 / #60 + #57 / #2600)%f64, None)
  /\ Old.parseLatLng "502257N 0033739W" <> parseLatLng "502257N 0033739W".
Proof.
  split; [vm_compute; reflexivity|].
  split; [vm_compute; reflexivity|].
  vm_compute. discriminate.
Qed.

(* ===================================================================== *)
(** * Properties: the height decoder                                      *)
(* ===================================================================== *)

Lemma length_append (a b : string) :
  String.length (a ++ b) = (String.length a + String.length b)%nat.
Proof. induction a as [|c a IH]; simpl; [reflexivity | by rewrite IH]. Qed.

Lemma substring_all (s : string) : substring 0 (String.length s) s = s.
Proof. induction s as [|c s IH]; simpl; [reflexivity | by rewrite IH]. Qed.

Lemma substring_app_l (a b : string) : substring 0 (String.length a) (a ++ b) = a.
Proof.
  induction a as [|c a IH]; simpl; [by destruct b | by rewrite IH].
Qed.

Lemma substring_app_r (a b : string) :
  substring (String.length a) (String.length b) (a ++ b) = b.
Proof. induction a as [|c a IH]; simpl; [apply substring_all | exact IH]. Qed.

Lemma substring_split (s : string) :
  forall n : nat, (n <= String.length s)%nat ->
    s = (substring 0 n s ++ substring n (String.length s - n) s)%string.
Proof.
  induction s as [|c s IH]; intros n Hn; simpl in *.
  - destruct n; [reflexivity | lia].
  - destruct n as [|n]; simpl.
    + by rewrite substring_all.
    + change (String c s
              = String c (substring 0 n s
                          ++ substring n (String.length s - n) s)%string).
      f_equal. apply IH. lia.
Qed.

(** [TrimSuffix] removes a trailing "FT" and leaves other strings alone. *)
Lemma TrimSuffix_app (body suffix : string) :
  TrimSuffix (body ++ suffix) suffix = body.
Proof.
  unfold TrimSuffix. rewrite length_append.
  replace (String.length body + String.length suffix - String.length suffix)%nat
    with (String.length body) by lia.
  rewrite substring_app_r, String.eqb_refl, substring_app_l.
  destruct (Nat.leb_spec (String.length suffix)
              (String.length body + String.length suffix)); [reflexivity | lia].
Qed.

Lemma TrimSuffix_none (s suffix : string) :
  (forall body, s <> (body ++ suffix)%string) -> TrimSuffix s suffix = s.
Proof.
  intros Hno. unfold TrimSuffix.
  destruct (Nat.leb_spec (String.length suffix) (String.length s)) as [Hle|];
    [|reflexivity].
  destruct (String.eqb_spec
              (substring (String.length s - String.length suffix)
                 (String.length suffix) s) suffix) as [Heq|]; [|reflexivity].
  exfalso.
  pose proof (substring_split s (String.length s - String.length suffix)) as Hs.
  replace (String.length s - (String.length s - String.length suffix))%nat
    with (String.length suffix) in Hs by lia.
  rewrite Heq in Hs. apply (Hno _ (Hs ltac:(lia))).
Qed.

Lemma sample_strings_ok (doc : airspaceResponse) :
  StringsContract (sample_external doc).
Proof. split; reflexivity. Qed.

Lemma sample_strconv_ok (doc : airspaceResponse) :
  StrconvContract (sample_external doc).
Proof.
  split; simpl; unfold sample_ParseFloat.
  - intros s f H. destruct (_ && _); congruence.
  - intros s Hd [H1 H2]. rewrite Hd.
    destruct (Nat.leb_spec 1 (String.length s)); [|lia].
    destruct (Nat.leb_spec (String.length s) 15); [reflexivity|lia].
Qed.

(** Evaluation of [ToUpper (TrimSpace s)] and of [TrimSpace s] on a
    literal [s] of ASCII bytes, through the contract. *)
Ltac eval_TrimSpace Htrim s :=
  rewrite (Htrim s) by reflexivity;
  let t := eval vm_compute in (trim_ascii s) in
  change (trim_ascii s) with t.

Ltac eval_ToUpper Hup t :=
  rewrite (Hup t) by reflexivity;
  let u := eval vm_compute in (map_bytes ascii_upper t) in
  change (map_bytes ascii_upper t) with u.

Ltac eval_ParseFloat Hdig d :=
  rewrite (Hdig d) by (first [reflexivity | simpl; lia]).

(** C5. The rules of the height decoder, in order, on the trimmed and
    upper-cased input [h]: the empty string and SFC give 0; after the
    prefix FL the rest is parsed and multiplied by 100; otherwise a
    trailing FT is removed, the rest is trimmed and parsed as feet.  A
    number that does not parse gives 0 and one warning; the function
    always returns a value.  SFC, FL115 and "1500 ft" give 0, 11500 and
    1500, in either case. *)
Theorem decodeHeight_rules {ext : External} :
  StringsContract ext -> StrconvContract ext ->
  (forall s : string,
      let h := ToUpper (TrimSpace s) in
      (h = "" \/ h = "SFC" -> decodeHeight s = (F64.zero, []))
      /\ (forall level : string,
             h = ("FL" ++ level)%string ->
             decodeHeight s
             = (((ParseFloat level).1 * #100)%f64,
                warn (BadFlightLevel h) (ParseFloat level).2)
             /\ ((ParseFloat level).2 = Some ErrSyntax ->
                 decodeHeight s = (F64.zero, [BadFlightLevel h ErrSyntax])))
      /\ (h <> "" -> h <> "SFC" -> HasPrefix h "FL" = false ->
          forall feet : string,
            feet = TrimSpace (TrimSuffix h "FT") ->
            decodeHeight s
            = ((ParseFloat feet).1, warn (BadHeight feet) (ParseFloat feet).2)
            /\ ((ParseFloat feet).2 = Some ErrSyntax ->
                decodeHeight s = (F64.zero, [BadHeight feet ErrSyntax]))))
  /\ (forall body : string, TrimSuffix (body ++ "FT") "FT" = body)
  /\ (forall h : string,
         (forall body, h <> (body ++ "FT")%string) -> TrimSuffix h "FT" = h)
  /\ decodeHeight "SFC" = (F64.zero, [])
  /\ decodeHeight "sfc" = (F64.zero, [])
  /\ decodeHeight "FL115" = ((#11500)%f64, [])
  /\ decodeHeight "fl115" = ((#11500)%f64, [])
  /\ decodeHeight "1500 ft" = ((#1500)%f64, [])
  /\ decodeHeight "1500 FT" = ((#1500)%f64, []).
Proof.
  intros [Hup Htrim] [Hsyn Hdig].
  split; [|split; [intros; apply TrimSuffix_app
                  |split; [intros; by apply TrimSuffix_none|]]].
  - intros s. unfold decodeHeight. cbv zeta.
    generalize (ToUpper (TrimSpace s)). intros h.
    split; [|split].
    + intros [-> | ->]; reflexivity.
    + intros level ->.
      change ("FL" ++ level)%string with (String "F" (String "L" level)).
      unfold slice_from, HasPrefix. simpl. rewrite Nat.sub_0_r, substring_all.
      replace (String.prefix "" level) with true by (by destruct level).
      destruct (ParseFloat level) as [f err] eqn:Hp. simpl.
      split; [reflexivity|]. intros ->.
      apply Hsyn in Hp. subst f. reflexivity.
    + intros Hne Hsfc Hfl feet ->.
      apply String.eqb_neq in Hne, Hsfc. rewrite Hne, Hsfc, Hfl. simpl.
      destruct (ParseFloat _) as [f err] eqn:Hp. simpl.
      split; [reflexivity|]. intros ->.
      apply Hsyn in Hp. subst f. reflexivity.
  - unfold decodeHeight. repeat split.
    + eval_TrimSpace Htrim "SFC". eval_ToUpper Hup "SFC". reflexivity.
    + eval_TrimSpace Htrim "sfc". eval_ToUpper Hup "sfc". reflexivity.
    + eval_TrimSpace Htrim "FL115". eval_ToUpper Hup "FL115".
      change (slice_from "FL115" 2) with "115".
      eval_ParseFloat Hdig "115". vm_compute. reflexivity.
    + eval_TrimSpace Htrim "fl115". eval_ToUpper Hup "fl115".
      change (slice_from "FL115" 2) with "115".
      eval_ParseFloat Hdig "115". vm_compute. reflexivity.
    + eval_TrimSpace Htrim "1500 ft". eval_ToUpper Hup "1500 ft".
      change (TrimSuffix "1500 FT" "FT") with "1500 ".
      eval_TrimSpace Htrim "1500 ". eval_ParseFloat Hdig "1500".
      vm_compute. reflexivity.
    + eval_TrimSpace Htrim "1500 FT". eval_ToUpper Hup "1500 FT".
      change (TrimSuffix "1500 FT" "FT") with "1500 ".
      eval_TrimSpace Htrim "1500 ". eval_ParseFloat Hdig "1500".
      vm_compute. reflexivity.
Qed.

Lemma decodeHeight_rules_witness :
  decodeHeight (ext := sample_external (mkResponse [])) "FL85"
  = ((#8500)%f64, [])
  /\ decodeHeight (ext := sample_external (mkResponse [])) "FLxx"
     = (F64.zero, [BadFlightLevel "FLXX" ErrSyntax]).
Proof.
  pose proof (decodeHeight_rules (ext := sample_external (mkResponse []))
                (sample_strings_ok _) (sample_strconv_ok _)) as [Hrules _].
  split.
  - destruct (Hrules "FL85") as (_ & Hfl & _).
    destruct (Hfl "85" eq_refl) as [-> _]. reflexivity.
  - destruct (Hrules "FLxx") as (_ & Hfl & _).
    destruct (Hfl "XX" eq_refl) as [_ ->]; reflexivity.
Defined.

(* ===================================================================== *)
(** * Properties: the containment query                                   *)
(* ===================================================================== *)

(** Comparison of two binary64 numbers, read in the other direction. *)
Lemma SFcompare_swap (x y : float64) :
  SFcompare y x = option_map CompOpp (SFcompare x y).
Proof.
  destruct x as [sx | sx | | sx mx ex], y as [sy | sy | | sy my ey];
    try reflexivity; try (destruct sx; reflexivity);
    try (destruct sy; reflexivity); try (destruct sx, sy; reflexivity).
  simpl. destruct sx, sy; try reflexivity;
    rewrite (Z.compare_antisym ex ey);
    destruct (Z.compare_spec ex ey); subst; simpl; try reflexivity;
    rewrite (Pos.compare_cont_antisym _ _ Eq); simpl;
    by rewrite ?CompOpp_involutive.
Qed.

Lemma f64_ltb_not_leb (x y : float64) :
  (x <? y)%f64 = true -> (y <=? x)%f64 = false.
Proof.
  unfold F64.ltb, F64.leb, SFltb, SFleb. rewrite (SFcompare_swap x y).
  destruct (SFcompare x y) as [[]|]; simpl; congruence.
Qed.

Lemma f64_eqb_leb (x y : float64) :
  (x =? y)%f64 = true -> (x <=? y)%f64 = true.
Proof.
  unfold F64.eqb, F64.leb, SFeqb, SFleb.
  destruct (SFcompare x y) as [[]|]; simpl; congruence.
Qed.

Lemma foldl_select {A : Type} (f : A -> bool) (l : list A) :
  forall acc : list A,
    foldl (fun acc v => if f v then acc ++ [v] else acc) acc l
    = acc ++ List.filter f l.
Proof.
  induction l as [|v l IH]; intros acc; simpl.
  - by rewrite app_nil_r.
  - rewrite IH. destruct (f v); [by rewrite <- app_assoc | reflexivity].
Qed.

(** The volumes returned are the enclosing volumes of the features of
    the map. *)
Lemma EnclosingVolumes_spec {ext : External} (point : Point)
    (features : gmap string Feature.t) (v : Volume.t) :
  v ∈ EnclosingVolumes point features <->
  exists (k : string) (f : Feature.t),
    features !! k = Some f /\ v ∈ Feature.Geometry f
    /\ isEnclosedBy point v = true.
Proof.
  unfold EnclosingVolumes.
  assert (Hfold : forall (l : list (string * Feature.t)) (acc : list Volume.t),
    v ∈ foldl
          (fun enclosingVolumes kf =>
             foldl
               (fun enclosingVolumes v =>
                  if isEnclosedBy point v
                  then enclosingVolumes ++ [v] else enclosingVolumes)
               enclosingVolumes (Feature.Geometry kf.2)) acc l
    <-> v ∈ acc \/ exists kf, kf ∈ l /\ v ∈ Feature.Geometry kf.2
                              /\ isEnclosedBy point v = true).
  { induction l as [|kf l IH]; intros acc; simpl.
    - split; [by left | intros [H | (kf & H & _)]; [exact H | inversion H]].
    - rewrite IH, foldl_select, elem_of_app, !list_elem_of_In, filter_In.
      rewrite <- !list_elem_of_In. split.
      + intros [[H | [H1 H2]] | (kf' & H1 & H2)].
        * by left.
        * right. exists kf. split; [left | done].
        * right. exists kf'. split; [by right | done].
      + intros [H | (kf' & H1 & H2)]; [by left; left|].
        apply elem_of_cons in H1 as [-> | H1].
        * left. right. tauto.
        * right. by exists kf'. }
  rewrite Hfold. split.
  - intros [H | ((k & f) & H1 & H2)]; [inversion H|].
    exists k, f. by apply elem_of_map_to_list in H1.
  - intros (k & f & H1 & H2). right. exists (k, f).
    by apply elem_of_map_to_list in H1.
Qed.

(** C10. The containment test is the disjunction of the circle test, made
    when the radius is not zero, and of the ring test, made when the
    polygon is not empty; a volume with both shapes matches a point in
    either; a volume with a zero radius and an empty polygon encloses no
    point, and [EnclosingVolumes] returns only volumes that enclose the
    point. *)
Theorem isEnclosedBy_disjunction {ext : External} (p : Point) (vol : Volume.t) :
  let R := Radius (Volume.Circle vol) in
  let d := Distance (ToMercator p) (ToMercator (Centre (Volume.Circle vol))) in
  (isEnclosedBy p vol = true <->
   ((R !=? F64.zero)%f64 = true /\ (d <=? R)%f64 = true)
   \/ (Volume.Polygon vol <> [] /\ RingContains (Volume.Polygon vol) p = true))
  /\ ((R =? F64.zero)%f64 = true -> Volume.Polygon vol = [] ->
      isEnclosedBy p vol = false
      /\ forall features : gmap string Feature.t,
           vol ∉ EnclosingVolumes p features).
Proof.
  intros R d.
  assert (Hiff : isEnclosedBy p vol = true <->
    ((R !=? F64.zero)%f64 = true /\ (d <=? R)%f64 = true)
    \/ (Volume.Polygon vol <> [] /\ RingContains (Volume.Polygon vol) p = true)).
  { unfold isEnclosedBy. fold R. fold d.
    destruct (Volume.Polygon vol) as [|q ring] eqn:Hpoly; simpl.
    - destruct (R !=? F64.zero)%f64, (d <=? R)%f64;
        split; try tauto; try discriminate; intuition congruence.
    - destruct (R !=? F64.zero)%f64, (d <=? R)%f64,
        (RingContains (q :: ring) p);
        split; try tauto; try discriminate; intuition congruence. }
  split; [exact Hiff|].
  intros Hzero Hempty.
  assert (Hno : isEnclosedBy p vol = false).
  { apply not_true_is_false. rewrite Hiff.
    unfold F64.neqb. fold (R =? F64.zero)%f64. rewrite Hzero.
    intros [[H _] | [H _]]; [discriminate H | by apply H]. }
  split; [exact Hno|].
  intros features Hin. apply EnclosingVolumes_spec in Hin.
  destruct Hin as (k & f & _ & _ & Htrue). congruence.
Qed.

(** C6 (as amended). For a volume with a circle of radius [R] not zero and
    centre [C], the test compares the distance [d] between the projections
    of the query point and of [C] with [R], boundary included: a point
    with [d] equal to [R] is enclosed; a point with [d] greater than [R] is
    enclosed exactly when the polygon of the volume is not empty and its
    ring contains the point, so it is excluded when the polygon is
    empty. *)
Theorem circle_boundary_inclusive {ext : External} (p : Point) (vol : Volume.t) :
  let R := Radius (Volume.Circle vol) in
  let d := Distance (ToMercator p) (ToMercator (Centre (Volume.Circle vol))) in
  (R !=? F64.zero)%f64 = true ->
  ((d =? R)%f64 = true -> isEnclosedBy p vol = true)
  /\ ((R <? d)%f64 = true ->
      isEnclosedBy p vol
      = (0 <? length (Volume.Polygon vol))%nat
        && RingContains (Volume.Polygon vol) p)
  /\ ((R <? d)%f64 = true -> Volume.Polygon vol = [] ->
      isEnclosedBy p vol = false).
Proof.
  intros R d Hnz. unfold isEnclosedBy. fold R. fold d. rewrite Hnz.
  split; [|split].
  - intros Heq. by rewrite (f64_eqb_leb _ _ Heq).
  - intros Hgt. rewrite (f64_ltb_not_leb _ _ Hgt).
    destruct (0 <? length (Volume.Polygon vol))%nat; [|reflexivity].
    by destruct (RingContains (Volume.Polygon vol) p).
  - intros Hgt Hempty. rewrite (f64_ltb_not_leb _ _ Hgt), Hempty.
    reflexivity.
Qed.

(** The point (1, 0) lies on the boundary of [one_degree_circle] and is
    enclosed; the point (2, 0) lies outside and is not. *)
Lemma circle_boundary_inclusive_witness :
  isEnclosedBy (ext := sample_external (mkResponse [])) (pt 1 0)
    one_degree_circle = true
  /\ isEnclosedBy (ext := sample_external (mkResponse [])) (pt 2 0)
       one_degree_circle = false.
Proof.
  split.
  - refine (proj1 (circle_boundary_inclusive
                     (ext := sample_external (mkResponse []))
                     (pt 1 0) one_degree_circle _) _);
      vm_compute; reflexivity.
  - refine (proj2 (proj2 (circle_boundary_inclusive
                            (ext := sample_external (mkResponse []))
                            (pt 2 0) one_degree_circle _)) _ _);
      vm_compute; reflexivity.
Defined.

(** C6 as stated fails: [circle_and_square] carries a circle of radius
    not zero, the point (10, 10) is farther from its centre than the
    radius, and the test encloses the point, because the polygon of the
    volume contains it. *)
Lemma circle_exclusion_counterexample :
  let ext := sample_external (mkResponse []) in
  let R := Radius (Volume.Circle circle_and_square) in
  let d := Distance (ToMercator (pt 10 10))
             (ToMercator (Centre (Volume.Circle circle_and_square))) in
  (R !=? F64.zero)%f64 = true
  /\ (R <? d)%f64 = true
  /\ isEnclosedBy (pt 10 10) circle_and_square = true.
Proof. vm_compute. repeat split; reflexivity. Qed.

(* ===================================================================== *)
(** * Properties: binary64 arithmetic on bearings                         *)
(* ===================================================================== *)

(** ** Number of bits *)

Lemma digits2_pos_size (m : positive) : digits2_pos m = Pos.size m.
Proof. induction m as [m IH | m IH |]; simpl; by rewrite ?IH. Qed.

Lemma digits2_pos_log2 (m : positive) :
  Z.pos (digits2_pos m) = Z.log2 (Z.pos m) + 1.
Proof.
  rewrite digits2_pos_size. destruct m as [m | m |]; simpl; try reflexivity;
    by rewrite Pos2Z.inj_succ.
Qed.

Lemma digits2_pos_spec (m : positive) :
  2 ^ (Z.pos (digits2_pos m) - 1) <= Z.pos m < 2 ^ Z.pos (digits2_pos m).
Proof.
  rewrite digits2_pos_log2.
  replace (Z.log2 (Z.pos m) + 1 - 1) with (Z.log2 (Z.pos m)) by lia.
  apply Z.log2_spec. lia.
Qed.

(** The number of bits of a number between two powers of two. *)
Lemma digits2_pos_unique (m : positive) (d : Z) :
  2 ^ (d - 1) <= Z.pos m < 2 ^ d -> Z.pos (digits2_pos m) = d.
Proof.
  intros [Hlo Hhi]. rewrite digits2_pos_log2.
  assert (0 < d).
  { destruct (Z.lt_ge_cases 0 d) as [|Hd]; [assumption|].
    assert (2 ^ d <= 2 ^ 0) by (apply Z.pow_le_mono_r; lia).
    change (2 ^ 0) with 1 in *. lia. }
  assert (Z.log2 (Z.pos m) = d - 1); [|lia].
  apply Z.log2_unique; [lia|].
  replace (Z.succ (d - 1)) with d by lia. lia.
Qed.

(** ** Shifting right *)

Lemma iter_pos_nat {A : Type} (f : A -> A) (p : positive) :
  forall x : A, SpecFloat.iter_pos f p x = Nat.iter (Pos.to_nat p) f x.
Proof.
  induction p as [p IH | p IH |]; intros x; cbn [SpecFloat.iter_pos].
  - rewrite !IH, Pos2Nat.inj_xI.
    replace (S (2 * Pos.to_nat p)) with (Pos.to_nat p + Pos.to_nat p + 1)%nat
      by lia.
    by rewrite !Nat.iter_add.
  - rewrite !IH, Pos2Nat.inj_xO.
    replace (2 * Pos.to_nat p)%nat with (Pos.to_nat p + Pos.to_nat p)%nat
      by lia.
    by rewrite Nat.iter_add.
  - reflexivity.
Qed.

Lemma shr_1_div2 (mrs : shr_record) :
  0 <= shr_m mrs -> shr_m (shr_1 mrs) = shr_m mrs / 2.
Proof.
  destruct mrs as [m r s]. simpl. intros Hm.
  destruct m as [|[p | p |]|p]; simpl; try reflexivity; try lia.
  - rewrite Pos2Z.inj_xI. apply Z.div_unique with 1; lia.
  - rewrite Pos2Z.inj_xO. apply Z.div_unique with 0; lia.
Qed.

Lemma shr_iter_div (n : nat) (mrs : shr_record) :
  0 <= shr_m mrs ->
  shr_m (Nat.iter n shr_1 mrs) = shr_m mrs / 2 ^ Z.of_nat n.
Proof.
  intros Hm. induction n as [|n IH].
  - simpl. by rewrite Z.div_1_r.
  - rewrite Nat2Z.inj_succ, Z.pow_succ_r by lia. simpl.
    rewrite shr_1_div2.
    + rewrite IH, Z.div_div by lia. f_equal. lia.
    + rewrite IH. apply Z.div_pos; lia.
Qed.

(** [shr] divides the mantissa by [2^n] and adds [n] to the exponent,
    for [n] positive, and does nothing otherwise. *)
Lemma shr_spec (mrs : shr_record) (e n : Z) :
  0 <= shr_m mrs ->
  shr_m (shr mrs e n).1 = shr_m mrs / 2 ^ Z.max 0 n
  /\ (shr mrs e n).2 = e + Z.max 0 n.
Proof.
  intros Hm. destruct n as [|p|p]; simpl.
  - rewrite Z.div_1_r. split; [reflexivity | lia].
  - rewrite iter_pos_nat, shr_iter_div, positive_nat_Z by assumption.
    split; [reflexivity | lia].
  - rewrite Z.div_1_r. split; [reflexivity | lia].
Qed.

Lemma shr_exact (m e n : Z) :
  n <= 0 -> shr (shr_record_of_loc m loc_Exact) e n
            = (Build_shr_record m false false, e).
Proof. intros Hn. destruct n; simpl; [reflexivity | lia | reflexivity]. Qed.

Lemma round_nearest_even_range (m : Z) (l : location) :
  round_nearest_even m l = m \/ round_nearest_even m l = m + 1.
Proof.
  destruct l as [|[]]; simpl; auto. destruct (Z.even m); auto.
Qed.

(** ** Rounding *)

Lemma fexp64 (e : Z) : fexp F64.prec F64.emax e = Z.max (e - 53) (- 1074).
Proof. reflexivity. Qed.

Lemma shr_m_of_loc (m : Z) (l : location) : shr_m (shr_record_of_loc m l) = m.
Proof. by destruct l as [|[]]. Qed.

Lemma shr_fexp_spec (m : positive) (e : Z) (l : location) :
  let n := fexp F64.prec F64.emax (Z.pos (digits2_pos m) + e) - e in
  shr_m (shr_fexp F64.prec F64.emax (Z.pos m) e l).1 = Z.pos m / 2 ^ Z.max 0 n
  /\ (shr_fexp F64.prec F64.emax (Z.pos m) e l).2 = e + Z.max 0 n.
Proof.
  intros n. unfold shr_fexp. fold n.
  change (Zdigits2 (Z.pos m)) with (Z.pos (digits2_pos m)). fold n.
  pose proof (shr_spec (shr_record_of_loc (Z.pos m) l) e n) as H.
  rewrite shr_m_of_loc in H. apply H. lia.
Qed.

Lemma shr_fexp_exact (m : positive) (e : Z) :
  fexp F64.prec F64.emax (Z.pos (digits2_pos m) + e) - e <= 0 ->
  shr_fexp F64.prec F64.emax (Z.pos m) e loc_Exact
  = (Build_shr_record (Z.pos m) false false, e).
Proof. intros Hn. unfold shr_fexp. by apply shr_exact. Qed.

(** A mantissa that is already in canonical form is kept. *)
Lemma binary_round_aux_canonical (s : bool) (m : positive) (e : Z) :
  bounded F64.prec F64.emax m e = true ->
  binary_round_aux F64.prec F64.emax s (Z.pos m) e loc_Exact
  = S754_finite s m e.
Proof.
  unfold bounded, canonical_mantissa. intros H.
  apply andb_prop in H as [Hc He]. apply Z.eqb_eq in Hc.
  unfold binary_round_aux.
  rewrite shr_fexp_exact by lia. simpl shr_m. simpl loc_of_shr_record.
  simpl round_nearest_even.
  rewrite shr_fexp_exact by lia. simpl shr_m.
  by rewrite He.
Qed.

(** Rounding a positive number below [2^12]: the result is a binary64
    number within [2^-41] of it. *)
Lemma binary_round_aux_spec (s : bool) (m : positive) (e : Z) :
  - 1074 <= e ->
  e <= fexp F64.prec F64.emax (Z.pos (digits2_pos m) + e) ->
  Z.pos (digits2_pos m) + e <= 12 ->
  exists (m' : positive) (e' : Z),
    binary_round_aux F64.prec F64.emax s (Z.pos m) e loc_Exact
    = S754_finite s m' e'
    /\ bounded F64.prec F64.emax m' e' = true
    /\ Z.abs (Z.pos m' * 2 ^ (e' + 1074) - Z.pos m * 2 ^ (e + 1074))
       <= 2 ^ 1033.
Proof.
  intros Hmin Hle Hsmall.
  set (d := Z.pos (digits2_pos m)) in *.
  destruct (Z.eq_dec (fexp F64.prec F64.emax (d + e)) e) as [Heq | Hne].
  { (* already canonical *)
    assert (Hb : bounded F64.prec F64.emax m e = true).
    { unfold bounded, canonical_mantissa. fold d. rewrite Heq, Z.eqb_refl.
      apply Z.leb_le. unfold F64.emax, F64.prec. lia. }
    exists m, e. split; [by apply binary_round_aux_canonical|].
    split; [exact Hb|]. rewrite Z.sub_diag. simpl. lia. }
  (* the mantissa has more than 53 bits *)
  rewrite fexp64 in Hle, Hne.
  assert (Hd : 53 < d) by lia.
  set (n := d - 53).
  assert (Hfexp : fexp F64.prec F64.emax (d + e) - e = n).
  { rewrite fexp64. unfold n. lia. }
  pose proof (digits2_pos_spec m) as Hm. fold d in Hm.
  assert (Hq : 0 < 2 ^ n) by (apply Z.pow_pos_nonneg; lia).
  assert (H2d : 2 ^ d = 2 ^ 53 * 2 ^ n).
  { rewrite <- Z.pow_add_r by lia. f_equal. lia. }
  assert (H2d1 : 2 ^ (d - 1) = 2 ^ 52 * 2 ^ n).
  { rewrite <- Z.pow_add_r by lia. f_equal. lia. }
  set (m1 := Z.pos m / 2 ^ n).
  assert (Hm1 : 2 ^ 52 <= m1 < 2 ^ 53).
  { unfold m1. split.
    - apply Z.div_le_lower_bound; lia.
    - apply Z.div_lt_upper_bound; lia. }
  assert (Hdiv : m1 * 2 ^ n <= Z.pos m < (m1 + 1) * 2 ^ n).
  { unfold m1. pose proof (Z.mul_div_le (Z.pos m) (2 ^ n) Hq).
    pose proof (Z.mul_succ_div_gt (Z.pos m) (2 ^ n) Hq). lia. }
  unfold binary_round_aux.
  destruct (shr_fexp_spec m e loc_Exact) as [Hs1 Hs2]. fold d in Hs1, Hs2.
  rewrite Hfexp in Hs1, Hs2. rewrite Z.max_r in Hs1, Hs2 by lia.
  fold m1 in Hs1.
  destruct (shr_fexp F64.prec F64.emax (Z.pos m) e loc_Exact) as [mrs1 e1].
  simpl in Hs1, Hs2. subst e1.
  set (m2 := round_nearest_even (shr_m mrs1) (loc_of_shr_record mrs1)).
  assert (Hm2 : m2 = m1 \/ m2 = m1 + 1).
  { unfold m2. rewrite <- Hs1. apply round_nearest_even_range. }
  assert (Hval : Z.abs (m2 * 2 ^ (e + n + 1074) - Z.pos m * 2 ^ (e + 1074))
                 <= 2 ^ 1033).
  { replace (e + n + 1074) with ((e + 1074) + n) by lia.
    rewrite Z.pow_add_r by lia.
    assert (Hp : 0 < 2 ^ (e + 1074)) by (apply Z.pow_pos_nonneg; lia).
    replace (m2 * (2 ^ (e + 1074) * 2 ^ n) - Z.pos m * 2 ^ (e + 1074))
      with (2 ^ (e + 1074) * (m2 * 2 ^ n - Z.pos m)) by ring.
    rewrite Z.abs_mul, (Z.abs_eq (2 ^ (e + 1074))) by lia.
    apply Z.le_trans with (2 ^ (e + 1074) * 2 ^ n).
    - apply Z.mul_le_mono_nonneg_l; [lia|]. destruct Hm2; subst m2; lia.
    - rewrite <- Z.pow_add_r by lia. apply Z.pow_le_mono_r; lia. }
  assert (Hpos : 0 < m2) by (change (2 ^ 52) with 4503599627370496 in Hm1; lia).
  destruct m2 as [|p2|p2] eqn:Ep2; try lia.
  destruct (Z.lt_ge_cases (Z.pos p2) (2 ^ 53)) as [Hlt | Hge].
  - (* 53 bits after rounding *)
    assert (Hd2 : Z.pos (digits2_pos p2) = 53).
    { apply digits2_pos_unique. change (53 - 1) with 52. lia. }
    rewrite shr_fexp_exact by (rewrite Hd2, fexp64; lia).
    simpl shr_m.
    destruct (Z.leb_spec (e + n) (F64.emax - F64.prec)) as [_ | Hbig];
      [|unfold F64.emax, F64.prec in Hbig; lia].
    exists p2, (e + n). split; [reflexivity|]. split; [|exact Hval].
    unfold bounded, canonical_mantissa. rewrite Hd2, fexp64.
    apply andb_true_intro. split; [apply Z.eqb_eq; lia|].
    apply Z.leb_le. unfold F64.emax, F64.prec. lia.
  - (* the rounding carried to [2^53] *)
    assert (Hp2 : Z.pos p2 = 2 ^ 53) by lia.
    assert (Hd2 : Z.pos (digits2_pos p2) = 54).
    { apply digits2_pos_unique. rewrite Hp2. change (54 - 1) with 53.
      split; [lia|]. apply Z.pow_lt_mono_r; lia. }
    destruct (shr_fexp_spec p2 (e + n) loc_Exact) as [Ht1 Ht2].
    rewrite Hd2, fexp64 in Ht1, Ht2.
    replace (Z.max (54 + (e + n) - 53) (-1074) - (e + n)) with 1
      in Ht1, Ht2 by lia.
    change (Z.max 0 1) with 1 in Ht1, Ht2.
    assert (Hhalf : Z.pos p2 / 2 ^ 1 = Z.pos 4503599627370496)
      by (rewrite Hp2; reflexivity).
    rewrite Hhalf in Ht1.
    destruct (shr_fexp F64.prec F64.emax (Z.pos p2) (e + n) loc_Exact)
      as [mrs3 e3].
    simpl in Ht1, Ht2. subst e3. rewrite Ht1.
    destruct (Z.leb_spec (e + n + 1) (F64.emax - F64.prec)) as [_ | Hbig];
      [|unfold F64.emax, F64.prec in Hbig; lia].
    exists 4503599627370496%positive, (e + n + 1).
    split; [reflexivity|]. split.
    + unfold bounded, canonical_mantissa.
      change (Z.pos (digits2_pos 4503599627370496)) with 53. rewrite fexp64.
      apply andb_true_intro. split; [apply Z.eqb_eq; lia|].
      apply Z.leb_le. unfold F64.emax, F64.prec. lia.
    + replace (Z.pos 4503599627370496 * 2 ^ (e + n + 1 + 1074))
        with (Z.pos p2 * 2 ^ (e + n + 1074)); [exact Hval|].
      rewrite Hp2. replace (e + n + 1 + 1074) with (1 + (e + n + 1074)) by lia.
      rewrite (Z.pow_add_r 2 1) by lia. change (2 ^ 1) with 2.
      change (2 ^ 53) with 9007199254740992. lia.
Qed.

Lemma Pos_iter_xO (m d : positive) :
  Z.pos (Pos.iter xO m d) = Z.pos m * 2 ^ Z.pos d.
Proof.
  induction d as [|d IH] using Pos.peano_ind.
  - simpl. lia.
  - rewrite Pos.iter_succ, Pos2Z.inj_xO, IH, Pos2Z.inj_succ, Z.pow_succ_r by lia.
    ring.
Qed.

(** [shl_align] to a smaller exponent keeps the value. *)
Lemma shl_align_spec (m : positive) (e e' : Z) :
  - 1074 <= e' ->
  Z.pos (shl_align m e e').1 * 2 ^ ((shl_align m e e').2 + 1074)
  = Z.pos m * 2 ^ (e + 1074)
  /\ (shl_align m e e').2 = Z.min e e'.
Proof.
  intros Hmin. unfold shl_align.
  destruct (e' - e) as [|d|d] eqn:Hd; simpl; [split; [reflexivity|lia].. |].
  change (Z.neg d) with (- Z.pos d) in Hd.
  rewrite Pos_iter_xO. split.
  - replace (e + 1074) with (Z.pos d + (e' + 1074)) by lia.
    rewrite (Z.pow_add_r 2 (Z.pos d) (e' + 1074)) by lia. ring.
  - lia.
Qed.

Lemma shl_align_fst (m : positive) (e e' : Z) :
  e' <= e -> Z.pos (shl_align m e e').1 = Z.pos m * 2 ^ (e - e').
Proof.
  intros Hle. unfold shl_align.
  destruct (e' - e) as [|d|d] eqn:Hd; simpl.
  - replace (e - e') with 0 by lia. simpl. lia.
  - lia.
  - change (Z.neg d) with (- Z.pos d) in Hd.
    rewrite Pos_iter_xO. f_equal. f_equal. lia.
Qed.

(** The number of bits of a positive number against its size. *)
Lemma digits2_pos_bound (p : positive) (k : Z) :
  0 <= k -> Z.pos p < 2 ^ k -> Z.pos (digits2_pos p) <= k.
Proof.
  intros Hk Hp. pose proof (digits2_pos_spec p) as [Hlo _].
  destruct (Z.le_gt_cases (Z.pos (digits2_pos p)) k) as [|Hgt]; [assumption|].
  assert (2 ^ k <= 2 ^ (Z.pos (digits2_pos p) - 1))
    by (apply Z.pow_le_mono_r; lia).
  lia.
Qed.

Lemma digits2_pos_shift (m : positive) (k : Z) (p : positive) :
  0 <= k -> Z.pos p = Z.pos m * 2 ^ k ->
  Z.pos (digits2_pos p) = Z.pos (digits2_pos m) + k.
Proof.
  intros Hk Hp. apply digits2_pos_unique. rewrite Hp.
  pose proof (digits2_pos_spec m) as [Hlo Hhi].
  assert (0 < 2 ^ k) by (apply Z.pow_pos_nonneg; lia).
  replace (Z.pos (digits2_pos m) + k - 1)
    with ((Z.pos (digits2_pos m) - 1) + k) by lia.
  rewrite !Z.pow_add_r by lia. nia.
Qed.

Lemma binary_round_spec (s : bool) (m : positive) (e : Z) :
  - 1074 <= e ->
  Z.pos (digits2_pos m) + e <= 12 ->
  exists (m' : positive) (e' : Z),
    binary_round F64.prec F64.emax s m e = S754_finite s m' e'
    /\ SpecFloat.bounded F64.prec F64.emax m' e' = true
    /\ Z.abs (Z.pos m' * 2 ^ (e' + 1074) - Z.pos m * 2 ^ (e + 1074))
       <= 2 ^ 1033.
Proof.
  intros Hmin Hsmall. unfold binary_round.
  set (e0 := fexp F64.prec F64.emax (Z.pos (digits2_pos m) + e)).
  assert (He0 : - 1074 <= e0) by (unfold e0; rewrite fexp64; lia).
  destruct (shl_align_spec m e e0 He0) as [Hval Hexp].
  destruct (shl_align m e e0) as [mz ez] eqn:Hsh. simpl in Hval, Hexp.
  assert (Hdz : Z.pos (digits2_pos mz) + ez = Z.pos (digits2_pos m) + e).
  { assert (Hmz : Z.pos mz = Z.pos m * 2 ^ (e - ez)).
    { pose proof (shl_align_fst m e ez ltac:(lia)) as Hf.
      destruct (Z.le_gt_cases e e0).
      - replace ez with e by lia. rewrite Z.sub_diag. simpl.
        unfold shl_align in Hsh. destruct (e0 - e) eqn:Hd; try lia;
          inversion Hsh; lia.
      - replace ez with e0 by lia. rewrite <- shl_align_fst by lia.
        by rewrite Hsh. }
    rewrite (digits2_pos_shift m (e - ez) mz); lia. }
  rewrite <- Hval.
  apply binary_round_aux_spec; rewrite ?Hdz; fold e0; lia.
Qed.

(** ** Numbers *)

Lemma bounded_exponent (m : positive) (e : Z) :
  SpecFloat.bounded F64.prec F64.emax m e = true ->
  - 1074 <= e <= 971 /\ Z.pos (digits2_pos m) <= 53
  /\ (- 1074 < e -> Z.pos (digits2_pos m) = 53).
Proof.
  unfold SpecFloat.bounded, canonical_mantissa. intros H.
  apply andb_prop in H as [Hc He].
  apply Z.eqb_eq in Hc. apply Z.leb_le in He.
  rewrite fexp64 in Hc. unfold F64.emax, F64.prec in He. lia.
Qed.

Lemma number_finite (s : bool) (m : positive) (e : Z) :
  SpecFloat.bounded F64.prec F64.emax m e = true -> number (S754_finite s m e).
Proof. intros H. split; [exact H | reflexivity]. Qed.

Lemma number_opp (x : float64) : number x -> number (- x)%f64.
Proof. intros [Hv Hf]. by destruct x. Qed.

Lemma scaled_opp (x : float64) : F64.scaled (- x)%f64 = - F64.scaled x.
Proof. destruct x as [| | |[] m e]; simpl; lia. Qed.

(** Comparison of numbers is comparison of their values. *)
Lemma SFcompare_scaled (x y : float64) :
  number x -> number y ->
  SFcompare x y = Some (F64.scaled x ?= F64.scaled y).
Proof.
  intros [Hvx Hfx] [Hvy Hfy].
  destruct x as [sx | sx | | sx mx ex], y as [sy | sy | | sy my ey];
    try discriminate; cbn [SFcompare F64.scaled F64.valid valid_binary] in *.
  - reflexivity.
  - assert (0 < Z.pos my * 2 ^ (ey + 1074)) by
      (apply Z.mul_pos_pos; [lia | apply Z.pow_pos_nonneg;
                                   [lia | apply bounded_exponent in Hvy; lia]]).
    destruct sy; cbn [cond_Zopp]; f_equal; symmetry;
      [apply Z.compare_gt_iff | apply Z.compare_lt_iff]; lia.
  - assert (0 < Z.pos mx * 2 ^ (ex + 1074)) by
      (apply Z.mul_pos_pos; [lia | apply Z.pow_pos_nonneg;
                                   [lia | apply bounded_exponent in Hvx; lia]]).
    destruct sx; cbn [cond_Zopp]; f_equal; symmetry;
      [apply Z.compare_lt_iff | apply Z.compare_gt_iff]; lia.
  - apply bounded_exponent in Hvx as (Hex & Hdx & Hnx).
    apply bounded_exponent in Hvy as (Hey & Hdy & Hny).
    pose proof (digits2_pos_spec mx) as [Hxlo Hxhi].
    pose proof (digits2_pos_spec my) as [Hylo Hyhi].
    assert (Hpx : 0 < 2 ^ (ex + 1074)) by (apply Z.pow_pos_nonneg; lia).
    assert (Hpy : 0 < 2 ^ (ey + 1074)) by (apply Z.pow_pos_nonneg; lia).
    assert (Hmx : Z.pos mx < 2 ^ 53).
    { apply Z.lt_le_trans with (2 ^ Z.pos (digits2_pos mx)); [lia|].
      apply Z.pow_le_mono_r; lia. }
    assert (Hmy : Z.pos my < 2 ^ 53).
    { apply Z.lt_le_trans with (2 ^ Z.pos (digits2_pos my)); [lia|].
      apply Z.pow_le_mono_r; lia. }
    (* the value grows with the exponent *)
    assert (Hexp : forall (m1 m2 : positive) (e1 e2 : Z),
               - 1074 <= e1 -> e1 < e2 -> Z.pos m1 < 2 ^ 53 ->
               2 ^ 52 <= Z.pos m2 ->
               Z.pos m1 * 2 ^ (e1 + 1074) < Z.pos m2 * 2 ^ (e2 + 1074)).
    { intros m1 m2 e1 e2 H1 H12 Hm1 Hm2.
      replace (e2 + 1074) with ((e2 - e1) + (e1 + 1074)) by lia.
      rewrite (Z.pow_add_r 2 (e2 - e1) (e1 + 1074)) by lia.
      assert (0 < 2 ^ (e1 + 1074)) by (apply Z.pow_pos_nonneg; lia).
      assert (2 ^ 1 <= 2 ^ (e2 - e1)) by (apply Z.pow_le_mono_r; lia).
      change (2 ^ 1) with 2 in *.
      change (2 ^ 53) with 9007199254740992 in Hm1.
      change (2 ^ 52) with 4503599627370496 in Hm2.
      assert (Z.pos m1 < Z.pos m2 * 2 ^ (e2 - e1)) by nia.
      rewrite Z.mul_assoc. apply Z.mul_lt_mono_pos_r; assumption. }
    assert (Hlo : forall (m : positive) (e : Z),
               Z.pos (digits2_pos m) = 53 -> 2 ^ 52 <= Z.pos m).
    { intros m e Hd. pose proof (digits2_pos_spec m) as [Hl _].
      rewrite Hd in Hl. exact Hl. }
    destruct sx, sy; cbn [cond_Zopp]; f_equal; symmetry.
    + (* both negative *)
      destruct (Z.compare_spec ex ey) as [-> | Hlt | Hgt]; cbn [CompOpp].
      * rewrite Pos.compare_cont_spec.
        destruct (Pos.compare_spec mx my) as [-> | Hc | Hc];
          cbn [Pos.switch_Eq CompOpp];
          [apply Z.compare_eq_iff | apply Z.compare_gt_iff
          | apply Z.compare_lt_iff]; nia.
      * apply Z.compare_gt_iff.
        pose proof (Hexp mx my ex ey ltac:(lia) Hlt Hmx
                      (Hlo my ey (Hny ltac:(lia)))). lia.
      * apply Z.compare_lt_iff.
        pose proof (Hexp my mx ey ex ltac:(lia) ltac:(lia) Hmy
                      (Hlo mx ex (Hnx ltac:(lia)))). lia.
    + apply Z.compare_lt_iff. nia.
    + apply Z.compare_gt_iff. nia.
    + (* both positive *)
      destruct (Z.compare_spec ex ey) as [-> | Hlt | Hgt].
      * rewrite Pos.compare_cont_spec.
        destruct (Pos.compare_spec mx my) as [-> | Hc | Hc];
          cbn [Pos.switch_Eq];
          [apply Z.compare_eq_iff | apply Z.compare_lt_iff
          | apply Z.compare_gt_iff]; nia.
      * apply Z.compare_lt_iff.
        apply (Hexp mx my ex ey); [lia | lia | exact Hmx |].
        apply (Hlo my ey), Hny. lia.
      * apply Z.compare_gt_iff.
        apply (Hexp my mx ey ex); [lia | lia | exact Hmy |].
        apply (Hlo mx ex), Hnx. lia.
Qed.

Lemma f64_ltb_scaled (x y : float64) :
  number x -> number y -> (x <? y)%f64 = (F64.scaled x <? F64.scaled y).
Proof.
  intros Hx Hy. unfold F64.ltb, SFltb. rewrite SFcompare_scaled by assumption.
  unfold Z.ltb. by destruct (F64.scaled x ?= F64.scaled y).
Qed.

(** ** Addition *)

(** The sum of two numbers whose exact sum is below [2^12] is a number
    within [2^-41] of the exact sum. *)
Lemma f64_add_spec (x y : float64) :
  number x -> number y ->
  Z.abs (F64.scaled x + F64.scaled y) < 2 ^ 1086 ->
  number (x + y)%f64
  /\ Z.abs (F64.scaled (x + y)%f64 - (F64.scaled x + F64.scaled y))
     <= 2 ^ 1033.
Proof.
  intros [Hvx Hfx] [Hvy Hfy] Hsum.
  assert (H0 : 0 <= 2 ^ 1033) by (apply Z.pow_nonneg; lia).
  destruct x as [sx | sx | | sx mx ex], y as [sy | sy | | sy my ey];
    try discriminate.
  - split; [by destruct sx, sy|]. destruct sx, sy; simpl; lia.
  - split; [by split|]. simpl F64.add. simpl F64.scaled at 2.
    rewrite Z.add_0_l, Z.sub_diag. simpl. lia.
  - split; [by split|]. simpl F64.add. simpl F64.scaled at 3.
    rewrite Z.add_0_r, Z.sub_diag. simpl. lia.
  - cbn [F64.valid valid_binary] in Hvx, Hvy.
    pose proof (bounded_exponent _ _ Hvx) as (Hex & _).
    pose proof (bounded_exponent _ _ Hvy) as (Hey & _).
    unfold F64.add, SFadd.
    set (ez := Z.min ex ey).
    rewrite (shl_align_fst mx ex ez), (shl_align_fst my ey ez) by lia.
    set (M := cond_Zopp sx (Z.pos mx * 2 ^ (ex - ez))
              + cond_Zopp sy (Z.pos my * 2 ^ (ey - ez))).
    assert (Hp : 0 < 2 ^ (ez + 1074)) by (apply Z.pow_pos_nonneg; lia).
    assert (HM : M * 2 ^ (ez + 1074)
                 = F64.scaled (S754_finite sx mx ex)
                   + F64.scaled (S754_finite sy my ey)).
    { unfold M. cbn [F64.scaled].
      replace (ex + 1074) with ((ex - ez) + (ez + 1074)) by lia.
      replace (ey + 1074) with ((ey - ez) + (ez + 1074)) by lia.
      rewrite (Z.pow_add_r 2 (ex - ez)), (Z.pow_add_r 2 (ey - ez)) by lia.
      destruct sx, sy; cbn [cond_Zopp]; ring. }
    rewrite <- HM in Hsum |- *. clearbody M.
    assert (Hround : forall (s : bool) (p : positive),
               Z.pos p * 2 ^ (ez + 1074) < 2 ^ 1086 ->
               exists (m' : positive) (e' : Z),
                 binary_round F64.prec F64.emax s p ez = S754_finite s m' e'
                 /\ SpecFloat.bounded F64.prec F64.emax m' e' = true
                 /\ Z.abs (Z.pos m' * 2 ^ (e' + 1074)
                           - Z.pos p * 2 ^ (ez + 1074)) <= 2 ^ 1033).
    { intros s p Hlt. apply binary_round_spec; [lia|].
      assert (Hez : ez + 1074 < 1086).
      { apply (Z.pow_lt_mono_r_iff 2); [lia | lia |]. nia. }
      assert (Z.pos (digits2_pos p) <= 12 - ez); [|lia].
      apply digits2_pos_bound; [lia|].
      apply (Z.mul_lt_mono_pos_r (2 ^ (ez + 1074))); [exact Hp|].
      rewrite <- Z.pow_add_r by lia.
      replace (12 - ez + (ez + 1074)) with 1086 by lia. exact Hlt. }
    destruct M as [|p|p]; cbn [binary_normalize].
    + split; [by split|]. simpl. lia.
    + destruct (Hround false p) as (m' & e' & -> & Hb & Hval).
      { change (Z.pos p * 2 ^ (ez + 1074)) with (Z.pos p * 2 ^ (ez + 1074)).
        rewrite Z.abs_eq in Hsum by lia. exact Hsum. }
      split; [by apply number_finite|]. exact Hval.
    + destruct (Hround true p) as (m' & e' & -> & Hb & Hval).
      { change (Z.neg p) with (- Z.pos p) in Hsum.
        rewrite Z.mul_opp_l, Z.abs_opp, Z.abs_eq in Hsum by lia. exact Hsum. }
      split; [by apply number_finite|]. cbn [F64.scaled cond_Zopp].
      change (Z.neg p) with (- Z.pos p). rewrite Z.mul_opp_l.
      replace (- (Z.pos m' * 2 ^ (e' + 1074)) - - (Z.pos p * 2 ^ (ez + 1074)))
        with (- (Z.pos m' * 2 ^ (e' + 1074) - Z.pos p * 2 ^ (ez + 1074)))
        by ring.
      by rewrite Z.abs_opp.
Qed.

(** ** Multiplication by the direction *)

Lemma shr_iter_exact (n : nat) :
  forall m : positive,
    Nat.iter n shr_1 (Build_shr_record (Z.pos m * 2 ^ Z.of_nat n) false false)
    = Build_shr_record (Z.pos m) false false.
Proof.
  induction n as [|n IH]; intros m.
  - simpl. by rewrite Z.mul_1_r.
  - rewrite Nat2Z.inj_succ, Z.pow_succ_r by lia.
    replace (Z.pos m * (2 * 2 ^ Z.of_nat n))
      with (Z.pos m~0 * 2 ^ Z.of_nat n) by (rewrite Pos2Z.inj_xO; ring).
    rewrite Nat.iter_succ, IH. reflexivity.
Qed.

(** A canonical mantissa with [k] more zero bits rounds to itself. *)
Lemma binary_round_aux_shifted (s : bool) (m p : positive) (e k : Z) :
  SpecFloat.bounded F64.prec F64.emax m e = true ->
  0 < k -> Z.pos p = Z.pos m * 2 ^ k ->
  binary_round_aux F64.prec F64.emax s (Z.pos p) (e - k) loc_Exact
  = S754_finite s m e.
Proof.
  intros Hb Hk Hp.
  assert (Hb' := Hb). unfold SpecFloat.bounded, canonical_mantissa in Hb'.
  apply andb_prop in Hb' as [Hc He]. apply Z.eqb_eq in Hc.
  assert (Hshr : shr (shr_record_of_loc (Z.pos p) loc_Exact) (e - k) k
                 = (Build_shr_record (Z.pos m) false false, e)).
  { destruct k as [|k|k]; try lia.
    cbn [shr shr_record_of_loc]. rewrite iter_pos_nat, Hp.
    rewrite <- (positive_nat_Z k) at 1. rewrite shr_iter_exact.
    f_equal. lia. }
  unfold binary_round_aux, shr_fexp.
  change (Zdigits2 (Z.pos p)) with (Z.pos (digits2_pos p)).
  rewrite (digits2_pos_shift m k p) by lia.
  replace (Z.pos (digits2_pos m) + k + (e - k))
    with (Z.pos (digits2_pos m) + e) by lia.
  rewrite Hc. replace (e - (e - k)) with k by lia.
  rewrite Hshr. cbn [shr_m loc_of_shr_record round_nearest_even].
  change (Zdigits2 (Z.pos m)) with (Z.pos (digits2_pos m)).
  rewrite Hc, Z.sub_diag. cbn [shr shr_record_of_loc shr_m].
  by rewrite He.
Qed.

Lemma f64_mul_one (x : float64) :
  F64.valid x = true -> ((#1) * x)%f64 = x.
Proof.
  intros Hv. destruct x as [s | s | | s m e]; try reflexivity.
  cbn [F64.valid valid_binary] in Hv.
  change ((#1)%f64) with (S754_finite false 4503599627370496 (-52)).
  unfold F64.mul, SFmul. cbn [xorb].
  replace (-52 + e) with (e - 52) by lia.
  apply binary_round_aux_shifted; [exact Hv | lia |].
  rewrite Pos2Z.inj_mul. change (2 ^ 52) with 4503599627370496. lia.
Qed.

Lemma f64_mul_minus_one (x : float64) :
  F64.valid x = true -> ((- #1) * x)%f64 = (- x)%f64.
Proof.
  intros Hv. destruct x as [s | s | | s m e]; try reflexivity.
  cbn [F64.valid valid_binary] in Hv.
  change ((- #1)%f64) with (S754_finite true 4503599627370496 (-52)).
  unfold F64.mul, SFmul. cbn [xorb F64.opp SFopp].
  replace (-52 + e) with (e - 52) by lia.
  replace (if s then false else true) with (negb s) by (by destruct s).
  apply binary_round_aux_shifted; [exact Hv | lia |].
  rewrite Pos2Z.inj_mul. change (2 ^ 52) with 4503599627370496. lia.
Qed.

(* ===================================================================== *)
(** * Properties: the arc rasteriser                                      *)
(* ===================================================================== *)

Lemma unit_pos : 0 < F64.unit.
Proof. unfold F64.unit. apply Z.pow_pos_nonneg; lia. Qed.

Lemma rounding_error_small : 2 ^ 1033 <= F64.unit.
Proof. unfold F64.unit. apply Z.pow_le_mono_r; lia. Qed.

Lemma arc_range_small : 1024 * F64.unit <= 2 ^ 1086.
Proof.
  unfold F64.unit. change 1024 with (2 ^ 10). rewrite <- Z.pow_add_r by lia.
  apply Z.pow_le_mono_r; lia.
Qed.

Lemma number_of_Z_10 : number (#10)%f64 /\ F64.scaled (#10)%f64 = 10 * F64.unit.
Proof. split; [split|]; vm_compute; reflexivity. Qed.

Lemma number_of_Z_360 :
  number (#360)%f64 /\ F64.scaled (#360)%f64 = 360 * F64.unit.
Proof. split; [split|]; vm_compute; reflexivity. Qed.

(** The sign of a direction: [1] clockwise, [-1] counter-clockwise. *)
Lemma direction_cases (dir : float64) :
  direction dir ->
  exists sigma : Z,
    (sigma = 1 \/ sigma = - 1)
    /\ (F64.zero <? dir)%f64 = (0 <? sigma)
    /\ (dir * F64.nan)%f64 = F64.nan
    /\ (forall x : float64,
           number x ->
           number (dir * x)%f64
           /\ F64.scaled (dir * x)%f64 = sigma * F64.scaled x).
Proof.
  intros [-> | ->].
  - exists 1. split; [by left|]. split; [reflexivity|]. split; [reflexivity|].
    intros x Hx. rewrite f64_mul_one by apply Hx. split; [exact Hx | lia].
  - exists (- 1). split; [by right|]. split; [reflexivity|].
    split; [reflexivity|].
    intros x Hx. rewrite f64_mul_minus_one by apply Hx.
    split; [by apply number_opp | rewrite scaled_opp; lia].
Qed.

(** The loop ends: each step moves the angle by at least 9 degrees
    towards the final angle. *)
Lemma arcLoop_terminates {ext : External} (centre : Point)
    (radius dir fin : float64) (sigma : Z) :
  (sigma = 1 \/ sigma = - 1) ->
  (forall x : float64,
      number x ->
      number (dir * x)%f64 /\ F64.scaled (dir * x)%f64 = sigma * F64.scaled x) ->
  number fin ->
  sigma * F64.scaled fin <= 1000 * F64.unit ->
  forall (k fuel : nat) (a : float64),
    number a ->
    - (1000 * F64.unit) <= sigma * F64.scaled a ->
    sigma * F64.scaled fin - sigma * F64.scaled a <= 9 * F64.unit * Z.of_nat k ->
    (k < fuel)%nat ->
    exists poly : list Point,
      arcLoop fuel centre radius dir fin a = Some poly
      /\ (length poly <= k)%nat.
Proof.
  intros Hsigma Hdir Hfin Hupper.
  pose proof unit_pos as Hu.
  pose proof rounding_error_small as Herr.
  pose proof arc_range_small as Hsmall.
  destruct number_of_Z_10 as [Hten Hten_val].
  destruct (Hdir _ Hfin) as [Hdfin Hdfin_val].
  destruct (Hdir _ Hten) as [Hstep Hstep_val]. rewrite Hten_val in Hstep_val.
  induction k as [|k IH]; intros fuel a Ha Hlower Hdist Hfuel;
    (destruct fuel as [|fuel]; [lia|]);
    destruct (Hdir _ Ha) as [Hda Hda_val];
    cbn [arcLoop];
    rewrite (f64_ltb_scaled _ _ Hda Hdfin), Hda_val, Hdfin_val;
    destruct (Z.ltb_spec (sigma * F64.scaled a) (sigma * F64.scaled fin))
      as [Hlt | Hge];
    try (exists []; split; [reflexivity | simpl; lia]).
  - lia.
  - destruct (f64_add_spec a (dir * #10)%f64 Ha Hstep) as [Hnext Hnext_val].
    { rewrite Hstep_val. apply Z.lt_le_trans with (1024 * F64.unit); [|lia].
      destruct Hsigma as [-> | ->]; lia. }
    rewrite Hstep_val in Hnext_val.
    destruct (IH fuel (a + dir * #10)%f64 Hnext) as (poly & Hloop & Hlen).
    + destruct Hsigma as [-> | ->]; lia.
    + destruct Hsigma as [-> | ->]; lia.
    + lia.
    + rewrite Hloop. eexists. split; [reflexivity|]. simpl. lia.
Qed.

Lemma f64_ltb_nan_l (x : float64) : (F64.nan <? x)%f64 = false.
Proof. reflexivity. Qed.

Lemma f64_ltb_nan_r (x : float64) : (x <? F64.nan)%f64 = false.
Proof. by destruct x. Qed.

Lemma f64_ltb_irrefl (x : float64) : (x <? x)%f64 = false.
Proof.
  destruct x as [s | s | | s m e]; try reflexivity; try (by destruct s).
  unfold F64.ltb, SFltb, SFcompare.
  rewrite Z.compare_refl, Pos.compare_cont_refl. by destruct s.
Qed.

(** Adding 360 to a bearing. *)
Lemma add_360_range (x : float64) :
  number x ->
  - (360 * F64.unit) <= F64.scaled x <= 360 * F64.unit ->
  number (x + #360)%f64
  /\ - (721 * F64.unit) <= F64.scaled (x + #360)%f64 <= 721 * F64.unit.
Proof.
  intros Hx Hr.
  pose proof unit_pos. pose proof rounding_error_small.
  pose proof arc_range_small.
  destruct number_of_Z_360 as [H360 H360_val].
  destruct (f64_add_spec x (#360)%f64 Hx H360) as [Hn Hv].
  - rewrite H360_val. lia.
  - rewrite H360_val in Hv. split; [exact Hn | lia].
Qed.

(** With bearings that are NaN or angles, and a direction of sweep, the
    loop of [arcToPolygon] ends within [arcFuel] steps, and the function
    returns the points of the loop followed by [to]. *)
Lemma arcToPolygon_total {ext : External} (centre : Point) (radius : float64)
    (initialPoint to : Point) (dir : float64) (fuel : nat) :
  bearing_ok (Bearing centre initialPoint) ->
  bearing_ok (Bearing centre to) ->
  direction dir ->
  (arcFuel <= fuel)%nat ->
  exists poly : list Point,
    arcToPolygon fuel centre radius initialPoint to dir = Some (poly ++ [to])
    /\ (length poly < arcFuel)%nat.
Proof.
  intros Hinit Hfinal Hdir Hfuel.
  destruct (direction_cases dir Hdir) as (sigma & Hsigma & _ & Hnan & Hmul).
  pose proof unit_pos as Hu.
  (* the loop, from any pair of angles *)
  assert (Hloop : forall a0 fin : float64,
    (a0 = F64.nan \/ fin = F64.nan
     \/ (number a0 /\ number fin
         /\ - (721 * F64.unit) <= F64.scaled a0 <= 721 * F64.unit
         /\ - (721 * F64.unit) <= F64.scaled fin <= 721 * F64.unit)) ->
    exists poly : list Point,
      arcLoop fuel centre radius dir fin a0 = Some poly
      /\ (length poly < arcFuel)%nat).
  { intros a0 fin Hcase.
    destruct fuel as [|fuel']; [unfold arcFuel in Hfuel; lia|].
    destruct Hcase as [-> | [-> | (Ha0 & Hfin & Hra & Hrf)]].
    - exists []. cbn [arcLoop]. rewrite Hnan, f64_ltb_nan_l.
      split; [reflexivity | unfold arcFuel; simpl; lia].
    - exists []. cbn [arcLoop]. rewrite Hnan, f64_ltb_nan_r.
      split; [reflexivity | unfold arcFuel; simpl; lia].
    - destruct (arcLoop_terminates centre radius dir fin sigma Hsigma Hmul Hfin
                  ltac:(destruct Hsigma as [-> | ->]; lia)
                  161 (S fuel') a0 Ha0)
        as (poly & Hpoly & Hlen).
      + destruct Hsigma as [-> | ->]; lia.
      + destruct Hsigma as [-> | ->]; lia.
      + unfold arcFuel in Hfuel. lia.
      + exists poly. split; [exact Hpoly | unfold arcFuel; lia]. }
  assert (Hwiden : forall x : float64,
    number x -> - (360 * F64.unit) <= F64.scaled x <= 360 * F64.unit ->
    - (721 * F64.unit) <= F64.scaled x <= 721 * F64.unit) by (intros; lia).
  unfold arcToPolygon.
  set (bi := Bearing centre initialPoint) in *.
  set (bf := Bearing centre to) in *.
  assert (Hpair : forall a0 fin : float64,
    (exists poly : list Point,
        arcLoop fuel centre radius dir fin a0 = Some poly
        /\ (length poly < arcFuel)%nat) ->
    exists poly : list Point,
      match arcLoop fuel centre radius dir fin a0 with
      | Some poly => Some (poly ++ [to])
      | None => None
      end = Some (poly ++ [to]) /\ (length poly < arcFuel)%nat).
  { intros a0 fin (poly & -> & Hlen). by exists poly. }
  destruct Hinit as [Hi | (Hvi & Hfi & Hri)], Hfinal as [Hf | (Hvf & Hff & Hrf)].
  - rewrite Hi, Hf. rewrite f64_ltb_nan_l.
    destruct (F64.zero <? dir)%f64; apply Hpair, Hloop; by left.
  - rewrite Hi. rewrite f64_ltb_nan_l, f64_ltb_nan_r.
    destruct (F64.zero <? dir)%f64; apply Hpair, Hloop; by left.
  - rewrite Hf. rewrite f64_ltb_nan_l, f64_ltb_nan_r.
    destruct (F64.zero <? dir)%f64; apply Hpair, Hloop; right; by left.
  - assert (Hbi : number bi) by (by split).
    assert (Hbf : number bf) by (by split).
    destruct (add_360_range bi Hbi Hri) as [Hbi' Hri'].
    destruct (add_360_range bf Hbf Hrf) as [Hbf' Hrf'].
    destruct (F64.zero <? dir)%f64.
    + destruct (bf <? bi)%f64; apply Hpair, Hloop; right; right;
        repeat split; try assumption; try apply Hbi; try apply Hbf;
        try apply Hbi'; try apply Hbf'; lia.
    + destruct (bi <? bf)%f64; apply Hpair, Hloop; right; right;
        repeat split; try assumption; try apply Hbi; try apply Hbf;
        try apply Hbi'; try apply Hbf'; lia.
Qed.

Lemma sample_bearing_ok (doc : airspaceResponse) :
  BearingContract (sample_external doc).
Proof.
  intros from to. simpl. unfold sample_Bearing.
  destruct (Lon from <? Lon to)%f64;
    [|destruct (Lon to <? Lon from)%f64; [|destruct (Lat to <? Lat from)%f64]];
    right; (split; [reflexivity|]); (split; [reflexivity|]);
    split; vm_compute; discriminate.
Qed.

(** C4. After the normalisation of the sweep (clockwise: 360 is added to
    the final bearing when it is less than the initial one;
    counter-clockwise: 360 is added to the initial bearing when it is less
    than the final one), the loop that steps the bearing by 10 degrees
    ends, after fewer than [arcFuel] steps, and [arcToPolygon] returns. *)
Theorem arcToPolygon_loop_terminates {ext : External} :
  BearingContract ext ->
  forall (centre : Point) (radius : float64) (initialPoint to : Point)
         (fuel : nat),
    (arcFuel <= fuel)%nat ->
    let initial := Bearing centre initialPoint in
    let final := Bearing centre to in
    (exists poly : list Point,
        arcLoop fuel centre radius (#1)%f64
          (if (final <? initial)%f64 then (final + #360)%f64 else final)
          initial
        = Some poly
        /\ (length poly < arcFuel)%nat
        /\ arcToPolygon fuel centre radius initialPoint to (#1)%f64
           = Some (poly ++ [to]))
    /\ (exists poly : list Point,
           arcLoop fuel centre radius (- #1)%f64 final
             (if (initial <? final)%f64 then (initial + #360)%f64 else initial)
           = Some poly
           /\ (length poly < arcFuel)%nat
           /\ arcToPolygon fuel centre radius initialPoint to (- #1)%f64
              = Some (poly ++ [to])).
Proof.
  intros Hbearing centre radius initialPoint to fuel Hfuel initial final.
  split.
  - destruct (arcToPolygon_total centre radius initialPoint to (#1)%f64 fuel
                (Hbearing _ _) (Hbearing _ _) ltac:(by left) Hfuel)
      as (poly & Hpoly & Hlen).
    rewrite Hpoly. unfold arcToPolygon in Hpoly. fold initial final in Hpoly.
    change (F64.zero <? #1)%f64 with true in Hpoly. cbv iota in Hpoly.
    destruct (final <? initial)%f64;
      destruct (arcLoop _ _ _ _ _ _) as [poly'|]; try discriminate Hpoly;
      injection Hpoly as Hpoly; apply app_inj_tail in Hpoly as [-> _];
      by exists poly.
  - destruct (arcToPolygon_total centre radius initialPoint to (- #1)%f64 fuel
                (Hbearing _ _) (Hbearing _ _) ltac:(by right) Hfuel)
      as (poly & Hpoly & Hlen).
    rewrite Hpoly. unfold arcToPolygon in Hpoly. fold initial final in Hpoly.
    change (F64.zero <? - #1)%f64 with false in Hpoly. cbv iota in Hpoly.
    destruct (initial <? final)%f64;
      destruct (arcLoop _ _ _ _ _ _) as [poly'|]; try discriminate Hpoly;
      injection Hpoly as Hpoly; apply app_inj_tail in Hpoly as [-> _];
      by exists poly.
Qed.

(** A clockwise quarter turn, from north of the centre to east of it. *)
Lemma arcToPolygon_loop_terminates_witness :
  exists poly : list Point,
    arcToPolygon (ext := sample_external (mkResponse [])) arcFuel
      (pt 0 0) (#18520)%f64 (pt 0 1) (pt 1 0) (#1)%f64
    = Some (poly ++ [pt 1 0])
    /\ (length poly < arcFuel)%nat.
Proof.
  destruct (arcToPolygon_loop_terminates
              (ext := sample_external (mkResponse []))
              (sample_bearing_ok _) (pt 0 0) (#18520)%f64 (pt 0 1) (pt 1 0)
              arcFuel (le_n _)) as [(poly & _ & Hlen & Hpoly) _].
  exists poly. split; [exact Hpoly | exact Hlen].
Defined.

(** C3. With a direction of sweep, the rasteriser returns a sequence that
    is not empty and ends with the point [to]; when the initial and final
    bearings coincide it returns [to] alone. *)
Theorem arcToPolygon_ends_with_to {ext : External} :
  BearingContract ext ->
  forall (centre : Point) (radius : float64) (initialPoint to : Point)
         (dir : float64) (fuel : nat),
    direction dir ->
    (arcFuel <= fuel)%nat ->
    exists poly : list Point,
      arcToPolygon fuel centre radius initialPoint to dir = Some poly
      /\ poly <> []
      /\ last poly = Some to
      /\ (Bearing centre initialPoint = Bearing centre to -> poly = [to]).
Proof.
  intros Hbearing centre radius initialPoint to dir fuel Hdir Hfuel.
  destruct (arcToPolygon_total centre radius initialPoint to dir fuel
              (Hbearing _ _) (Hbearing _ _) Hdir Hfuel)
    as (poly & Hpoly & _).
  exists (poly ++ [to]). split; [exact Hpoly|].
  split; [by destruct poly|]. split; [apply last_snoc|].
  intros Hsame. unfold arcToPolygon in Hpoly. rewrite Hsame in Hpoly.
  rewrite f64_ltb_irrefl in Hpoly.
  destruct fuel as [|fuel']; [unfold arcFuel in Hfuel; lia|].
  assert (Hloop : arcLoop (S fuel') centre radius dir (Bearing centre to)
                    (Bearing centre to) = Some []).
  { cbn [arcLoop]. by rewrite f64_ltb_irrefl. }
  destruct (F64.zero <? dir)%f64; rewrite Hloop in Hpoly;
    injection Hpoly as Hpoly; by rewrite <- Hpoly.
Qed.

(** A counter-clockwise arc from east of the centre to north of it. *)
Lemma arcToPolygon_ends_with_to_witness :
  exists poly : list Point,
    arcToPolygon (ext := sample_external (mkResponse [])) arcFuel
      (pt 0 0) (#18520)%f64 (pt 1 0) (pt 0 1) (- #1)%f64
    = Some poly
    /\ last poly = Some (pt 0 1).
Proof.
  destruct (arcToPolygon_ends_with_to
              (ext := sample_external (mkResponse []))
              (sample_bearing_ok _) (pt 0 0) (#18520)%f64 (pt 1 0) (pt 0 1)
              (- #1)%f64 arcFuel (or_intror eq_refl) (le_n _))
    as (poly & Hpoly & _ & Hlast & _).
  exists poly. split; [exact Hpoly | exact Hlast].
Defined.

(* ===================================================================== *)
(** * Properties: the normaliser                                          *)
(* ===================================================================== *)

(** One step of evaluation of the normaliser on a literal document; the
    decoders and the rasteriser are left as they are. *)
Ltac normaliser_step :=
  cbn -[parseLatLng decodeHeight decodeDistance arcToPolygon resolveFeatureID
        ClearanceRequired Danger].

(** C1 fails for the centre of an arc.  A document whose only defect is
    an arc centre that is not a position is decoded without error: the
    rasteriser runs with the centre [orb.Point{}] and the feature is
    returned.  The same document with the defect in the arc's end point is
    rejected, with no feature. *)
Theorem Decode_ignores_malformed_arc_centre {ext : External} :
  BearingContract ext ->
  forall (data : list Byte.byte) (fuel : nat),
    (arcFuel <= fuel)%nat ->
    (parseLatLng "garbage").2 = Some (FormatError "garbage")
    /\ (Unmarshal data = inr (doc_with_arc "garbage" "572153N 0015835W") ->
        exists (w : list Warning) (feature : Feature.t),
          Decode fuel data = Some (w, ([feature], None))
          /\ length (Feature.Geometry feature) = 1%nat)
    /\ (Unmarshal data = inr (doc_with_arc "571834N 0021602W" "garbage") ->
        exists (w : list Warning) (err : error),
          Decode fuel data = Some (w, ([], Some err))).
Proof.
  intros Hbearing data fuel Hfuel.
  assert (Hbad : parseLatLng "garbage" = (Point0, Some (FormatError "garbage")))
    by (vm_compute; reflexivity).
  assert (Hp1 : exists p, parseLatLng "572153N 0015835W" = (p, None))
    by (eexists; vm_compute; reflexivity).
  assert (Hp2 : exists p, parseLatLng "572100N 0015802W" = (p, None))
    by (eexists; vm_compute; reflexivity).
  destruct Hp1 as [p1 Hp1], Hp2 as [p2 Hp2].
  split; [by rewrite Hbad|].
  split; intros Hdata; unfold Decode; rewrite Hdata;
    unfold normalise, doc_with_arc, arc_with, normaliseFeature,
      processGeometry, processBoundary, processLine, no_circle, no_arc;
    normaliser_step; rewrite Hp1; normaliser_step; rewrite Hp2;
    normaliser_step.
  - rewrite Hbad. normaliser_step.
    match goal with
    | |- context [arcToPolygon ?f ?c ?r ?i ?t ?d] =>
        destruct (arcToPolygon_total c r i t d f (Hbearing _ _)
                    (Hbearing _ _) ltac:(by left) Hfuel)
          as (poly & Hpoly & _);
        rewrite Hpoly
    end.
    normaliser_step. eexists _, _. split; reflexivity.
  - rewrite Hbad. normaliser_step. eexists _, _. reflexivity.
Qed.

Lemma Decode_ignores_malformed_arc_centre_witness :
  exists (w : list Warning) (feature : Feature.t),
    Decode (ext := sample_external (doc_with_arc "garbage" "572153N 0015835W"))
      arcFuel []
    = Some (w, ([feature], None)).
Proof.
  destruct (Decode_ignores_malformed_arc_centre
              (ext := sample_external
                        (doc_with_arc "garbage" "572153N 0015835W"))
              (sample_bearing_ok _) [] arcFuel (le_n _))
    as (_ & Hok & _).
  destruct (Hok eq_refl) as (w & feature & Hdecode & _).
  by exists w, feature.
Defined.

(** ** The positions that the normaliser checks *)

Lemma positions_dec (l : list string) :
  Forall position_ok l \/ Exists (fun s => ~ position_ok s) l.
Proof.
  induction l as [|s l [IH | IH]].
  - left. constructor.
  - unfold position_ok at 1. destruct (parseLatLng s).2 eqn:Hs.
    + right. left. unfold position_ok. by rewrite Hs.
    + left. by constructor.
  - right. by right.
Qed.

Lemma checks_ret {A : Type} (a : A) : checks [] (ret a).
Proof. split; [by eexists _, _ | intros H; inversion H]. Qed.

Lemma checks_logged {A : Type} (r : A * list Warning) : checks [] (logged r).
Proof. split; [by eexists _, _ | intros H; inversion H]. Qed.

Lemma checks_within_fuel {A : Type} (r : option A) (a : A) :
  r = Some a -> checks [] (within_fuel r).
Proof. intros ->. split; [by eexists _, _ | intros H; inversion H]. Qed.

Lemma checks_bind {A B : Type} (l1 l2 : list string) (m : M A) (k : A -> M B) :
  checks l1 m -> (forall a, checks l2 (k a)) -> checks (l1 ++ l2) (bind m k).
Proof.
  intros [Hm1 Hm2] Hk. unfold checks. rewrite Forall_app, Exists_app. split.
  - intros [H1 H2]. destruct (Hm1 H1) as (w & a & ->).
    destruct (proj1 (Hk a) H2) as (w' & b & Hb).
    cbn [bind]. rewrite Hb. by eexists _, _.
  - intros Hex. destruct (positions_dec l1) as [H1 | H1].
    + destruct Hex as [Hex | Hex];
        [exfalso; apply Exists_exists in Hex as (p & Hp & Hnot);
         rewrite Forall_forall in H1; by apply Hnot, H1|].
      destruct (Hm1 H1) as (w & a & ->).
      destruct (proj2 (Hk a) Hex) as (w' & e & Hb).
      cbn [bind]. rewrite Hb. by eexists _, _.
    + destruct (Hm2 H1) as (w & e & ->). by eexists _, _.
Qed.

(** Parsing a position and failing on its error, then going on. *)
Lemma checks_parse {A : Type} (s : string) (l : list string)
    (wrap : error -> error) (k : Point -> M A) :
  (forall p, checks l (k p)) ->
  checks (s :: l)
    (let '(p, err) := parseLatLng s in
     match err with
     | Some err => fail (wrap err)
     | None => k p
     end).
Proof.
  intros Hk. unfold checks. rewrite Forall_cons, Exists_cons.
  unfold position_ok at 1 3. destruct (parseLatLng s) as [p [err|]]; simpl.
  - split; [intros [H _]; discriminate H | by eexists _, _].
  - split; [intros [_ H]; by apply Hk|].
    intros [H | H]; [by destruct H | by apply Hk].
Qed.

Lemma checks_forEach {A St : Type} (pos : A -> list string)
    (body : A -> St -> M St) (l : list A) :
  (forall x s, checks (pos x) (body x s)) ->
  forall s : St, checks (flat_map pos l) (forEach l body s).
Proof.
  intros Hbody. induction l as [|x l IH]; intros s; cbn [forEach flat_map].
  - apply checks_ret.
  - apply checks_bind; [apply Hbody | exact IH].
Qed.

Lemma checks_forEachIndexed {A St : Type} (pos : A -> list string)
    (body : nat -> A -> St -> M St) (l : list A) :
  (forall i x s, checks (pos x) (body i x s)) ->
  forall (i : nat) (s : St),
    checks (flat_map pos l) (forEachIndexed i l body s).
Proof.
  intros Hbody.
  induction l as [|x l IH]; intros i s; cbn [forEachIndexed flat_map].
  - apply checks_ret.
  - apply checks_bind; [apply Hbody | apply IH].
Qed.

Lemma flat_map_singleton {A : Type} (l : list A) :
  flat_map (fun x => [x]) l = l.
Proof. induction l as [|x l IH]; simpl; by rewrite ?IH. Qed.

Section NormaliserChecks.
Context {ext : External}.
Hypothesis Hbearing : BearingContract ext.
Variable fuel : nat.
Hypothesis Hfuel : (arcFuel <= fuel)%nat.

Lemma processLine_checks (b : Boundary.t) (s : string) (st : Volume.t * Point) :
  checks [s] (processLine b s st).
Proof.
  unfold processLine. destruct st as [vol currentPos].
  apply (checks_parse s [] (BadLine b)). intros p. apply checks_ret.
Qed.

Lemma processBoundary_checks (b : Boundary.t) (st : Volume.t * Point) :
  checks (checked_positions b) (processBoundary fuel b st).
Proof.
  unfold processBoundary, checked_positions. destruct st as [vol currentPos].
  apply checks_bind; [|intros vol'; apply checks_bind].
  - destruct (String.eqb (RawCircle.Radius (Boundary.Circle b)) "");
      cbn [negb]; [apply checks_ret|].
    apply (checks_bind [] [_]); [apply checks_logged|]. intros radius.
    apply (checks_parse _ [] (BadCircle b)). intros p. apply checks_ret.
  - rewrite <- (flat_map_singleton (Boundary.Line b)) at 1.
    apply checks_forEach. intros s st. apply processLine_checks.
  - intros [vol'' currentPos'].
    destruct (String.eqb (RawArc.Radius (Boundary.Arc b)) "");
      cbn [negb]; [apply checks_ret|].
    apply (checks_parse _ [] (BadArc b)). intros to.
    apply (checks_bind [] []); [apply checks_logged|]. intros radius.
    destruct (parseLatLng (RawArc.Centre (Boundary.Arc b))) as [centre _].
    apply (checks_bind [] []); [|intros arc; apply checks_ret].
    set (dir := if String.eqb (RawArc.Dir (Boundary.Arc b)) "ccw"
                then (- #1)%f64 else (#1)%f64).
    assert (Hdir : direction dir).
    { unfold dir. destruct (String.eqb _ "ccw"); [by right | by left]. }
    destruct (arcToPolygon_total centre radius currentPos' to dir fuel
                (Hbearing _ _) (Hbearing _ _) Hdir Hfuel) as (poly & Hpoly & _).
    by apply (checks_within_fuel _ (poly ++ [to])).
Qed.

Lemma processGeometry_checks (g : RawGeometry.t) (feat : Feature.t) :
  checks (geometry_positions g) (processGeometry fuel g feat).
Proof.
  unfold processGeometry.
  apply (checks_bind [] (geometry_positions g)); [apply checks_logged|].
  intros lower.
  apply (checks_bind [] (geometry_positions g)); [apply checks_logged|].
  intros upper.
  rewrite <- (app_nil_r (geometry_positions g)). unfold geometry_positions.
  apply checks_bind.
  - apply checks_forEach. intros b st. apply processBoundary_checks.
  - intros [vol currentPos]. apply checks_ret.
Qed.

Lemma normaliseFeature_checks (i : nat) (f : RawAirspace.t)
    (features : list Feature.t) :
  checks (feature_positions f) (normaliseFeature fuel i f features).
Proof.
  unfold normaliseFeature, feature_positions.
  rewrite <- (app_nil_r (flat_map _ _)).
  apply checks_bind; [|intros feat; apply checks_ret].
  apply checks_forEach. intros g feat.
  rewrite <- (app_nil_r (geometry_positions g)).
  apply checks_bind; [apply processGeometry_checks|].
  intros vol. apply checks_ret.
Qed.

(** [normalise] returns the features, and no error, when every position
    it checks is well formed; it returns an error, and no feature, when
    one of them is not. *)
Lemma normalise_checks (a : airspaceResponse) :
  (Forall position_ok (document_positions a) ->
   exists w features, normalise fuel a = Some (w, (features, None)))
  /\ (Exists (fun s => ~ position_ok s) (document_positions a) ->
      exists w err, normalise fuel a = Some (w, ([], Some err))).
Proof.
  unfold normalise, document_positions.
  destruct (checks_forEachIndexed feature_positions (normaliseFeature fuel)
              (Airspace a) normaliseFeature_checks 0%nat []) as [Hok Herr].
  split; intros H.
  - destruct (Hok H) as (w & features & ->). by eexists _, _.
  - destruct (Herr H) as (w & err & ->). by eexists _, _.
Qed.

End NormaliserChecks.

(* ===================================================================== *)
(** * Properties: the error that the normaliser returns                   *)
(* ===================================================================== *)

Lemma parseLatLng_error (s : string) (p : Point) (e : error) :
  parseLatLng s = (p, Some e) -> e = FormatError s.
Proof.
  unfold parseLatLng.
  destruct (negb _ || negb _); [congruence|].
  destruct (ParseUint (slice s 0 2)) as [v1 e1];
    destruct (ParseUint (slice s 2 4)) as [v2 e2];
    destruct (ParseUint (slice s 4 6)) as [v3 e3].
  destruct (failed e1 || failed e2 || failed e3); [congruence|].
  destruct (ParseUint (slice s 8 11)) as [v4 e4];
    destruct (ParseUint (slice s 11 13)) as [v5 e5];
    destruct (ParseUint (slice s 13 15)) as [v6 e6].
  repeat case_bool_decide; simpl;
    destruct (failed e4 || failed e5 || failed e6); congruence.
Qed.

Lemma position_ok_bad (s : string) : position_ok s <-> bad_position s = false.
Proof.
  unfold position_ok, bad_position.
  destruct (parseLatLng s).2; simpl; split; congruence.
Qed.

Lemma find_bad_app_ok (l1 l2 : list string) :
  Forall position_ok l1 ->
  List.find bad_position (l1 ++ l2) = List.find bad_position l2.
Proof.
  induction 1 as [|s l1 Hs _ IH]; [reflexivity|].
  apply position_ok_bad in Hs. simpl. by rewrite Hs.
Qed.

Lemma find_bad_app_bad (l1 l2 : list string) :
  Exists (fun s => ~ position_ok s) l1 ->
  List.find bad_position (l1 ++ l2) = List.find bad_position l1.
Proof.
  induction l1 as [|s l1 IH]; intros Hex; [inversion Hex|].
  simpl. destruct (bad_position s) eqn:Hs; [reflexivity|].
  apply IH. apply Exists_cons in Hex as [Hex | Hex]; [|exact Hex].
  by apply position_ok_bad in Hs.
Qed.

Lemma sound_ret {A : Type} (a : A) : sound [] (ret a).
Proof. split; [apply checks_ret | intros w e H; discriminate H]. Qed.

Lemma sound_logged {A : Type} (r : A * list Warning) : sound [] (logged r).
Proof. split; [apply checks_logged | intros w e H; discriminate H]. Qed.

Lemma sound_within_fuel {A : Type} (r : option A) (a : A) :
  r = Some a -> sound [] (within_fuel r).
Proof.
  intros Hr. split; [by apply (checks_within_fuel _ a)|].
  subst r. intros w e H. discriminate H.
Qed.

Lemma sound_bind {A B : Type} (l1 l2 : list string) (m : M A) (k : A -> M B) :
  sound l1 m -> (forall a, sound l2 (k a)) -> sound (l1 ++ l2) (bind m k).
Proof.
  intros [Hm Hrep] Hk.
  split; [apply checks_bind; [exact Hm | intros a; apply Hk]|].
  intros w e Hbind. destruct m as [[w1 [a | e1]]|]; cbn [bind] in Hbind.
  - destruct (k a) as [[w2 r]|] eqn:Hka; [|discriminate Hbind].
    injection Hbind as _ ->.
    destruct (positions_dec l1) as [Hok | Hbad].
    + rewrite find_bad_app_ok by exact Hok.
      by apply (proj2 (Hk a) w2).
    + destruct (proj2 Hm Hbad) as (w' & e' & Habs). discriminate Habs.
  - injection Hbind as _ ->.
    destruct (positions_dec l1) as [Hok | Hbad].
    + destruct (proj1 Hm Hok) as (w' & a & Habs). discriminate Habs.
    + rewrite find_bad_app_bad by exact Hbad. by apply (Hrep w1).
  - discriminate Hbind.
Qed.

(** Parsing a position and failing on its error, then going on. *)
Lemma sound_parse {A : Type} (s : string) (l : list string)
    (wrap : error -> error) (k : Point -> M A) :
  (forall e, error_position (wrap e) = error_position e) ->
  (forall p, sound l (k p)) ->
  sound (s :: l)
    (let '(p, err) := parseLatLng s in
     match err with
     | Some err => fail (wrap err)
     | None => k p
     end).
Proof.
  intros Hwrap Hk.
  split; [apply checks_parse; intros p; apply Hk|].
  intros w e. cbn [List.find]. unfold bad_position.
  destruct (parseLatLng s) as [p [err|]] eqn:Hs; simpl.
  - intros H. injection H as _ <-. rewrite Hwrap.
    by rewrite (parseLatLng_error _ _ _ Hs).
  - apply Hk.
Qed.

Lemma sound_forEach {A St : Type} (pos : A -> list string)
    (body : A -> St -> M St) (l : list A) :
  (forall x s, sound (pos x) (body x s)) ->
  forall s : St, sound (flat_map pos l) (forEach l body s).
Proof.
  intros Hbody. induction l as [|x l IH]; intros s; cbn [forEach flat_map].
  - apply sound_ret.
  - apply sound_bind; [apply Hbody | exact IH].
Qed.

Lemma sound_forEachIndexed {A St : Type} (pos : A -> list string)
    (body : nat -> A -> St -> M St) (l : list A) :
  (forall i x s, sound (pos x) (body i x s)) ->
  forall (i : nat) (s : St),
    sound (flat_map pos l) (forEachIndexed i l body s).
Proof.
  intros Hbody.
  induction l as [|x l IH]; intros i s; cbn [forEachIndexed flat_map].
  - apply sound_ret.
  - apply sound_bind; [apply Hbody | apply IH].
Qed.

Section NormaliserReports.
Context {ext : External}.
Hypothesis Hbearing : BearingContract ext.
Variable fuel : nat.
Hypothesis Hfuel : (arcFuel <= fuel)%nat.

Lemma processLine_sound (b : Boundary.t) (s : string) (st : Volume.t * Point) :
  sound [s] (processLine b s st).
Proof.
  unfold processLine. destruct st as [vol currentPos].
  apply (sound_parse s [] (BadLine b)); [reflexivity|].
  intros p. apply sound_ret.
Qed.

Lemma processBoundary_sound (b : Boundary.t) (st : Volume.t * Point) :
  sound (checked_positions b) (processBoundary fuel b st).
Proof.
  unfold processBoundary, checked_positions. destruct st as [vol currentPos].
  apply sound_bind; [|intros vol'; apply sound_bind].
  - destruct (String.eqb (RawCircle.Radius (Boundary.Circle b)) "");
      cbn [negb]; [apply sound_ret|].
    apply (sound_bind [] [_]); [apply sound_logged|]. intros radius.
    apply (sound_parse _ [] (BadCircle b)); [reflexivity|].
    intros p. apply sound_ret.
  - rewrite <- (flat_map_singleton (Boundary.Line b)) at 1.
    apply sound_forEach. intros s st. apply processLine_sound.
  - intros [vol'' currentPos'].
    destruct (String.eqb (RawArc.Radius (Boundary.Arc b)) "");
      cbn [negb]; [apply sound_ret|].
    apply (sound_parse _ [] (BadArc b)); [reflexivity|]. intros to.
    apply (sound_bind [] []); [apply sound_logged|]. intros radius.
    destruct (parseLatLng (RawArc.Centre (Boundary.Arc b))) as [centre _].
    apply (sound_bind [] []); [|intros arc; apply sound_ret].
    set (dir := if String.eqb (RawArc.Dir (Boundary.Arc b)) "ccw"
                then (- #1)%f64 else (#1)%f64).
    assert (Hdir : direction dir).
    { unfold dir. destruct (String.eqb _ "ccw"); [by right | by left]. }
    destruct (arcToPolygon_total centre radius currentPos' to dir fuel
                (Hbearing _ _) (Hbearing _ _) Hdir Hfuel) as (poly & Hpoly & _).
    by apply (sound_within_fuel _ (poly ++ [to])).
Qed.

Lemma processGeometry_sound (g : RawGeometry.t) (feat : Feature.t) :
  sound (geometry_positions g) (processGeometry fuel g feat).
Proof.
  unfold processGeometry.
  apply (sound_bind [] (geometry_positions g)); [apply sound_logged|].
  intros lower.
  apply (sound_bind [] (geometry_positions g)); [apply sound_logged|].
  intros upper.
  rewrite <- (app_nil_r (geometry_positions g)). unfold geometry_positions.
  apply sound_bind.
  - apply sound_forEach. intros b st. apply processBoundary_sound.
  - intros [vol currentPos]. apply sound_ret.
Qed.

Lemma normaliseFeature_sound (i : nat) (f : RawAirspace.t)
    (features : list Feature.t) :
  sound (feature_positions f) (normaliseFeature fuel i f features).
Proof.
  unfold normaliseFeature, feature_positions.
  rewrite <- (app_nil_r (flat_map _ _)).
  apply sound_bind; [|intros feat; apply sound_ret].
  apply sound_forEach. intros g feat.
  rewrite <- (app_nil_r (geometry_positions g)).
  apply sound_bind; [apply processGeometry_sound|].
  intros vol. apply sound_ret.
Qed.

End NormaliserReports.

(** X1. [Decode] fails when the YAML document cannot be unmarshalled.
    Otherwise it fails exactly when one of the positions that the
    normaliser checks (centres of circles, points of lines, end points of
    arcs) is malformed; it then returns no feature, and its error is about
    the first malformed position in the order of the document. *)
Theorem Decode_reports_first_malformed_position {ext : External} :
  BearingContract ext ->
  forall (data : list Byte.byte) (fuel : nat),
    (arcFuel <= fuel)%nat ->
    match Unmarshal data with
    | inl err => Decode fuel data = Some ([], ([], Some (UnmarshalFailed err)))
    | inr a =>
        match List.find bad_position (document_positions a) with
        | None =>
            exists (w : list Warning) (features : list Feature.t),
              Decode fuel data = Some (w, (features, None))
        | Some s =>
            exists (w : list Warning) (err : error),
              Decode fuel data = Some (w, ([], Some err))
              /\ error_position err = Some s
        end
    end.
Proof.
  intros Hbearing data fuel Hfuel. unfold Decode.
  destruct (Unmarshal data) as [err | a]; [reflexivity|].
  unfold normalise, document_positions.
  destruct (sound_forEachIndexed feature_positions (normaliseFeature fuel)
              (Airspace a) (normaliseFeature_sound Hbearing fuel Hfuel)
              0%nat []) as [[Hok Herr] Hrep].
  destruct (positions_dec (flat_map feature_positions (Airspace a)))
    as [Hall | Hbad].
  - rewrite <- (app_nil_r (flat_map _ _)), (find_bad_app_ok _ [] Hall).
    destruct (Hok Hall) as (w & features & ->). by eexists _, _.
  - destruct (Herr Hbad) as (w & err & Hrun).
    pose proof (Hrep w err Hrun) as Hpos. rewrite Hrun.
    destruct (List.find _ _) as [s|] eqn:Hfind.
    + by eexists _, _.
    + exfalso. apply Exists_exists in Hbad as (s & Hin & Hs).
      apply Hs, position_ok_bad.
      apply (find_none _ _ Hfind s). by apply list_elem_of_In.
Qed.

(** A document whose arc has a malformed centre and a malformed end
    point: the error is about the end point; the centre of an arc is not
    among the positions that the normaliser checks. *)
Lemma Decode_reports_first_malformed_position_witness :
  exists (w : list Warning) (err : error),
    Decode (ext := sample_external (doc_with_arc "garbage" "rubbish"))
      arcFuel []
    = Some (w, ([], Some err))
    /\ error_position err = Some "rubbish".
Proof.
  pose proof (Decode_reports_first_malformed_position
                (ext := sample_external (doc_with_arc "garbage" "rubbish"))
                (sample_bearing_ok _) [] arcFuel (le_n _)) as H.
  cbn [Unmarshal sample_external] in H.
  assert (Hfind : List.find bad_position
                    (document_positions (doc_with_arc "garbage" "rubbish"))
                  = Some "rubbish") by (vm_compute; reflexivity).
  rewrite Hfind in H. exact H.
Defined.

(* ===================================================================== *)
(** * Properties: the features and volumes that the normaliser builds     *)
(* ===================================================================== *)

(** ** Computations that return a value *)

Lemma bind_ok {A B : Type} (m : M A) (k : A -> M B) (w : list Warning) (b : B) :
  bind m k = Some (w, Ok b) ->
  exists w1 a w2,
    m = Some (w1, Ok a) /\ k a = Some (w2, Ok b) /\ w = w1 ++ w2.
Proof.
  unfold bind. destruct m as [[w1 [a | e]]|]; try discriminate.
  destruct (k a) as [[w2 r]|] eqn:Hk; try discriminate.
  intros H. injection H as <- ->. by eexists _, _, _.
Qed.

Lemma forEach_ok {A St : Type} (body : A -> St -> M St)
    (P : list A -> St -> St -> Prop) :
  (forall s, P [] s s) ->
  (forall x l s s1 s2 w,
      body x s = Some (w, Ok s1) -> P l s1 s2 -> P (x :: l) s s2) ->
  forall l s w s', forEach l body s = Some (w, Ok s') -> P l s s'.
Proof.
  intros Hnil Hcons. induction l as [|x l IH]; intros s w s' H.
  - injection H as _ <-. apply Hnil.
  - cbn [forEach] in H. apply bind_ok in H as (w1 & s1 & w2 & H1 & H2 & _).
    eapply Hcons; [exact H1 | by eapply IH].
Qed.

Lemma forEachIndexed_ok {A St : Type} (body : nat -> A -> St -> M St)
    (P : nat -> list A -> St -> St -> Prop) :
  (forall i s, P i [] s s) ->
  (forall i x l s s1 s2 w,
      body i x s = Some (w, Ok s1) -> P (S i) l s1 s2 -> P i (x :: l) s s2) ->
  forall l i s w s', forEachIndexed i l body s = Some (w, Ok s') -> P i l s s'.
Proof.
  intros Hnil Hcons. induction l as [|x l IH]; intros i s w s' H.
  - injection H as _ <-. apply Hnil.
  - cbn [forEachIndexed] in H.
    apply bind_ok in H as (w1 & s1 & w2 & H1 & H2 & _).
    eapply Hcons; [exact H1 | by eapply IH].
Qed.

(** ** One boundary *)

Lemma reshaped_id (v : Volume.t) :
  reshaped v (Volume.Circle v) (Volume.Polygon v) = v.
Proof. by destruct v. Qed.

Lemma processLines_ok (b : Boundary.t) (l : list string) :
  forall (st : Volume.t * Point) (w : list Warning) (st' : Volume.t * Point),
    forEach l (processLine b) st = Some (w, Ok st') ->
    let points := map (fun s => (parseLatLng s).1) l in
    st'.2 = default st.2 (last points)
    /\ st'.1 = reshaped st.1 (Volume.Circle st.1)
                 (Volume.Polygon st.1 ++ points).
Proof.
  intros st w st'.
  apply (forEach_ok (processLine b)
           (fun l st st' =>
              let points := map (fun s => (parseLatLng s).1) l in
              st'.2 = default st.2 (last points)
              /\ st'.1 = reshaped st.1 (Volume.Circle st.1)
                           (Volume.Polygon st.1 ++ points))).
  - intros [vol cur]. simpl. by rewrite app_nil_r, reshaped_id.
  - intros s l' [vol cur] [vol1 cur1] [vol2 cur2] w' Hbody [Hcur Hvol].
    unfold processLine in Hbody.
    destruct (parseLatLng s) as [p [err|]] eqn:Hs; [discriminate Hbody|].
    injection Hbody as _ <- <-. simpl in Hcur, Hvol |- *.
    split.
    + rewrite Hcur, Hs, last_cons. by destruct (last _).
    + rewrite Hvol, Hs. unfold reshaped, Volume.append_Polygon. simpl.
      by rewrite <- app_assoc.
Qed.

Lemma processBoundary_ok {ext : External} (fuel : nat) (b : Boundary.t)
    (vol : Volume.t) (cur : Point) (w : list Warning)
    (vol' : Volume.t) (cur' : Point) :
  processBoundary fuel b (vol, cur) = Some (w, Ok (vol', cur')) ->
  let start := default cur (last (line_points b)) in
  cur' = start
  /\ exists arc : list Point,
       arc_of fuel start b = Some arc
       /\ vol' = reshaped vol
                   (if has_circle b then circle_of b else Volume.Circle vol)
                   (Volume.Polygon vol ++ line_points b ++ arc).
Proof.
  intros H start. unfold processBoundary in H.
  apply bind_ok in H as (w1 & v1 & w2 & Hcircle & H & _).
  apply bind_ok in H as (w3 & [v2 c2] & w4 & Hlines & Harc & _).
  assert (Hv1 : v1 = reshaped vol
                       (if has_circle b then circle_of b else Volume.Circle vol)
                       (Volume.Polygon vol)).
  { unfold has_circle, circle_of.
    destruct (negb (String.eqb (RawCircle.Radius (Boundary.Circle b)) "")).
    - unfold logged, bind in Hcircle.
      destruct (parseLatLng (RawCircle.Centre (Boundary.Circle b)))
        as [centre [err|]]; [discriminate Hcircle|].
      by injection Hcircle as _ <-.
    - injection Hcircle as _ <-. by rewrite reshaped_id. }
  apply processLines_ok in Hlines as [Hc2 Hv2]. simpl in Hc2, Hv2.
  fold (line_points b) in Hc2, Hv2. fold start in Hc2. subst c2.
  assert (Hv2' : v2 = reshaped vol
                        (if has_circle b then circle_of b else Volume.Circle vol)
                        (Volume.Polygon vol ++ line_points b)).
  { rewrite Hv2, Hv1. reflexivity. }
  clear Hv2 Hv1 Hcircle. unfold arc_of, has_arc.
  destruct (negb (String.eqb (RawArc.Radius (Boundary.Arc b)) "")).
  - destruct (parseLatLng (RawArc.To (Boundary.Arc b))) as [to [err|]];
      [discriminate Harc|].
    unfold logged, bind in Harc.
    destruct (parseLatLng (RawArc.Centre (Boundary.Arc b))) as [centre e].
    fold (arc_direction b) in Harc. simpl.
    destruct (arcToPolygon fuel centre _ start to (arc_direction b))
      as [arc|]; [|discriminate Harc].
    injection Harc as _ <- <-. split; [reflexivity|].
    exists arc. split; [reflexivity|]. rewrite Hv2'.
    unfold reshaped, Volume.append_Polygon. simpl. by rewrite <- app_assoc.
  - injection Harc as _ <- <-. split; [reflexivity|].
    exists []. split; [reflexivity|]. by rewrite app_nil_r.
Qed.

(** ** The boundaries of a geometry *)

Lemma default_last_app {A : Type} (x : A) (l1 l2 : list A) :
  default x (last (l1 ++ l2)) = default (default x (last l1)) (last l2).
Proof. rewrite last_app. by destruct (last l2). Qed.

Lemma processBoundaries_ok {ext : External} (fuel : nat) (l : list Boundary.t) :
  forall (st : Volume.t * Point) (w : list Warning) (st' : Volume.t * Point),
    forEach l (processBoundary fuel) st = Some (w, Ok st') ->
    st'.2 = last_line_point st.2 l
    /\ exists arcs : list (list Point),
         length arcs = length l
         /\ (forall i b arc,
                l !! i = Some b -> arcs !! i = Some arc ->
                arc_of fuel (last_line_point st.2 (take (S i) l)) b = Some arc)
         /\ st'.1 = reshaped st.1
                      (match last (List.filter has_circle l) with
                       | Some b => circle_of b
                       | None => Volume.Circle st.1
                       end)
                      (Volume.Polygon st.1
                       ++ concat (zip_with (fun b arc => line_points b ++ arc)
                                    l arcs)).
Proof.
  intros st w st'.
  apply (forEach_ok (processBoundary fuel)
           (fun l st st' =>
              st'.2 = last_line_point st.2 l
              /\ exists arcs : list (list Point),
                   length arcs = length l
                   /\ (forall i b arc,
                          l !! i = Some b -> arcs !! i = Some arc ->
                          arc_of fuel (last_line_point st.2 (take (S i) l)) b
                          = Some arc)
                   /\ st'.1 = reshaped st.1
                                (match last (List.filter has_circle l) with
                                 | Some b => circle_of b
                                 | None => Volume.Circle st.1
                                 end)
                                (Volume.Polygon st.1
                                 ++ concat (zip_with
                                              (fun b arc => line_points b ++ arc)
                                              l arcs)))).
  - intros [vol cur]. split; [reflexivity|]. exists []. simpl.
    split; [reflexivity|]. split; [intros i b arc H; inversion H|].
    by rewrite app_nil_r, reshaped_id.
  - intros b l' [vol cur] [vol1 cur1] [vol2 cur2] w' Hbody
      (Hcur & arcs & Hlen & Harcs & Hvol).
    apply processBoundary_ok in Hbody as (Hcur1 & arc & Harc & Hvol1).
    simpl in Hcur, Harcs, Hvol |- *.
    assert (Hstart : forall bs, last_line_point cur (b :: bs)
                                = last_line_point cur1 bs).
    { intros bs. unfold last_line_point. cbn [flat_map].
      by rewrite default_last_app, Hcur1. }
    split; [by rewrite Hstart|].
    exists (arc :: arcs). split; [simpl; by rewrite Hlen|]. split.
    + intros [|i] b' arc' Hb Ha; simpl in Hb, Ha.
      * injection Hb as <-. injection Ha as <-.
        unfold last_line_point. cbn [take flat_map].
        rewrite take_0. cbn [flat_map]. by rewrite app_nil_r.
      * cbn [take]. rewrite Hstart. by eapply Harcs.
    + rewrite Hvol, Hvol1. unfold reshaped. simpl. f_equal.
      * destruct (has_circle b); [|reflexivity].
        rewrite last_cons. by destruct (last (List.filter has_circle l')).
      * by rewrite <- !app_assoc.
Qed.

(** The volume that [processGeometry] returns. *)
Lemma processGeometry_ok {ext : External} (fuel : nat) (g : RawGeometry.t)
    (feat : Feature.t) (w : list Warning) (vol : Volume.t) :
  processGeometry fuel g feat = Some (w, Ok vol) ->
  let bs := RawGeometry.Boundary g in
  exists arcs : list (list Point),
    length arcs = length bs
    /\ (forall i b arc,
           bs !! i = Some b -> arcs !! i = Some arc ->
           arc_of fuel (last_line_point Point0 (take (S i) bs)) b = Some arc)
    /\ vol = Volume.mk
               (inherited (RawGeometry.ID g) (Feature.ID feat))
               (inherited (RawGeometry.Name g) (Feature.Name feat))
               (Feature.Type_ feat)
               (inherited (RawGeometry.Class g) (Feature.Class feat))
               (RawGeometry.Seqno g)
               (decodeHeight (RawGeometry.Lower g)).1
               (decodeHeight (RawGeometry.Upper g)).1
               (ClearanceRequired feat) (Danger feat)
               (match last (List.filter has_circle bs) with
                | Some b => circle_of b
                | None => Circle0
                end)
               (concat (zip_with (fun b arc => line_points b ++ arc) bs arcs)).
Proof.
  intros H bs. unfold processGeometry in H.
  apply bind_ok in H as (w1 & lower & w2 & Hlower & H & _).
  apply bind_ok in H as (w3 & upper & w4 & Hupper & H & _).
  apply bind_ok in H as (w5 & [vol' cur'] & w6 & Hloop & H & _).
  injection H as _ <-. injection Hlower as _ <-. injection Hupper as _ <-.
  apply processBoundaries_ok in Hloop as (_ & arcs & Hlen & Harcs & Hvol).
  exists arcs. split; [exact Hlen|]. split; [exact Harcs|].
  exact Hvol.
Qed.

Lemma sample_geometry_positions :
  Forall position_ok (geometry_positions sample_geometry).
Proof.
  unfold geometry_positions, sample_geometry. simpl.
  repeat (constructor; [vm_compute; reflexivity|]). constructor.
Qed.

Lemma sample_geometry_runs :
  exists (w : list Warning) (vol : Volume.t),
    processGeometry (ext := sample_external (mkResponse [])) arcFuel
      sample_geometry sample_feature
    = Some (w, Ok vol).
Proof.
  apply (processGeometry_checks (sample_bearing_ok _) arcFuel (le_n _)).
  apply sample_geometry_positions.
Qed.

(** X2. The polygon of the volume that [processGeometry] returns is made,
    boundary after boundary, of the points of the boundary's line followed
    by the points of its arc.  The arc of a boundary is swept from the last
    point of the lines up to and including that boundary, from
    [orb.Point{}] when there is none: the end point of an arc does not
    become the start of the arc of the next boundary. *)
Theorem processGeometry_polygon {ext : External} (fuel : nat)
    (g : RawGeometry.t) (feat : Feature.t) (w : list Warning) (vol : Volume.t) :
  processGeometry fuel g feat = Some (w, Ok vol) ->
  let bs := RawGeometry.Boundary g in
  exists arcs : list (list Point),
    length arcs = length bs
    /\ (forall i b arc,
           bs !! i = Some b -> arcs !! i = Some arc ->
           arc_of fuel (last_line_point Point0 (take (S i) bs)) b = Some arc)
    /\ Volume.Polygon vol
       = concat (zip_with (fun b arc => line_points b ++ arc) bs arcs).
Proof.
  intros H bs.
  destruct (processGeometry_ok _ _ _ _ _ H) as (arcs & Hlen & Harcs & ->).
  exists arcs. split; [exact Hlen|]. split; [exact Harcs | reflexivity].
Qed.

Lemma processGeometry_polygon_witness :
  exists (w : list Warning) (vol : Volume.t) (arcs : list (list Point)),
    processGeometry (ext := sample_external (mkResponse [])) arcFuel
      sample_geometry sample_feature
    = Some (w, Ok vol)
    /\ length arcs = 2%nat
    /\ Volume.Polygon vol
       = concat (zip_with (fun b arc => line_points b ++ arc)
                   (RawGeometry.Boundary sample_geometry) arcs).
Proof.
  destruct sample_geometry_runs as (w & vol & Hrun).
  destruct (processGeometry_polygon _ _ _ _ _ Hrun)
    as (arcs & Hlen & _ & Hpoly).
  exists w, vol, arcs. split; [exact Hrun|]. split; [exact Hlen | exact Hpoly].
Defined.

Lemma concat_lines_arcs_nil (bs : list Boundary.t) :
  forall arcs : list (list Point),
    (forall i b arc,
        bs !! i = Some b -> arcs !! i = Some arc ->
        line_points b ++ arc = []) ->
    concat (zip_with (fun b arc => line_points b ++ arc) bs arcs) = [].
Proof.
  induction bs as [|b bs IH]; intros [|arc arcs] H; try reflexivity.
  simpl. rewrite (H 0%nat b arc eq_refl eq_refl). simpl.
  apply IH. intros i b' arc' Hb Ha. by apply (H (S i)).
Qed.

(** X3. The circle of the volume that [processGeometry] returns is the one
    of the last boundary that has a circle, and [Circle{}] when no boundary
    has one.  So the two shapes exclude each other when the document does
    not mix them: a geometry without circles gives a volume that the
    containment test matches by its ring only, and a geometry without
    lines and arcs gives a volume with an empty polygon, matched by its
    circle only. *)
Theorem processGeometry_shapes {ext : External} (fuel : nat)
    (g : RawGeometry.t) (feat : Feature.t) (w : list Warning) (vol : Volume.t) :
  processGeometry fuel g feat = Some (w, Ok vol) ->
  let bs := RawGeometry.Boundary g in
  Volume.Circle vol
  = match last (List.filter has_circle bs) with
    | Some b => circle_of b
    | None => Circle0
    end
  /\ (Forall (fun b => has_circle b = false) bs ->
      Volume.Circle vol = Circle0
      /\ forall p : Point,
           isEnclosedBy p vol
           = (0 <? length (Volume.Polygon vol))%nat
             && RingContains (Volume.Polygon vol) p)
  /\ (Forall (fun b => Boundary.Line b = [] /\ has_arc b = false) bs ->
      Volume.Polygon vol = []
      /\ forall p : Point,
           isEnclosedBy p vol
           = (Radius (Volume.Circle vol) !=? F64.zero)%f64
             && (Distance (ToMercator p)
                   (ToMercator (Centre (Volume.Circle vol)))
                 <=? Radius (Volume.Circle vol))%f64).
Proof.
  intros H bs.
  destruct (processGeometry_ok _ _ _ _ _ H) as (arcs & Hlen & Harcs & ->).
  fold bs in Hlen, Harcs |- *. cbn [Volume.Circle Volume.Polygon].
  split; [reflexivity|]. split.
  - intros Hnone.
    assert (Hfilter : List.filter has_circle bs = []).
    { clear -Hnone. induction Hnone as [|b l Hb _ IH]; [reflexivity|].
      simpl. by rewrite Hb. }
    rewrite Hfilter. split; [reflexivity|]. intros p.
    unfold isEnclosedBy. cbn [Volume.Circle Volume.Polygon last Circle0 Radius].
    change (F64.zero !=? F64.zero)%f64 with false. cbv iota.
    destruct (0 <? length _)%nat; [|reflexivity].
    by destruct (RingContains _ p).
  - intros Hnone.
    assert (Hpoly : concat (zip_with (fun b arc => line_points b ++ arc)
                              bs arcs) = []).
    { apply concat_lines_arcs_nil. intros i b arc Hb Ha.
      rewrite Forall_forall in Hnone.
      destruct (Hnone b) as [Hline Harc];
        [by eapply list_elem_of_lookup_2|].
      specialize (Harcs i b arc Hb Ha). unfold arc_of in Harcs.
      rewrite Harc in Harcs. injection Harcs as <-.
      unfold line_points. by rewrite Hline. }
    rewrite Hpoly. split; [reflexivity|]. intros p.
    unfold isEnclosedBy. cbn [Volume.Circle Volume.Polygon length].
    change (0 <? 0)%nat with false. cbv iota.
    destruct (_ !=? F64.zero)%f64; [|reflexivity].
    by destruct (_ <=? _)%f64.
Qed.

Lemma processGeometry_shapes_witness :
  exists (w : list Warning) (vol : Volume.t),
    processGeometry (ext := sample_external (mkResponse [])) arcFuel
      sample_geometry sample_feature
    = Some (w, Ok vol)
    /\ Volume.Circle vol = Circle0.
Proof.
  destruct sample_geometry_runs as (w & vol & Hrun).
  destruct (processGeometry_shapes _ _ _ _ _ Hrun) as (_ & Hnone & _).
  exists w, vol. split; [exact Hrun|].
  apply Hnone. repeat constructor.
Defined.

(** ** The features of a document *)

Lemma volume_of_header {ext : External} (f1 f2 : Feature.t)
    (g : RawGeometry.t) (vol : Volume.t) :
  Feature.ID f1 = Feature.ID f2 ->
  Feature.Name f1 = Feature.Name f2 ->
  Feature.Type_ f1 = Feature.Type_ f2 ->
  Feature.Class f1 = Feature.Class f2 ->
  volume_of f1 g vol -> volume_of f2 g vol.
Proof.
  unfold volume_of, ClearanceRequired, Danger. by intros -> -> -> ->.
Qed.

Lemma processGeometries_ok {ext : External} (fuel : nat)
    (l : list RawGeometry.t) :
  forall (feat : Feature.t) (w : list Warning) (feat' : Feature.t),
    forEach l
      (fun g feat =>
         let* vol := processGeometry fuel g feat in
         ret (Feature.append_Geometry feat vol))
      feat
    = Some (w, Ok feat') ->
    exists vols : list Volume.t,
      feat' = Feature.mk (Feature.ID feat) (Feature.Name feat)
                (Feature.Type_ feat) (Feature.Class feat)
                (Feature.Geometry feat ++ vols)
      /\ Forall2 (volume_of feat) l vols.
Proof.
  intros feat w feat'.
  apply (forEach_ok _
           (fun l feat feat' =>
              exists vols : list Volume.t,
                feat' = Feature.mk (Feature.ID feat) (Feature.Name feat)
                          (Feature.Type_ feat) (Feature.Class feat)
                          (Feature.Geometry feat ++ vols)
                /\ Forall2 (volume_of feat) l vols)).
  - intros f. exists []. rewrite app_nil_r. split; [by destruct f | constructor].
  - intros g l' f f1 f2 w' Hbody (vols & -> & Hvols).
    apply bind_ok in Hbody as (w1 & vol & w2 & Hvol & Hret & _).
    injection Hret as _ <-. exists (vol :: vols). split.
    + simpl. by rewrite <- app_assoc.
    + constructor.
      * destruct (processGeometry_ok _ _ _ _ _ Hvol) as (arcs & _ & _ & ->).
        by repeat split.
      * eapply Forall2_impl; [exact Hvols|].
        intros g' vol'. by apply volume_of_header.
Qed.

Lemma normaliseFeature_ok {ext : External} (fuel i : nat) (f : RawAirspace.t)
    (features : list Feature.t) (w : list Warning) (out : list Feature.t) :
  normaliseFeature fuel i f features = Some (w, Ok out) ->
  exists feat : Feature.t, out = features ++ [feat] /\ feature_of i f feat.
Proof.
  unfold normaliseFeature. intros H.
  apply bind_ok in H as (w1 & feat & w2 & Hloop & Hret & _).
  injection Hret as _ <-.
  apply processGeometries_ok in Hloop as (vols & -> & Hvols).
  eexists. split; [reflexivity|]. unfold feature_of. simpl.
  repeat (split; [reflexivity|]).
  eapply Forall2_impl; [exact Hvols|].
  intros g vol. by apply volume_of_header.
Qed.

Lemma normaliseFeatures_ok {ext : External} (fuel : nat)
    (l : list RawAirspace.t) :
  forall (i : nat) (acc : list Feature.t) (w : list Warning)
         (out : list Feature.t),
    forEachIndexed i l (normaliseFeature fuel) acc = Some (w, Ok out) ->
    exists new : list Feature.t,
      out = acc ++ new
      /\ length new = length l
      /\ forall j f feat,
           l !! j = Some f -> new !! j = Some feat ->
           feature_of (i + j) f feat.
Proof.
  intros i acc w out.
  apply (forEachIndexed_ok (normaliseFeature fuel)
           (fun i l acc out =>
              exists new : list Feature.t,
                out = acc ++ new
                /\ length new = length l
                /\ forall j f feat,
                     l !! j = Some f -> new !! j = Some feat ->
                     feature_of (i + j) f feat)).
  - intros k s. exists []. rewrite app_nil_r. split; [reflexivity|].
    split; [reflexivity|]. intros j f feat H. inversion H.
  - intros k f l' s s1 s2 w' Hbody (new & -> & Hlen & Hnew).
    apply normaliseFeature_ok in Hbody as (feat & -> & Hfeat).
    exists (feat :: new). split; [by rewrite <- app_assoc|].
    split; [simpl; by rewrite Hlen|].
    intros [|j] f' feat' Hf Hfeat'; simpl in Hf, Hfeat'.
    + injection Hf as <-. injection Hfeat' as <-.
      by rewrite Nat.add_0_r.
    + rewrite Nat.add_succ_r. by apply Hnew.
Qed.

(** X4. When [normalise] returns without error, it returns one feature for
    each entry of the document, in the order of the document.  The feature
    at index [i] has the identifier and the type that [resolveFeatureID]
    (with [i]) and [resolveAirspaceType] give, and the name and class of
    the entry; it has one volume for each geometry of the entry, in order.
    A volume takes the identifier, name and class of its geometry, or those
    of the feature where the geometry leaves them empty; its type is the
    one of the feature, and its flags [ClearanceRequired] and [Danger] are
    those of the feature, whatever the class of the volume itself. *)
Theorem normalise_structure {ext : External} (fuel : nat) (a : airspaceResponse)
    (w : list Warning) (features : list Feature.t) :
  normalise fuel a = Some (w, (features, None)) ->
  length features = length (Airspace a)
  /\ forall i f feat,
       Airspace a !! i = Some f -> features !! i = Some feat ->
       feature_of i f feat.
Proof.
  unfold normalise. intros H.
  destruct (forEachIndexed 0 (Airspace a) (normaliseFeature fuel) [])
    as [[w' [out | err]]|] eqn:Hloop; try discriminate H.
  injection H as _ <-.
  apply normaliseFeatures_ok in Hloop as (new & -> & Hlen & Hnew).
  split; [exact Hlen|]. exact Hnew.
Qed.

Lemma normalise_structure_witness :
  exists (w : list Warning) (features : list Feature.t),
    normalise (ext := sample_external (mkResponse [])) arcFuel
      (doc_with_arc "571834N 0021602W" "572153N 0015835W")
    = Some (w, (features, None))
    /\ length features = 1%nat.
Proof.
  destruct (proj1 (normalise_checks (sample_bearing_ok (mkResponse []))
                     arcFuel (le_n _)
                     (doc_with_arc "571834N 0021602W" "572153N 0015835W")))
    as (w & features & Hrun).
  { unfold document_positions, doc_with_arc. simpl.
    repeat (constructor; [vm_compute; reflexivity|]). constructor. }
  exists w, features. split; [exact Hrun|].
  apply (normalise_structure _ _ _ _ Hrun).
Defined.

(* ===================================================================== *)
(** * Properties: decoding and querying together                          *)
(* ===================================================================== *)

(** X5. A radius that [strconv.ParseFloat] rejects is only logged: the
    geometry is decoded, with a radius of zero.  When the geometry has no
    lines and no arcs and the radius of its last circle is rejected, the
    volume returned encloses no point, and no query returns it. *)
Theorem rejected_radius_encloses_nothing {ext : External} :
  StrconvContract ext ->
  forall (fuel : nat) (g : RawGeometry.t) (feat : Feature.t)
         (w : list Warning) (vol : Volume.t) (b : Boundary.t) (f : float64),
    processGeometry fuel g feat = Some (w, Ok vol) ->
    Forall (fun b => Boundary.Line b = [] /\ has_arc b = false)
      (RawGeometry.Boundary g) ->
    last (List.filter has_circle (RawGeometry.Boundary g)) = Some b ->
    ParseFloat (TrimSuffix (RawCircle.Radius (Boundary.Circle b)) " nm")
    = (f, Some ErrSyntax) ->
    Radius (Volume.Circle vol) = F64.zero
    /\ forall p : Point,
         isEnclosedBy p vol = false
         /\ forall features : gmap string Feature.t,
              vol ∉ EnclosingVolumes p features.
Proof.
  intros Hconv fuel g feat w vol b f Hrun Hnone Hlast Hparse.
  destruct (processGeometry_ok _ _ _ _ _ Hrun) as (arcs & Hlen & Harcs & ->).
  assert (Hpoly : concat (zip_with (fun b arc => line_points b ++ arc)
                            (RawGeometry.Boundary g) arcs) = []).
  { apply concat_lines_arcs_nil. intros i b' arc Hb Ha.
    rewrite Forall_forall in Hnone.
    destruct (Hnone b') as [Hline Harc]; [by eapply list_elem_of_lookup_2|].
    specialize (Harcs i b' arc Hb Ha). unfold arc_of in Harcs.
    rewrite Harc in Harcs. injection Harcs as <-.
    unfold line_points. by rewrite Hline. }
  assert (Hradius : (decodeDistance (RawCircle.Radius (Boundary.Circle b))).1
                    = F64.zero).
  { unfold decodeDistance. rewrite Hparse.
    by rewrite (ParseFloat_syntax ext Hconv _ _ Hparse). }
  rewrite Hlast, Hpoly. cbn [Volume.Circle circle_of Radius].
  split; [exact Hradius|]. intros p.
  assert (Hno : isEnclosedBy p
                  (Volume.mk
                     (inherited (RawGeometry.ID g) (Feature.ID feat))
                     (inherited (RawGeometry.Name g) (Feature.Name feat))
                     (Feature.Type_ feat)
                     (inherited (RawGeometry.Class g) (Feature.Class feat))
                     (RawGeometry.Seqno g)
                     (decodeHeight (RawGeometry.Lower g)).1
                     (decodeHeight (RawGeometry.Upper g)).1
                     (ClearanceRequired feat) (Danger feat) (circle_of b) [])
                = false).
  { unfold isEnclosedBy. cbn [Volume.Circle Volume.Polygon circle_of Radius].
    by rewrite Hradius. }
  split; [exact Hno|].
  intros features Hin. apply EnclosingVolumes_spec in Hin.
  destruct Hin as (k & f' & _ & _ & Htrue). congruence.
Qed.

Lemma rejected_radius_encloses_nothing_witness :
  exists (w : list Warning) (vol : Volume.t),
    processGeometry (ext := sample_external (mkResponse [])) arcFuel
      bad_radius_geometry sample_feature
    = Some (w, Ok vol)
    /\ Radius (Volume.Circle vol) = F64.zero.
Proof.
  destruct (proj1 (processGeometry_checks
                     (sample_bearing_ok (mkResponse [])) arcFuel (le_n _)
                     bad_radius_geometry sample_feature))
    as (w & vol & Hrun).
  { unfold geometry_positions, bad_radius_geometry. simpl.
    repeat (constructor; [vm_compute; reflexivity|]). constructor. }
  exists w, vol. split; [exact Hrun|].
  refine (proj1 (rejected_radius_encloses_nothing
                   (ext := sample_external (mkResponse []))
                   (sample_strconv_ok _) _ _ _ _ _ _ F64.zero Hrun _ _ _)).
  - repeat constructor.
  - reflexivity.
  - vm_compute. reflexivity.
Defined.

(** X6. [EnclosingVolumes] returns the volumes of the features of the map
    that enclose the point, and only those: feature after feature, the
    enclosing volumes of the feature in the order of its geometry. *)
Theorem EnclosingVolumes_exact {ext : External} (point : Point)
    (features : gmap string Feature.t) :
  EnclosingVolumes point features
  = flat_map (fun kf => List.filter (isEnclosedBy point) (Feature.Geometry kf.2))
      (map_to_list features)
  /\ (forall v : Volume.t,
         v ∈ EnclosingVolumes point features <->
         exists (k : string) (f : Feature.t),
           features !! k = Some f /\ v ∈ Feature.Geometry f
           /\ isEnclosedBy point v = true)
  /\ EnclosingVolumes point (∅ : gmap string Feature.t) = [].
Proof.
  split; [|split].
  - unfold EnclosingVolumes.
    assert (Hfold : forall (l : list (string * Feature.t)) (acc : list Volume.t),
      foldl
        (fun enclosingVolumes kf =>
           foldl
             (fun enclosingVolumes v =>
                if isEnclosedBy point v
                then enclosingVolumes ++ [v] else enclosingVolumes)
             enclosingVolumes (Feature.Geometry kf.2)) acc l
      = acc ++ flat_map
                 (fun kf => List.filter (isEnclosedBy point)
                              (Feature.Geometry kf.2)) l).
    { induction l as [|kf l IH]; intros acc; simpl.
      - by rewrite app_nil_r.
      - by rewrite IH, foldl_select, <- app_assoc. }
    apply (Hfold _ []).
  - intros v. apply EnclosingVolumes_spec.
  - unfold EnclosingVolumes. by rewrite map_to_list_empty.
Qed.

(* ===================================================================== *)
(** * Properties: the query server                                        *)
(* ===================================================================== *)

(** ** The map of features *)

Lemma indexFeatures_fold (l : list Feature.t) :
  forall (m : gmap string Feature.t) (d : list string) (id : string),
    (foldl
       (fun st f =>
          let '(features, duplicates) := st in
          (<[Feature.ID f := f]> features,
           match features !! Feature.ID f with
           | Some _ => duplicates ++ [Feature.ID f]
           | None => duplicates
           end))
       (m, d) l).1 !! id
    = match last (with_ID id l) with
      | Some f => Some f
      | None => m !! id
      end.
Proof.
  induction l as [|f l IH]; intros m d id; [reflexivity|].
  cbn [foldl]. rewrite IH. unfold with_ID. cbn [List.filter].
  case_bool_decide as Hid.
  - rewrite last_cons. subst id. rewrite lookup_insert_eq.
    by destruct (last _).
  - by rewrite lookup_insert_ne.
Qed.

Lemma indexFeatures_duplicates (l : list Feature.t) :
  forall (m : gmap string Feature.t) (d : list string),
    (foldl
       (fun st f =>
          let '(features, duplicates) := st in
          (<[Feature.ID f := f]> features,
           match features !! Feature.ID f with
           | Some _ => duplicates ++ [Feature.ID f]
           | None => duplicates
           end))
       (m, d) l).2 = []
    <-> d = [] /\ NoDup (map Feature.ID l)
        /\ forall f, f ∈ l -> m !! Feature.ID f = None.
Proof.
  induction l as [|f l IH]; intros m d.
  - simpl. split; [intros ->|tauto].
    split; [reflexivity|]. split; [constructor|]. intros f H. inversion H.
  - cbn [foldl]. rewrite IH. cbn [map]. rewrite NoDup_cons. split.
    + intros (Hd & Hnodup & Hfresh).
      destruct (m !! Feature.ID f) eqn:Hf; [by destruct d|].
      split; [exact Hd|]. split; [split; [|exact Hnodup]|].
      * intros Hin. apply list_elem_of_fmap in Hin as (f' & Heq & Hin).
        specialize (Hfresh f' Hin). rewrite <- Heq in Hfresh.
        by rewrite lookup_insert_eq in Hfresh.
      * intros f' Hin. apply elem_of_cons in Hin as [-> | Hin]; [exact Hf|].
        specialize (Hfresh f' Hin).
        destruct (decide (Feature.ID f = Feature.ID f')) as [Heq | Hne].
        -- rewrite <- Heq in Hfresh. by rewrite lookup_insert_eq in Hfresh.
        -- by rewrite lookup_insert_ne in Hfresh.
    + intros (-> & [Hnotin Hnodup] & Hfresh).
      rewrite (Hfresh f) by (by left).
      split; [reflexivity|]. split; [exact Hnodup|].
      intros f' Hin. rewrite lookup_insert_ne; [apply Hfresh; by right|].
      intros Heq. apply Hnotin. rewrite Heq.
      apply list_elem_of_fmap. by exists f'.
Qed.

Lemma with_ID_last_elem (id : string) (l : list Feature.t) (f : Feature.t) :
  last (with_ID id l) = Some f -> f ∈ l /\ Feature.ID f = id.
Proof.
  intros Hlast. apply last_Some in Hlast as (l' & Hl').
  assert (Hin : In f (with_ID id l)).
  { rewrite Hl'. apply in_or_app. right. by left. }
  unfold with_ID in Hin. apply filter_In in Hin as [Hin Hid].
  split; [by apply list_elem_of_In|]. by apply bool_decide_eq_true in Hid.
Qed.

Lemma with_ID_last_unique (l : list Feature.t) (f : Feature.t) :
  NoDup (map Feature.ID l) -> f ∈ l ->
  last (with_ID (Feature.ID f) l) = Some f.
Proof.
  induction l as [|f' l IH]; intros Hnodup Hin; [inversion Hin|].
  cbn [map] in Hnodup. apply NoDup_cons in Hnodup as [Hnotin Hnodup].
  unfold with_ID. cbn [List.filter]. fold (with_ID (Feature.ID f) l).
  apply elem_of_cons in Hin as [-> | Hin].
  - rewrite bool_decide_eq_true_2 by reflexivity. rewrite last_cons.
    destruct (last (with_ID (Feature.ID f') l)) as [f''|] eqn:Hlast;
      [|reflexivity].
    apply with_ID_last_elem in Hlast as [Hin Hid].
    exfalso. apply Hnotin. rewrite <- Hid.
    apply list_elem_of_fmap. by exists f''.
  - case_bool_decide as Hid; [|by apply IH].
    exfalso. apply Hnotin. rewrite Hid.
    apply list_elem_of_fmap. by exists f.
Qed.

(** X7. The map that the server builds from the list of features holds,
    under each identifier, the last feature of the list with that
    identifier.  No duplicate is logged exactly when the identifiers of the
    list are distinct.  A query returns the enclosing volumes of the
    features that are the last with their identifier, so the volumes of a
    feature that a later one shadows are never returned; with distinct
    identifiers it returns the enclosing volumes of all features. *)
Theorem indexFeatures_queries {ext : External} (l : list Feature.t) :
  (forall id : string, (indexFeatures l).1 !! id = last (with_ID id l))
  /\ ((indexFeatures l).2 = [] <-> NoDup (map Feature.ID l))
  /\ (forall (point : Point) (v : Volume.t),
         v ∈ EnclosingVolumes point (indexFeatures l).1 <->
         exists f : Feature.t,
           last (with_ID (Feature.ID f) l) = Some f
           /\ v ∈ Feature.Geometry f /\ isEnclosedBy point v = true)
  /\ (NoDup (map Feature.ID l) ->
      forall (point : Point) (v : Volume.t),
        v ∈ EnclosingVolumes point (indexFeatures l).1 <->
        exists f : Feature.t,
          f ∈ l /\ v ∈ Feature.Geometry f /\ isEnclosedBy point v = true).
Proof.
  assert (Hlookup : forall id, (indexFeatures l).1 !! id = last (with_ID id l)).
  { intros id. unfold indexFeatures. rewrite indexFeatures_fold.
    rewrite lookup_empty. by destruct (last _). }
  assert (Hquery : forall (point : Point) (v : Volume.t),
    v ∈ EnclosingVolumes point (indexFeatures l).1 <->
    exists f : Feature.t,
      last (with_ID (Feature.ID f) l) = Some f
      /\ v ∈ Feature.Geometry f /\ isEnclosedBy point v = true).
  { intros point v. rewrite EnclosingVolumes_spec. split.
    - intros (k & f & Hk & Hv). exists f. split; [|exact Hv].
      rewrite Hlookup in Hk.
      by destruct (with_ID_last_elem _ _ _ Hk) as [_ ->].
    - intros (f & Hlast & Hv). exists (Feature.ID f), f.
      split; [by rewrite Hlookup | exact Hv]. }
  split; [exact Hlookup|]. split; [|split; [exact Hquery|]].
  - unfold indexFeatures. rewrite indexFeatures_duplicates. split.
    + by intros (_ & H & _).
    + intros H. split; [reflexivity|]. split; [exact H|].
      intros f _. apply lookup_empty.
  - intros Hnodup point v. rewrite Hquery. split.
    + intros (f & Hlast & Hv). exists f. split; [|exact Hv].
      by destruct (with_ID_last_elem _ _ _ Hlast).
    + intros (f & Hin & Hv). exists f. split; [|exact Hv].
      by apply with_ID_last_unique.
Qed.

(** Of two features with the identifier "a", each with one volume around
    (0, 0), a query at (0, 0) returns the volume of the second only. *)
Lemma indexFeatures_queries_witness :
  let ext := sample_external (mkResponse []) in
  sample_volume "second"
    ∈ EnclosingVolumes (pt 0 0) (indexFeatures shadowed_features).1
  /\ sample_volume "first"
       ∉ EnclosingVolumes (pt 0 0) (indexFeatures shadowed_features).1.
Proof.
  intros ext.
  destruct (indexFeatures_queries (ext := ext) shadowed_features)
    as (_ & _ & Hquery & _).
  split.
  - apply Hquery.
    exists (Feature.mk "a" "SECOND" "OTHER" "G" [sample_volume "second"]).
    split; [reflexivity|]. split; [by left | vm_compute; reflexivity].
  - intros Hin. apply Hquery in Hin as (f & Hlast & Hv & _).
    destruct (with_ID_last_elem _ _ _ Hlast) as [Hf _].
    unfold shadowed_features in Hf.
    apply elem_of_cons in Hf as [-> | Hf];
      [|apply elem_of_cons in Hf as [-> | Hf]; [|inversion Hf]].
    + vm_compute in Hlast. discriminate Hlast.
    + apply elem_of_cons in Hv as [Hv | Hv]; [discriminate Hv | inversion Hv].
Defined.

(** ** The parts of a query string *)






(* ===================================================================== *)
(** * Properties: identifiers of features                                 *)
(* ===================================================================== *)

Lemma FormatInt_digits (i : nat) : free_of "-" (FormatInt i) = true.
Proof.
  unfold FormatInt. generalize (Nat.to_uint i). intros d.
  induction d as [|d IH|d IH|d IH|d IH|d IH|d IH|d IH|d IH|d IH|d IH];
    [reflexivity|..]; exact IH.
Qed.

Lemma FormatInt_inj (i j : nat) : FormatInt i = FormatInt j -> i = j.
Proof.
  unfold FormatInt. intros H. apply Unsigned.to_uint_inj.
  apply (f_equal NilEmpty.uint_of_string) in H.
  rewrite !NilEmpty.usu in H. by injection H.
Qed.

Lemma free_of_join (sep : ascii) (s d : string) :
  free_of sep (s ++ String sep d) = false.
Proof.
  unfold free_of. induction s as [|c s IH]; simpl.
  - by rewrite Ascii.eqb_refl.
  - rewrite IH. apply andb_false_r.
Qed.

(** The part after the last separator determines itself. *)
Lemma join_inj (sep : ascii) (s1 s2 d1 d2 : string) :
  free_of sep d1 = true -> free_of sep d2 = true ->
  (s1 ++ String sep d1 = s2 ++ String sep d2)%string ->
  d1 = d2.
Proof.
  intros H1 H2. revert s2.
  induction s1 as [|c1 s1 IH]; intros [|c2 s2] H; simpl in H.
  - by injection H.
  - injection H as _ H. rewrite H, free_of_join in H1. discriminate H1.
  - injection H as _ H. rewrite <- H, free_of_join in H2. discriminate H2.
  - injection H as _ H. by apply (IH s2).
Qed.

(** X9. An identifier given in the document is used as it is, trimmed.
    The identifiers that [resolveFeatureID] makes up for two entries at
    different indices of the document are different, whatever the names of
    the entries. *)
Theorem resolveFeatureID_distinct {ext : External}
    (id1 name1 id2 name2 : string) (i j : nat) :
  (TrimSpace id1 <> "" -> resolveFeatureID id1 name1 i = TrimSpace id1)
  /\ (TrimSpace id1 = "" -> TrimSpace id2 = "" -> i <> j ->
      resolveFeatureID id1 name1 i <> resolveFeatureID id2 name2 j).
Proof.
  unfold resolveFeatureID. split.
  - intros H. apply String.eqb_neq in H. by rewrite H.
  - intros -> -> Hij Heq. cbn [String.eqb] in Heq.
    apply Hij, FormatInt_inj.
    apply (join_inj "-" _ _ _ _ (FormatInt_digits i) (FormatInt_digits j) Heq).
Qed.

(* ===================================================================== *)
(** * Properties: the range of decoded positions                          *)
(* ===================================================================== *)

Lemma decimal_bound (s : string) :
  all_digits s = true -> 0 <= decimal s < 10 ^ Z.of_nat (String.length s).
Proof.
  unfold all_digits, decimal.
  enough (H : forall n : Z,
             forallb is_digit (list_ascii_of_string s) = true -> 0 <= n ->
             n * 10 ^ Z.of_nat (String.length s)
             <= fold_left (fun n c => 10 * n + digit_val c)
                  (list_ascii_of_string s) n
             < (n + 1) * 10 ^ Z.of_nat (String.length s)).
  { intros Hd. specialize (H 0 Hd). lia. }
  induction s as [|c s IH]; intros n Hd Hn.
  - simpl. lia.
  - simpl in Hd. apply andb_prop in Hd as [Hc Hd].
    pose proof (digit_val_range c Hc) as Hv.
    cbn [list_ascii_of_string fold_left String.length].
    specialize (IH (10 * n + digit_val c) Hd ltac:(lia)).
    rewrite Nat2Z.inj_succ, Z.pow_succ_r by lia.
    assert (0 < 10 ^ Z.of_nat (String.length s)) by (apply Z.pow_pos_nonneg; lia).
    nia.
Qed.

Lemma first_naturals_In (n : nat) (z : Z) :
  0 <= z < Z.of_nat n -> In z (first_naturals n).
Proof.
  intros Hz. unfold first_naturals.
  rewrite <- (Z2Nat.id z) by lia. apply in_map, in_seq. lia.
Qed.

Lemma number_within_spec (lo hi den : Z) (x : float64) :
  number_within lo hi den x = true ->
  number x /\ lo * F64.unit <= den * F64.scaled x <= hi * F64.unit.
Proof.
  unfold number_within, number. intros H.
  apply andb_prop in H as [H H4]. apply andb_prop in H as [H H3].
  apply andb_prop in H as [H1 H2]. apply Z.leb_le in H3, H4. by repeat split.
Qed.

(** Whole degrees are exact. *)
Lemma degrees_table (n : Z) :
  0 <= n < 1000 ->
  number (F64.of_Z n) /\ F64.scaled (F64.of_Z n) = n * F64.unit.
Proof.
  intros Hn.
  assert (Htable : forallb (fun n => number_within n n 1 (F64.of_Z n))
                     (first_naturals 1000) = true)
    by (vm_compute; reflexivity).
  rewrite forallb_forall in Htable.
  destruct (number_within_spec _ _ _ _
              (Htable n (first_naturals_In 1000 n Hn))) as [Hnum Hval].
  split; [exact Hnum | lia].
Qed.

(** Minutes are at most 1.65 degrees. *)
Lemma minutes_table (n : Z) :
  0 <= n < 100 ->
  number (F64.of_Z n / #60)%f64
  /\ 0 <= 100 * F64.scaled (F64.of_Z n / #60)%f64 <= 165 * F64.unit.
Proof.
  intros Hn.
  assert (Htable : forallb (fun n => number_within 0 165 100
                                       (F64.of_Z n / #60)%f64)
                     (first_naturals 100) = true)
    by (vm_compute; reflexivity).
  rewrite forallb_forall in Htable.
  destruct (number_within_spec _ _ _ _
              (Htable n (first_naturals_In 100 n Hn))) as [Hnum Hval].
  split; [exact Hnum | lia].
Qed.

(** Seconds are at most 0.0275 degrees. *)
Lemma seconds_table (n : Z) :
  0 <= n < 100 ->
  number (F64.of_Z n / #3600)%f64
  /\ 0 <= 1000 * F64.scaled (F64.of_Z n / #3600)%f64 <= 28 * F64.unit.
Proof.
  intros Hn.
  assert (Htable : forallb (fun n => number_within 0 28 1000
                                       (F64.of_Z n / #3600)%f64)
                     (first_naturals 100) = true)
    by (vm_compute; reflexivity).
  rewrite forallb_forall in Htable.
  destruct (number_within_spec _ _ _ _
              (Htable n (first_naturals_In 100 n Hn))) as [Hnum Hval].
  split; [exact Hnum | lia].
Qed.

Lemma rounding_error_tiny : 1000000 * 2 ^ 1033 <= F64.unit.
Proof.
  unfold F64.unit. apply Z.le_trans with (2 ^ 20 * 2 ^ 1033); [lia|].
  rewrite <- (Z.pow_add_r 2 20 1033) by lia. apply Z.pow_le_mono_r; lia.
Qed.

(** [deg + min/60 + sec/3600] is a number within 1.7 of [deg]. *)
Lemma sexagesimal_range (deg min sec : Z) :
  0 <= deg < 1000 -> 0 <= min < 100 -> 0 <= sec < 100 ->
  number (sexagesimal deg min sec)
  /\ 10 * (deg * F64.unit) - F64.unit
     <= 10 * F64.scaled (sexagesimal deg min sec)
     <= 10 * (deg * F64.unit) + 17 * F64.unit.
Proof.
  intros Hdeg Hmin Hsec. unfold sexagesimal.
  pose proof unit_pos as Hu. pose proof rounding_error_tiny as Htiny.
  pose proof arc_range_small as Hsmall.
  destruct (degrees_table deg Hdeg) as [Hd Hd_val].
  destruct (minutes_table min Hmin) as [Hm Hm_val].
  destruct (seconds_table sec Hsec) as [Hs Hs_val].
  assert (Hrange : 0 <= deg * F64.unit <= 999 * F64.unit) by nia.
  destruct (f64_add_spec _ _ Hd Hm) as [H1 H1_val]; [rewrite Hd_val; lia|].
  rewrite Hd_val in H1_val.
  destruct (f64_add_spec _ _ H1 Hs) as [H2 H2_val]; [lia|].
  split; [exact H2 | lia].
Qed.

(** The point that the decoder returns for a position of the form
    "DDMMSSH DDDMMSSH". *)
Lemma parseLatLng_of_valid (str : string) :
  valid_position str ->
  parseLatLng str =
  (mkPoint
     (hemisphere "W" (String.get 15 str)
        (sexagesimal (decimal (slice str 8 11)) (decimal (slice str 11 13))
           (decimal (slice str 13 15))))
     (hemisphere "S" (String.get 6 str)
        (sexagesimal (decimal (slice str 0 2)) (decimal (slice str 2 4))
           (decimal (slice str 4 6)))),
   None).
Proof.
  intros (Hlen & Hdig & Hns & Hsp & Hew).
  pose proof (digit_groups_length str Hlen) as Hgl.
  unfold digit_groups in Hdig, Hgl.
  rewrite !Forall_cons in Hdig, Hgl.
  destruct Hdig as (D1 & D2 & D3 & D4 & D5 & D6 & _).
  destruct Hgl as (L1 & L2 & L3 & L4 & L5 & L6 & _).
  unfold parseLatLng, hemisphere, sexagesimal.
  rewrite Hlen, Hsp. rewrite bool_decide_true by reflexivity. simpl.
  rewrite !ParseUint_digits by assumption. simpl.
  destruct Hns as [-> | ->], Hew as [-> | ->]; reflexivity.
Qed.

Lemma hemisphere_range (neg : ascii) (h : option ascii) (x : float64) (bound : Z) :
  number x -> Z.abs (F64.scaled x) <= bound ->
  number (hemisphere neg h x)
  /\ Z.abs (F64.scaled (hemisphere neg h x)) <= bound.
Proof.
  intros Hx Hb. unfold hemisphere. case_bool_decide; [|by split].
  split; [by apply number_opp|]. rewrite scaled_opp. lia.
Qed.

Lemma group_bound (str : string) (lo hi : nat) :
  String.length str = 16%nat -> (lo <= hi <= 16)%nat ->
  all_digits (slice str lo hi) = true ->
  0 <= decimal (slice str lo hi) < 10 ^ Z.of_nat (hi - lo).
Proof.
  intros Hlen Hlohi Hd. rewrite <- (length_slice str lo hi) by lia.
  by apply decimal_bound.
Qed.

(** X10. The point decoded from a position of the form "DDMMSSH DDDMMSSH"
    has coordinates that are finite binary64 numbers, never NaN or an
    infinity, of at most 101 degrees of latitude and 1001 degrees of
    longitude in absolute value.  The decoder does not check the range of
    a position: it accepts "995959N 9995959E", with a latitude above 99
    degrees and a longitude above 999 degrees. *)
Theorem parseLatLng_range :
  (forall str : string,
      valid_position str ->
      let p := (parseLatLng str).1 in
      number (Lat p) /\ number (Lon p)
      /\ Z.abs (F64.scaled (Lat p)) <= 101 * F64.unit
      /\ Z.abs (F64.scaled (Lon p)) <= 1001 * F64.unit)
  /\ (let p := (parseLatLng "995959N 9995959E").1 in
      (parseLatLng "995959N 9995959E").2 = None
      /\ 99 * F64.unit < F64.scaled (Lat p)
      /\ 999 * F64.unit < F64.scaled (Lon p)).
Proof.
  split; [|vm_compute; by repeat split].
  intros str Hvalid p. unfold p. rewrite (parseLatLng_of_valid str Hvalid).
  cbn [fst Lat Lon].
  destruct Hvalid as (Hlen & Hdig & _).
  unfold digit_groups in Hdig. rewrite !Forall_cons in Hdig.
  destruct Hdig as (D1 & D2 & D3 & D4 & D5 & D6 & _).
  pose proof unit_pos as Hu.
  pose proof (group_bound str 0 2 Hlen ltac:(lia) D1) as B1.
  pose proof (group_bound str 2 4 Hlen ltac:(lia) D2) as B2.
  pose proof (group_bound str 4 6 Hlen ltac:(lia) D3) as B3.
  pose proof (group_bound str 8 11 Hlen ltac:(lia) D4) as B4.
  pose proof (group_bound str 11 13 Hlen ltac:(lia) D5) as B5.
  pose proof (group_bound str 13 15 Hlen ltac:(lia) D6) as B6.
  cbn in B1, B2, B3, B4, B5, B6.
  assert (B1' : 0 <= decimal (slice str 0 2) < 1000) by lia.
  destruct (sexagesimal_range _ _ _ B1' B2 B3) as [Hlat Hlat_val].
  destruct (sexagesimal_range _ _ _ B4 B5 B6) as [Hlon Hlon_val].
  destruct (hemisphere_range "S" (String.get 6 str) _ (101 * F64.unit) Hlat)
    as [Hlat' Hlat_val']; [nia|].
  destruct (hemisphere_range "W" (String.get 15 str) _ (1001 * F64.unit) Hlon)
    as [Hlon' Hlon_val']; [nia|].
  split; [exact Hlat'|]. split; [exact Hlon'|].
  split; [exact Hlat_val' | exact Hlon_val'].
Qed.

(* ===================================================================== *)
(** * Properties: the two copies of the position decoder                  *)
(* ===================================================================== *)

Lemma Old_parseLatLng_of_valid (str : string) :
  valid_position str ->
  Old.parseLatLng str =
  (mkPoint
     (hemisphere "W" (String.get 15 str)
        (sexagesimal_old (decimal (slice str 8 11)) (decimal (slice str 11 13))
           (decimal (slice str 13 15))))
     (hemisphere "S" (String.get 6 str)
        (sexagesimal_old (decimal (slice str 0 2)) (decimal (slice str 2 4))
           (decimal (slice str 4 6)))),
   None).
Proof.
  intros (Hlen & Hdig & Hns & Hsp & Hew).
  pose proof (digit_groups_length str Hlen) as Hgl.
  unfold digit_groups in Hdig, Hgl.
  rewrite !Forall_cons in Hdig, Hgl.
  destruct Hdig as (D1 & D2 & D3 & D4 & D5 & D6 & _).
  destruct Hgl as (L1 & L2 & L3 & L4 & L5 & L6 & _).
  unfold Old.parseLatLng, hemisphere, sexagesimal_old.
  rewrite Hlen, Hsp. rewrite bool_decide_true by reflexivity. simpl.
  rewrite !ParseUint_digits by assumption. simpl.
  destruct Hns as [-> | ->], Hew as [-> | ->]; reflexivity.
Qed.

(** From one second on, a number of seconds divided by 2600 exceeds the
    same number divided by 3600 by more than a ten-thousandth. *)
Lemma seconds_tables_differ (n : Z) :
  1 <= n < 100 ->
  number (F64.of_Z n / #2600)%f64
  /\ 0 <= 1000 * F64.scaled (F64.of_Z n / #2600)%f64 <= 39 * F64.unit
  /\ F64.unit <= 10000 * (F64.scaled (F64.of_Z n / #2600)%f64
                          - F64.scaled (F64.of_Z n / #3600)%f64).
Proof.
  intros Hn.
  assert (Htable : forallb (fun n => exceeds (F64.of_Z (n + 1) / #3600)%f64
                                       (F64.of_Z (n + 1) / #2600)%f64)
                     (first_naturals 99) = true)
    by (vm_compute; reflexivity).
  rewrite forallb_forall in Htable.
  specialize (Htable (n - 1) (first_naturals_In 99 (n - 1) ltac:(lia))).
  replace (n - 1 + 1) with n in Htable by lia.
  unfold exceeds in Htable. apply andb_prop in Htable as [H1 H2].
  apply number_within_spec in H1 as [Hnum Hval]. apply Z.leb_le in H2.
  split; [exact Hnum|]. split; [lia | exact H2].
Qed.

(** With seconds, the sum of the older copy is greater. *)
Lemma sexagesimal_old_greater (deg min sec : Z) :
  0 <= deg < 1000 -> 0 <= min < 100 -> 1 <= sec < 100 ->
  F64.scaled (sexagesimal deg min sec)
  < F64.scaled (sexagesimal_old deg min sec).
Proof.
  intros Hdeg Hmin Hsec. unfold sexagesimal, sexagesimal_old.
  pose proof unit_pos as Hu. pose proof rounding_error_tiny as Htiny.
  pose proof arc_range_small as Hsmall.
  destruct (degrees_table deg Hdeg) as [Hd Hd_val].
  destruct (minutes_table min Hmin) as [Hm Hm_val].
  destruct (seconds_table sec ltac:(lia)) as [Hs Hs_val].
  destruct (seconds_tables_differ sec Hsec) as (Ho & Ho_val & Hdiff).
  assert (Hrange : 0 <= deg * F64.unit <= 999 * F64.unit) by nia.
  destruct (f64_add_spec _ _ Hd Hm) as [H1 H1_val]; [rewrite Hd_val; lia|].
  rewrite Hd_val in H1_val.
  destruct (f64_add_spec _ _ H1 Hs) as [H2 H2_val]; [lia|].
  destruct (f64_add_spec _ _ H1 Ho) as [H3 H3_val]; [lia|].
  lia.
Qed.

Lemma sexagesimal_old_zero (deg min : Z) :
  sexagesimal_old deg min 0 = sexagesimal deg min 0.
Proof. reflexivity. Qed.

Lemma hemisphere_scaled_inj (neg : ascii) (h : option ascii) (x y : float64) :
  hemisphere neg h x = hemisphere neg h y -> F64.scaled x = F64.scaled y.
Proof.
  unfold hemisphere. intros H. apply (f_equal F64.scaled) in H.
  case_bool_decide; [rewrite !scaled_opp in H; lia | exact H].
Qed.

(** X11. The two copies of the position decoder reject the same strings.
    On a position of the form "DDMMSSH DDDMMSSH" they return the same point
    exactly when the seconds of the latitude and of the longitude are both
    zero: with seconds, the older copy, which divides them by 2600,
    returns another point. *)
Theorem parseLatLng_copies_agree_iff (str : string) :
  (Old.parseLatLng str).2 = (parseLatLng str).2
  /\ (valid_position str ->
      (Old.parseLatLng str = parseLatLng str <->
       decimal (slice str 4 6) = 0 /\ decimal (slice str 13 15) = 0)).
Proof.
  split; [apply parseLatLng_copies_same_errors|].
  intros Hvalid.
  rewrite (Old_parseLatLng_of_valid str Hvalid),
    (parseLatLng_of_valid str Hvalid).
  destruct Hvalid as (Hlen & Hdig & _).
  unfold digit_groups in Hdig. rewrite !Forall_cons in Hdig.
  destruct Hdig as (D1 & D2 & D3 & D4 & D5 & D6 & _).
  pose proof (group_bound str 0 2 Hlen ltac:(lia) D1) as B1.
  pose proof (group_bound str 2 4 Hlen ltac:(lia) D2) as B2.
  pose proof (group_bound str 4 6 Hlen ltac:(lia) D3) as B3.
  pose proof (group_bound str 8 11 Hlen ltac:(lia) D4) as B4.
  pose proof (group_bound str 11 13 Hlen ltac:(lia) D5) as B5.
  pose proof (group_bound str 13 15 Hlen ltac:(lia) D6) as B6.
  cbn in B1, B2, B3, B4, B5, B6.
  assert (B1' : 0 <= decimal (slice str 0 2) < 1000) by lia.
  split.
  - intros Heq. injection Heq as Hlon Hlat.
    apply hemisphere_scaled_inj in Hlon, Hlat. split.
    + destruct (Z.eq_dec (decimal (slice str 4 6)) 0) as [H0 | Hne];
        [exact H0|].
      assert (B3' : 1 <= decimal (slice str 4 6) < 100) by lia.
      pose proof (sexagesimal_old_greater _ _ _ B1' B2 B3'). lia.
    + destruct (Z.eq_dec (decimal (slice str 13 15)) 0) as [H0 | Hne];
        [exact H0|].
      assert (B6' : 1 <= decimal (slice str 13 15) < 100) by lia.
      pose proof (sexagesimal_old_greater _ _ _ B4 B5 B6'). lia.
  - intros [-> ->]. by rewrite !sexagesimal_old_zero.
Qed.

(* ===================================================================== *)
(** * Properties: the distance decoder                                    *)
(* ===================================================================== *)

Lemma all_digits_app (a b : string) :
  all_digits (a ++ b) = all_digits a && all_digits b.
Proof.
  unfold all_digits. induction a as [|c a IH]; [reflexivity|].
  simpl. by rewrite IH, andb_assoc.
Qed.

Lemma digits_no_unit (d : string) :
  all_digits d = true -> TrimSuffix d " nm" = d.
Proof.
  intros Hd. apply TrimSuffix_none. intros body ->.
  rewrite all_digits_app in Hd. apply andb_prop in Hd as [_ Hd].
  discriminate Hd.
Qed.

(** Whole nautical miles below 1000 are converted exactly. *)
Lemma nautical_miles_table (n : Z) :
  0 <= n < 1000 ->
  number (nautMilesToMeters (F64.of_Z n))
  /\ F64.scaled (nautMilesToMeters (F64.of_Z n)) = 1852 * n * F64.unit.
Proof.
  intros Hn.
  assert (Htable : forallb (fun n => number_within (1852 * n) (1852 * n) 1
                                       (nautMilesToMeters (F64.of_Z n)))
                     (first_naturals 1000) = true)
    by (vm_compute; reflexivity).
  rewrite forallb_forall in Htable.
  destruct (number_within_spec _ _ _ _
              (Htable n (first_naturals_In 1000 n Hn))) as [Hnum Hval].
  split; [exact Hnum | lia].
Qed.

(** X12. [decodeDistance] removes one trailing " nm", if there is one, and
    multiplies the number that [strconv.ParseFloat] reads by 1852.  For a
    distance of one to three digits, with or without the unit, the result
    is exactly 1852 times the number and nothing is logged.  When
    [strconv.ParseFloat] rejects the rest as not a number, the result is
    zero and one line is logged; no error is returned. *)
Theorem decodeDistance_rules {ext : External} :
  StrconvContract ext ->
  (forall d : string,
      all_digits d = true -> (1 <= String.length d <= 3)%nat ->
      exists x : float64,
        decodeDistance (d ++ " nm") = (x, [])
        /\ decodeDistance d = (x, [])
        /\ number x
        /\ F64.scaled x = 1852 * decimal d * F64.unit)
  /\ (forall (d : string) (f : float64),
         ParseFloat (TrimSuffix d " nm") = (f, Some ErrSyntax) ->
         decodeDistance d = (F64.zero, [InvalidDistance d ErrSyntax])).
Proof.
  intros Hconv. split.
  - intros d Hd Hlen.
    pose proof (decimal_bound d Hd) as Hbound.
    assert (Hsmall : 0 <= decimal d < 1000).
    { split; [lia|]. apply Z.lt_le_trans with (10 ^ Z.of_nat (String.length d));
        [lia|]. change 1000 with (10 ^ 3). apply Z.pow_le_mono_r; lia. }
    destruct (nautical_miles_table _ Hsmall) as [Hnum Hval].
    exists (nautMilesToMeters (F64.of_Z (decimal d))).
    unfold decodeDistance.
    rewrite TrimSuffix_app, (digits_no_unit d Hd).
    rewrite (ParseFloat_digits ext Hconv d Hd ltac:(lia)).
    cbn [warn]. split; [reflexivity|]. split; [reflexivity|].
    split; [exact Hnum | exact Hval].
  - intros d f Hparse. unfold decodeDistance. rewrite Hparse.
    by rewrite (ParseFloat_syntax ext Hconv _ _ Hparse).
Qed.

Lemma decodeDistance_rules_witness :
  exists x : float64,
    decodeDistance (ext := sample_external (mkResponse [])) "10 nm" = (x, [])
    /\ F64.scaled x = 1852 * 10 * F64.unit.
Proof.
  destruct (proj1 (decodeDistance_rules
                     (ext := sample_external (mkResponse []))
                     (sample_strconv_ok _)) "10" eq_refl)
    as (x & Hx & _ & _ & Hval).
  { simpl. lia. }
  exists x. split; [exact Hx | exact Hval].
Defined.

(* ===================================================================== *)
(** * Properties: the flags of entries with a local type                  *)
(* ===================================================================== *)

Lemma normalise_length {ext : External} (fuel : nat) (a : airspaceResponse)
    (w : list Warning) (features : list Feature.t) :
  normalise fuel a = Some (w, (features, None)) ->
  length features = length (Airspace a).
Proof.
  unfold normalise. intros H.
  destruct (forEachIndexed 0 (Airspace a) (normaliseFeature fuel) [])
    as [[w' [out | err]]|] eqn:Hloop; try discriminate H.
  injection H as _ <-.
  by apply normaliseFeatures_ok in Hloop as (new & -> & Hlen & _).
Qed.

(** X13. For an entry of type OTHER or D_OTHER the type of the feature is
    the local type of the entry, and the flags of the feature and of all
    its volumes are looked up under the local type: the entry D_OTHER of
    the table of dangerous types is not consulted, and an entry of type
    D_OTHER without local type is not flagged as dangerous. *)
Theorem normalise_local_type_flags {ext : External} (fuel : nat)
    (a : airspaceResponse) (w : list Warning) (features : list Feature.t) :
  normalise fuel a = Some (w, (features, None)) ->
  forall (i : nat) (f : RawAirspace.t) (feat : Feature.t),
    Airspace a !! i = Some f -> features !! i = Some feat ->
    RawAirspace.Type_ f = "OTHER" \/ RawAirspace.Type_ f = "D_OTHER" ->
    Feature.Type_ feat = RawAirspace.LocalType f
    /\ Danger feat = index dangerTypes (RawAirspace.LocalType f)
    /\ ClearanceRequired feat
       = index prohibitedAirspaceClasses (RawAirspace.Class f)
         || index prohibitedTypes (RawAirspace.LocalType f)
    /\ Forall (fun vol =>
                 Volume.Type_ vol = RawAirspace.LocalType f
                 /\ Volume.Danger vol = Danger feat
                 /\ Volume.ClearanceRequired vol = ClearanceRequired feat)
         (Feature.Geometry feat)
    /\ (RawAirspace.LocalType f = "" -> Danger feat = false).
Proof.
  unfold normalise. intros H i f feat Hf Hfeat Htype.
  destruct (forEachIndexed 0 (Airspace a) (normaliseFeature fuel) [])
    as [[w' [out | err]]|] eqn:Hloop; try discriminate H.
  injection H as _ <-.
  apply normaliseFeatures_ok in Hloop as (new & -> & _ & Hnew).
  destruct (Hnew i f feat Hf Hfeat) as (_ & _ & Hty & Hclass & Hvols).
  assert (Hlocal : Feature.Type_ feat = RawAirspace.LocalType f).
  { rewrite Hty. unfold resolveAirspaceType. by destruct Htype as [-> | ->]. }
  split; [exact Hlocal|]. unfold Danger, ClearanceRequired.
  rewrite Hlocal, Hclass. split; [reflexivity|]. split; [reflexivity|]. split.
  - clear -Hvols Hlocal Hclass.
    induction Hvols as [|g vol gs vols Hvol _ IH]; constructor; [|exact IH].
    destruct Hvol as (_ & _ & _ & Ht & _ & _ & _ & Hc & Hd).
    unfold Danger, ClearanceRequired in Hc, Hd.
    rewrite Hlocal in Ht, Hc, Hd. rewrite Hclass in Hc. by repeat split.
  - by intros ->.
Qed.

Lemma normalise_local_type_flags_witness :
  exists (w : list Warning) (feat : Feature.t),
    normalise (ext := sample_external (mkResponse [])) arcFuel d_other_doc
    = Some (w, ([feat], None))
    /\ Danger feat = false.
Proof.
  destruct (proj1 (normalise_checks (sample_bearing_ok (mkResponse []))
                     arcFuel (le_n _) d_other_doc))
    as (w & features & Hrun).
  { unfold document_positions, d_other_doc. simpl.
    repeat (constructor; [vm_compute; reflexivity|]). constructor. }
  pose proof (normalise_length _ _ _ _ Hrun) as Hlen.
  destruct features as [|feat [|feat' features]]; try discriminate Hlen.
  exists w, feat. split; [exact Hrun|].
  by apply (normalise_local_type_flags _ _ _ _ Hrun 0%nat _ feat eq_refl eq_refl
              (or_intror eq_refl)).
Defined.

(* ===================================================================== *)
(** * Properties: the two copies of the query handler                     *)
(* ===================================================================== *)





(* ===================================================================== *)
(** * Properties: from the document to the answers of the server          *)
(* ===================================================================== *)



